(** * ava-labs/gecko: conflict manager, vertex builder, vertex issuer,
      AVM pagination and managed-asset epoch rule, platform health check.

    A shallow embedding of the Go sources and the properties the
    specification states about them.

    Conventions.
    - Go maps become stdpp [gmap]s; a lookup of a missing key yields the
      zero value, which is written out with [default].
    - [ids.Set] (a Go map used as a set) becomes [gset].
    - Collaborators whose code is not part of the sources at hand are
      taken as parameters of a [Section]; results then hold for every
      implementation of the collaborator. *)

From Stdlib Require Import ZArith List Lia Floats Sorting.Permutation Sorting.Sorted.
From stdpp Require Import base option list gmap fin_sets sorting.

Set Warnings "-clear-no-such-hyp".

(** ** snow/choices: the status of a decidable element *)

Inductive Status := Unknown | Processing | Accepted | Rejected.

#[global] Instance Status_eq_dec : EqDecision Status.
Proof. solve_decision. Defined.

(** * snow/consensus/snowstorm/conflicts/conflicts.go *)

Module ConflictsPkg.

(** The [Tx] interface, as far as conflicts.go calls it: [tx.ID()],
    [tx.InputIDs()] and [tx.Dependencies()]. *)
Class TxInterface (ids_ID Tx : Type) := {
  ID : Tx → ids_ID;
  InputIDs : Tx → list ids_ID;
  Dependencies : Tx → list Tx;
}.

(** [events.Blocker] together with the callbacks of the entries registered
    in it. snow/events and the acceptor / rejector types are not among the
    sources, so a blocker is a parameter: a state and three operations.
    Every operation returns the new blocker and the transactions whose
    callback ran; an acceptor's callback appends its tx to [c.acceptable],
    a rejector's callback appends its tx to [c.rejectable]. *)
Record Blocker (ids_ID : Type) `{Countable ids_ID} (Tx B : Type) := {
  Register : B → Tx → gset ids_ID → B * list Tx;
  Fulfill : B → ids_ID → B * list Tx;
  Abandon : B → ids_ID → B * list Tx;
}.
Arguments Register {_ _ _ _ _} _ _ _ _.
Arguments Fulfill {_ _ _ _ _} _ _ _.
Arguments Abandon {_ _ _ _ _} _ _ _.

Inductive Error := errInvalidTxType.

Section conflicts.

Context {ids_ID : Type} `{Countable ids_ID}.
Context {Tx : Type} `{!TxInterface ids_ID Tx}.
(** [choices.Decidable] values and the type assertion [txIntf.(Tx)]. *)
Context {Decidable : Type} (asTx : Decidable → option Tx).
Context {BA BR : Type}.
Context (PA : Blocker ids_ID Tx BA) (PR : Blocker ids_ID Tx BR).
(** The zero value of a blocker ([New] leaves both blockers unset). *)
Context (emptyBA : BA) (emptyBR : BR).

(** [type Conflicts struct]. The two queues hold the [tx] field of the
    acceptor / rejector that fired, which has type [Tx]. *)
Record ConflictsState := mkConflicts {
  txs : gmap ids_ID Tx;
  utxos : gmap ids_ID (gset ids_ID);
  pendingAccept : BA;
  pendingReject : BR;
  acceptable : list Tx;
  rejectable : list Tx;
}.

Definition New : ConflictsState :=
  {| txs := ∅; utxos := ∅;
     pendingAccept := emptyBA; pendingReject := emptyBR;
     acceptable := []; rejectable := [] |}.

(** [c.utxos[inputKey]] read as Go reads it: a missing key is the nil set. *)
Definition spenders_of (u : gmap ids_ID (gset ids_ID)) (inputKey : ids_ID) : gset ids_ID :=
  default ∅ (u !! inputKey).

(** Body of the first loop of [Add]:
    [spenders := c.utxos[k]; spenders.Add(txID); c.utxos[k] = spenders]. *)
Definition add_spender (txID : ids_ID) (u : gmap ids_ID (gset ids_ID)) (inputKey : ids_ID) :
    gmap ids_ID (gset ids_ID) :=
  <[inputKey := spenders_of u inputKey ∪ {[txID]}]> u.

(** The loop shared by [Add] and [Accept]:
    [if dependency.Status() != choices.Accepted { deps.Add(dependency.ID()) }].
    [status] is what [dependency.Status()] answers at the time of the call. *)
Definition add_dependency (status : Tx → Status) (deps : gset ids_ID) (dependency : Tx) :
    gset ids_ID :=
  if decide (status dependency ≠ Accepted) then deps ∪ {[ID dependency]} else deps.

Definition Add (c : ConflictsState) (status : Tx → Status) (txIntf : Decidable) :
    Error + ConflictsState :=
  match asTx txIntf with
  | None => inl errInvalidTxType
  | Some tx =>
      let txID := ID tx in
      let txs' := <[txID := tx]> (txs c) in
      let utxos' := foldl (add_spender txID) (utxos c) (InputIDs tx) in
      let deps := foldl (add_dependency status) {[txID]} (Dependencies tx) in
      let '(pr, fired) := Register PR (pendingReject c) tx deps in
      inr {| txs := txs'; utxos := utxos';
             pendingAccept := pendingAccept c; pendingReject := pr;
             acceptable := acceptable c;
             rejectable := rejectable c ++ fired |}
  end.

Definition IsVirtuous (c : ConflictsState) (txIntf : Decidable) : Error + bool :=
  match asTx txIntf with
  | None => inl errInvalidTxType
  | Some tx =>
      inr (forallb (λ inputID, bool_decide (utxos c !! inputID = None)) (InputIDs tx))
  end.

(** [conflicts.Union(c.utxos[inputID.Key()])] over the inputs, starting from
    the nil set. [Union] copies the members, so the result shares nothing
    with the buckets. *)
Definition conflicts (c : ConflictsState) (tx : Tx) : gset ids_ID :=
  foldl (λ acc inputID, acc ∪ spenders_of (utxos c) inputID) ∅ (InputIDs tx).

Definition Conflicts (c : ConflictsState) (txIntf : Decidable) : Error + gset ids_ID :=
  match asTx txIntf with
  | None => inl errInvalidTxType
  | Some tx => inr (conflicts c tx)
  end.

(** [c.pendingAccept.Register(toAccept)] for the acceptor of [tx] with the
    dependency set [deps]. *)
Definition register_acceptor (c : ConflictsState) (tx : Tx) (deps : gset ids_ID) :
    ConflictsState :=
  let '(pa, fired) := Register PA (pendingAccept c) tx deps in
  {| txs := txs c; utxos := utxos c;
     pendingAccept := pa; pendingReject := pendingReject c;
     acceptable := acceptable c ++ fired;
     rejectable := rejectable c |}.

(** [Accept]. [c.txs[txID.Key()]] of a missing key is the nil interface and
    [tx.Dependencies()] on it is a nil dereference: the run-time panic is
    the result [None]. *)
Definition Accept (c : ConflictsState) (status : Tx → Status) (txID : ids_ID) :
    option ConflictsState :=
  match txs c !! txID with
  | None => None
  | Some tx =>
      let deps := foldl (add_dependency status) ∅ (Dependencies tx) in
      Some (register_acceptor c tx deps)
  end.

(** Body of the inner loop of [Updateable]:
    [spenders := c.utxos[k]; delete(spenders, txKey);
     if spenders.Len() == 0 { delete(c.utxos, k) } else { c.utxos[k] = spenders }]. *)
Definition remove_spender (txKey : ids_ID) (u : gmap ids_ID (gset ids_ID)) (inputKey : ids_ID) :
    gmap ids_ID (gset ids_ID) :=
  let spenders := spenders_of u inputKey ∖ {[txKey]} in
  if decide (size spenders = 0) then delete inputKey u else <[inputKey := spenders]> u.

(** [for conflictKey := range c.conflicts(tx) { c.pendingReject.Fulfill(..) }].
    Go ranges over a map in an unspecified order; [elements] fixes one. *)
Definition fulfill_all (b : BR) (keys : list ids_ID) : BR * list Tx :=
  foldl (λ '(b, fired) k, let '(b', f) := Fulfill PR b k in (b', fired ++ f)) (b, []) keys.

(** One iteration of the loop over the drained [acceptable] slice. *)
Definition update_accepted (c : ConflictsState) (tx : Tx) : ConflictsState :=
  let txID := ID tx in
  let utxos' := foldl (remove_spender txID) (utxos c) (InputIDs tx) in
  let txs' := delete txID (txs c) in
  let '(pa, fa) := Fulfill PA (pendingAccept c) txID in
  let '(pr, fr) := Abandon PR (pendingReject c) txID in
  let c1 := {| txs := txs'; utxos := utxos';
               pendingAccept := pa; pendingReject := pr;
               acceptable := acceptable c ++ fa;
               rejectable := rejectable c ++ fr |} in
  let '(pr', fr') := fulfill_all (pendingReject c1) (elements (conflicts c1 tx)) in
  {| txs := txs c1; utxos := utxos c1;
     pendingAccept := pendingAccept c1; pendingReject := pr';
     acceptable := acceptable c1;
     rejectable := rejectable c1 ++ fr' |}.

(** One iteration of the loop over the drained [rejectable] slice. *)
Definition update_rejected (c : ConflictsState) (tx : Tx) : ConflictsState :=
  let txID := ID tx in
  let utxos' := foldl (remove_spender txID) (utxos c) (InputIDs tx) in
  let txs' := delete txID (txs c) in
  let '(pa, fa) := Abandon PA (pendingAccept c) txID in
  let '(pr, fr) := Fulfill PR (pendingReject c) txID in
  {| txs := txs'; utxos := utxos';
     pendingAccept := pa; pendingReject := pr;
     acceptable := acceptable c ++ fa;
     rejectable := rejectable c ++ fr |}.

Definition set_acceptable (c : ConflictsState) (l : list Tx) : ConflictsState :=
  {| txs := txs c; utxos := utxos c;
     pendingAccept := pendingAccept c; pendingReject := pendingReject c;
     acceptable := l; rejectable := rejectable c |}.

Definition set_rejectable (c : ConflictsState) (l : list Tx) : ConflictsState :=
  {| txs := txs c; utxos := utxos c;
     pendingAccept := pendingAccept c; pendingReject := pendingReject c;
     acceptable := acceptable c; rejectable := l |}.

(** [Updateable] returns the state it leaves behind and the two drained
    slices. The rejectable slice is read after the first loop, so it holds
    what that loop's callbacks appended. *)
Definition Updateable (c : ConflictsState) : ConflictsState * list Tx * list Tx :=
  let acceptable0 := acceptable c in
  let c1 := foldl update_accepted (set_acceptable c []) acceptable0 in
  let rejectable0 := rejectable c1 in
  let c2 := foldl update_rejected (set_rejectable c1 []) rejectable0 in
  (c2, acceptable0, rejectable0).

(** States the manager can be in: any interleaving of [Add], [Accept] and
    [Updateable] from [New], with any answers of [Status()]. *)
Inductive reachable : ConflictsState → Prop :=
  | reachable_New : reachable New
  | reachable_Add c status txIntf c' :
      reachable c → Add c status txIntf = inr c' → reachable c'
  | reachable_Accept c status txID c' :
      reachable c → Accept c status txID = Some c' → reachable c'
  | reachable_Updateable c :
      reachable c → reachable (Updateable c).1.1.

(** The same interleavings as a program: a list of calls run from [New].
    A call that fails ([Add] of a non-tx, [Accept] of an unknown id) ends
    the run with [None]. *)
Inductive Op :=
  | OpAdd (status : Tx → Status) (txIntf : Decidable)
  | OpAccept (status : Tx → Status) (txID : ids_ID)
  | OpUpdateable.

Definition step (c : ConflictsState) (op : Op) : option ConflictsState :=
  match op with
  | OpAdd status txIntf =>
      match Add c status txIntf with inr c' => Some c' | inl _ => None end
  | OpAccept status txID => Accept c status txID
  | OpUpdateable => Some (Updateable c).1.1
  end.

Fixpoint run_from (c : ConflictsState) (ops : list Op) : option ConflictsState :=
  match ops with
  | [] => Some c
  | op :: ops' =>
      match step c op with Some c' => run_from c' ops' | None => None end
  end.

Definition run (ops : list Op) : option ConflictsState := run_from New ops.

(** No spender bucket is empty. *)
Definition no_empty_bucket (u : gmap ids_ID (gset ids_ID)) : Prop :=
  ∀ k s, u !! k = Some s → s ≠ ∅.

(** A bucket only lists txs that name the bucket's key among their inputs. *)
Definition index_sound (u : gmap ids_ID (gset ids_ID)) : Prop :=
  ∀ k i, i ∈ spenders_of u k → ∃ tx : Tx, ID tx = i ∧ k ∈ InputIDs tx.

(** [u'] lists no spender that [u] does not list. *)
Definition shrinks (u' u : gmap ids_ID (gset ids_ID)) : Prop :=
  ∀ k, spenders_of u' k ⊆ spenders_of u k.

(** ** Buckets *)

Lemma spenders_of_Some u k s : u !! k = Some s → spenders_of u k = s.
Proof. unfold spenders_of. by intros ->. Qed.

Lemma spenders_of_None u k : u !! k = None → spenders_of u k = ∅.
Proof. unfold spenders_of. by intros ->. Qed.

Lemma spenders_of_add_spender t u k k' :
  spenders_of (add_spender t u k) k' =
  if decide (k = k') then spenders_of u k ∪ {[t]} else spenders_of u k'.
Proof.
  unfold add_spender. case_decide as Hk.
  - subst k'. unfold spenders_of at 1. by rewrite lookup_insert_eq.
  - unfold spenders_of. by rewrite lookup_insert_ne.
Qed.

Lemma spenders_of_remove_spender t u k k' :
  spenders_of (remove_spender t u k) k' =
  if decide (k = k') then spenders_of u k ∖ {[t]} else spenders_of u k'.
Proof.
  unfold remove_spender. cbv zeta.
  destruct (decide (size (spenders_of u k ∖ {[t]}) = 0)) as [Hz|Hz];
    case_decide as Hk; subst.
  - apply size_empty_inv in Hz. apply leibniz_equiv in Hz. rewrite Hz.
    unfold spenders_of at 1. by rewrite lookup_delete_eq.
  - unfold spenders_of. by rewrite lookup_delete_ne.
  - unfold spenders_of at 1. by rewrite lookup_insert_eq.
  - unfold spenders_of. by rewrite lookup_insert_ne.
Qed.

Lemma spenders_of_foldl_add t l u k :
  spenders_of (foldl (add_spender t) u l) k =
  if decide (k ∈ l) then spenders_of u k ∪ {[t]} else spenders_of u k.
Proof.
  revert u. induction l as [|a l IH]; intros u; cbn [foldl].
  - by rewrite decide_False by apply not_elem_of_nil.
  - rewrite IH, spenders_of_add_spender.
    destruct (decide (k ∈ a :: l)) as [Hin|Hin], (decide (k ∈ l)) as [Hl|Hl],
      (decide (a = k)) as [->|Hne]; try done; try set_solver.
Qed.

Lemma spenders_of_foldl_remove t l u k :
  spenders_of (foldl (remove_spender t) u l) k =
  if decide (k ∈ l) then spenders_of u k ∖ {[t]} else spenders_of u k.
Proof.
  revert u. induction l as [|a l IH]; intros u; cbn [foldl].
  - by rewrite decide_False by apply not_elem_of_nil.
  - rewrite IH, spenders_of_remove_spender.
    destruct (decide (k ∈ a :: l)) as [Hin|Hin], (decide (k ∈ l)) as [Hl|Hl],
      (decide (a = k)) as [->|Hne]; try done; try set_solver.
Qed.

Lemma no_empty_bucket_add_spender t u k :
  no_empty_bucket u → no_empty_bucket (add_spender t u k).
Proof.
  intros Hu k' s. unfold add_spender. destruct (decide (k = k')) as [->|Hne].
  - rewrite lookup_insert_eq. intros [= <-]. set_solver.
  - rewrite lookup_insert_ne by done. apply Hu.
Qed.

Lemma no_empty_bucket_remove_spender t u k :
  no_empty_bucket u → no_empty_bucket (remove_spender t u k).
Proof.
  intros Hu k' s. unfold remove_spender. cbv zeta.
  destruct (decide (size (spenders_of u k ∖ {[t]}) = 0)) as [Hz|Hz].
  - intros Hl. apply lookup_delete_Some in Hl as [_ Hl]. by eapply Hu.
  - destruct (decide (k = k')) as [->|Hne].
    + rewrite lookup_insert_eq. intros [= <-] He. apply Hz. rewrite He. apply size_empty.
    + rewrite lookup_insert_ne by done. apply Hu.
Qed.

Lemma no_empty_bucket_foldl (f : gmap ids_ID (gset ids_ID) → ids_ID → gmap ids_ID (gset ids_ID)) l u :
  (∀ u k, no_empty_bucket u → no_empty_bucket (f u k)) →
  no_empty_bucket u → no_empty_bucket (foldl f u l).
Proof. intros Hf. revert u. induction l; simpl; auto. Qed.

Lemma shrinks_refl u : shrinks u u.
Proof. by intros k. Qed.

Lemma shrinks_trans u1 u2 u3 : shrinks u1 u2 → shrinks u2 u3 → shrinks u1 u3.
Proof. intros H12 H23 k. specialize (H12 k). specialize (H23 k). set_solver. Qed.

Lemma shrinks_foldl_remove t l u : shrinks (foldl (remove_spender t) u l) u.
Proof. intros k. rewrite spenders_of_foldl_remove. case_decide; set_solver. Qed.

Lemma index_sound_shrinks u' u : shrinks u' u → index_sound u → index_sound u'.
Proof. intros Hs Hu k i Hi. apply Hu. by apply Hs. Qed.

Lemma index_sound_foldl_add (tx : Tx) u :
  index_sound u → index_sound (foldl (add_spender (ID tx)) u (InputIDs tx)).
Proof.
  intros Hu k i. rewrite spenders_of_foldl_add. case_decide as Hk; [|by apply Hu].
  intros [Hi|Hi]%elem_of_union; [by apply Hu|].
  apply elem_of_singleton in Hi as ->. by exists tx.
Qed.

Lemma empty_bucket_iff_absent u k :
  no_empty_bucket u → (spenders_of u k = ∅ ↔ u !! k = None).
Proof.
  intros Hu. split; [|apply spenders_of_None].
  destruct (u !! k) as [s|] eqn:Hl; [|done].
  rewrite (spenders_of_Some _ _ _ Hl). intros ->. by apply Hu in Hl.
Qed.

(** ** What one pass of a draining loop does to [txs] and [utxos] *)

Lemma update_accepted_utxos c tx :
  utxos (update_accepted c tx) = foldl (remove_spender (ID tx)) (utxos c) (InputIDs tx).
Proof.
  unfold update_accepted. cbv zeta.
  destruct (Fulfill PA _ _), (Abandon PR _ _). simpl.
  by destruct (fulfill_all _ _).
Qed.

Lemma update_accepted_txs c tx :
  txs (update_accepted c tx) = delete (ID tx) (txs c).
Proof.
  unfold update_accepted. cbv zeta.
  destruct (Fulfill PA _ _), (Abandon PR _ _). simpl.
  by destruct (fulfill_all _ _).
Qed.

Lemma update_rejected_utxos c tx :
  utxos (update_rejected c tx) = foldl (remove_spender (ID tx)) (utxos c) (InputIDs tx).
Proof.
  unfold update_rejected. cbv zeta.
  by destruct (Abandon PA _ _), (Fulfill PR _ _).
Qed.

Lemma update_rejected_txs c tx :
  txs (update_rejected c tx) = delete (ID tx) (txs c).
Proof.
  unfold update_rejected. cbv zeta.
  by destruct (Abandon PA _ _), (Fulfill PR _ _).
Qed.

(** A loop body that removes its tx from [txs] and from the buckets of the
    tx's inputs, whatever else it does with blockers and queues. *)
Definition drains (f : ConflictsState → Tx → ConflictsState) : Prop :=
  ∀ c tx,
    utxos (f c tx) = foldl (remove_spender (ID tx)) (utxos c) (InputIDs tx) ∧
    txs (f c tx) = delete (ID tx) (txs c).

Lemma drains_update_accepted : drains update_accepted.
Proof. intros c tx. split; [apply update_accepted_utxos | apply update_accepted_txs]. Qed.

Lemma drains_update_rejected : drains update_rejected.
Proof. intros c tx. split; [apply update_rejected_utxos | apply update_rejected_txs]. Qed.

Section drain_loop.
Variable f : ConflictsState → Tx → ConflictsState.
Hypothesis Hf : drains f.

Lemma drain_loop_shrinks l c : shrinks (utxos (foldl f c l)) (utxos c).
Proof.
  revert c. induction l as [|tx l IH]; intros c; simpl; [apply shrinks_refl|].
  eapply shrinks_trans; [apply IH|].
  destruct (Hf c tx) as [-> _]. apply shrinks_foldl_remove.
Qed.

Lemma drain_loop_txs_None l c i :
  txs c !! i = None → txs (foldl f c l) !! i = None.
Proof.
  revert c. induction l as [|tx l IH]; intros c Hi; simpl; [done|].
  apply IH. destruct (Hf c tx) as [_ ->]. apply lookup_delete_None. by right.
Qed.

Lemma drain_loop_no_empty_bucket l c :
  no_empty_bucket (utxos c) → no_empty_bucket (utxos (foldl f c l)).
Proof.
  revert c. induction l as [|tx l IH]; intros c Hc; simpl; [done|].
  apply IH. destruct (Hf c tx) as [-> _].
  apply no_empty_bucket_foldl; [|done]. intros. by apply no_empty_bucket_remove_spender.
Qed.

Lemma drain_loop_txs_gone l c tx :
  tx ∈ l → txs (foldl f c l) !! ID tx = None.
Proof.
  revert c. induction l as [|tx' l IH]; intros c Hin; [by apply elem_of_nil in Hin|].
  simpl. apply elem_of_cons in Hin as [->|Hin]; [|by apply IH].
  apply drain_loop_txs_None. destruct (Hf c tx') as [_ ->]. apply lookup_delete_eq.
Qed.

Lemma drain_loop_spender_gone l c tx k :
  tx ∈ l → k ∈ InputIDs tx → ID tx ∉ spenders_of (utxos (foldl f c l)) k.
Proof.
  revert c. induction l as [|tx' l IH]; intros c Hin Hk; [by apply elem_of_nil in Hin|].
  simpl. apply elem_of_cons in Hin as [->|Hin]; [|by apply IH].
  intros Hc. apply drain_loop_shrinks in Hc.
  destruct (Hf c tx') as [Hu _]. rewrite Hu, spenders_of_foldl_remove in Hc.
  rewrite decide_True in Hc by done. set_solver.
Qed.

End drain_loop.

(** ** Invariants of reachable states *)

Lemma Add_utxos c status txIntf c' tx :
  asTx txIntf = Some tx → Add c status txIntf = inr c' →
  utxos c' = foldl (add_spender (ID tx)) (utxos c) (InputIDs tx) ∧
  txs c' = <[ID tx := tx]> (txs c).
Proof.
  unfold Add. intros ->. cbv zeta. destruct (Register PR _ _ _). by intros [= <-].
Qed.

Lemma Accept_utxos c status txID c' :
  Accept c status txID = Some c' → utxos c' = utxos c ∧ txs c' = txs c.
Proof.
  unfold Accept, register_acceptor. destruct (txs c !! txID); [|done]. cbv zeta.
  destruct (Register PA _ _ _). by intros [= <-].
Qed.

Lemma Updateable_shrinks c : shrinks (utxos (Updateable c).1.1) (utxos c).
Proof.
  unfold Updateable. cbv zeta. simpl.
  eapply shrinks_trans; [apply drain_loop_shrinks, drains_update_rejected|]. simpl.
  eapply shrinks_trans; [apply drain_loop_shrinks, drains_update_accepted|].
  apply shrinks_refl.
Qed.

Lemma Updateable_no_empty_bucket c :
  no_empty_bucket (utxos c) → no_empty_bucket (utxos (Updateable c).1.1).
Proof.
  intros Hc. unfold Updateable. cbv zeta. simpl.
  apply drain_loop_no_empty_bucket; [apply drains_update_rejected|]. simpl.
  by apply drain_loop_no_empty_bucket; [apply drains_update_accepted|].
Qed.

Lemma reachable_no_empty_bucket c : reachable c → no_empty_bucket (utxos c).
Proof.
  induction 1 as [|c status txIntf c' _ IH Hadd|c status txID c' _ IH Hacc|c _ IH].
  - intros k s. simpl. by rewrite lookup_empty.
  - destruct (asTx txIntf) as [tx|] eqn:Htx.
    + destruct (Add_utxos _ _ _ _ _ Htx Hadd) as [-> _].
      apply no_empty_bucket_foldl; [|done]. intros. by apply no_empty_bucket_add_spender.
    + unfold Add in Hadd. by rewrite Htx in Hadd.
  - by destruct (Accept_utxos _ _ _ _ Hacc) as [-> _].
  - by apply Updateable_no_empty_bucket.
Qed.

Lemma reachable_index_sound c : reachable c → index_sound (utxos c).
Proof.
  induction 1 as [|c status txIntf c' _ IH Hadd|c status txID c' _ IH Hacc|c _ IH].
  - intros k i. simpl. unfold spenders_of. rewrite lookup_empty. set_solver.
  - destruct (asTx txIntf) as [tx|] eqn:Htx.
    + destruct (Add_utxos _ _ _ _ _ Htx Hadd) as [-> _]. by apply index_sound_foldl_add.
    + unfold Add in Hadd. by rewrite Htx in Hadd.
  - by destruct (Accept_utxos _ _ _ _ Hacc) as [-> _].
  - eapply index_sound_shrinks; [apply Updateable_shrinks | done].
Qed.

Lemma run_from_reachable ops c c' :
  reachable c → run_from c ops = Some c' → reachable c'.
Proof.
  revert c. induction ops as [|op ops IH]; intros c Hc; cbn [run_from].
  - by intros [= <-].
  - destruct (step c op) as [c1|] eqn:Hstep; [|done]. apply IH.
    destruct op as [status txIntf|status txID|]; cbn [step] in Hstep.
    + destruct (Add c status txIntf) as [|c2] eqn:Hadd; [done|].
      injection Hstep as <-. by eapply reachable_Add.
    + by eapply reachable_Accept.
    + injection Hstep as <-. by apply reachable_Updateable.
Qed.

Lemma run_reachable ops c : run ops = Some c → reachable c.
Proof. apply run_from_reachable, reachable_New. Qed.

Lemma elem_of_foldl_add_dependency status l deps0 i :
  i ∈ foldl (add_dependency status) deps0 l ↔
  i ∈ deps0 ∨ ∃ d, d ∈ l ∧ ID d = i ∧ status d ≠ Accepted.
Proof.
  revert deps0. induction l as [|d l IH]; intros deps0; cbn [foldl].
  - split; [by left|]. intros [?|(d & Hd & _)]; [done|]. by apply elem_of_nil in Hd.
  - rewrite IH. unfold add_dependency. split.
    + intros [Hi|(d' & Hd' & Hid & Hst)].
      * case_decide as Hst; [|by left].
        apply elem_of_union in Hi as [Hi|Hi]; [by left|].
        apply elem_of_singleton in Hi. right. exists d. split; [left|done].
      * right. exists d'. split; [by right|done].
    + intros [Hi|(d' & Hd' & Hid & Hst)].
      * left. case_decide; set_solver.
      * apply elem_of_cons in Hd' as [->|Hd'].
        -- left. rewrite decide_True by done. set_solver.
        -- right. by exists d'.
Qed.

Lemma elem_of_conflicts c tx i :
  i ∈ conflicts c tx ↔
  ∃ inputID, inputID ∈ InputIDs tx ∧ i ∈ spenders_of (utxos c) inputID.
Proof.
  unfold conflicts.
  cut (∀ l acc, i ∈ foldl (λ acc inputID, acc ∪ spenders_of (utxos c) inputID) acc l ↔
                i ∈ acc ∨ ∃ inputID, inputID ∈ l ∧ i ∈ spenders_of (utxos c) inputID).
  { intros Hl. rewrite Hl. split; [|by right]. intros [Hi|?]; [set_solver|done]. }
  induction l as [|a l IH]; intros acc; cbn [foldl].
  - split; [by left|]. intros [?|(k & Hk & _)]; [done|]. by apply elem_of_nil in Hk.
  - rewrite IH. split.
    + intros [[Hi|Hi]%elem_of_union|(k & Hk & Hi)].
      * by left.
      * right. exists a. split; [left|done].
      * right. exists k. split; [by right|done].
    + intros [Hi|(k & Hk & Hi)].
      * left. set_solver.
      * apply elem_of_cons in Hk as [->|Hk]; [left; set_solver|].
        right. by exists k.
Qed.

(** ** Properties of the conflict manager *)

(** C1. In a reachable state, with tx ids that determine the inputs of
    their tx, every tx that a call of [Updateable] returns (in the
    acceptable or in the rejectable slice) is gone when the call returns:
    its id is no key of [txs] and no member of any bucket of [utxos], and
    no bucket of [utxos] is left empty. *)
Theorem Updateable_symmetric_removal c tx :
  (∀ t1 t2 : Tx, ID t1 = ID t2 → InputIDs t1 = InputIDs t2) →
  reachable c →
  tx ∈ ((Updateable c).1.2) ++ ((Updateable c).2) →
  txs ((Updateable c).1.1) !! ID tx = None ∧
  (∀ k s, utxos ((Updateable c).1.1) !! k = Some s → (ID tx ∉ s) ∧ s ≠ ∅).
Proof.
  intros Hid Hc Hin.
  pose proof (reachable_Updateable _ Hc) as Hc'.
  pose proof (reachable_index_sound _ Hc') as Hsound.
  pose proof (reachable_no_empty_bucket _ Hc') as Hne.
  revert Hin Hsound Hne. unfold Updateable. cbv zeta. simpl.
  set (c1 := foldl update_accepted (set_acceptable c []) (acceptable c)).
  set (c2 := foldl update_rejected (set_rejectable c1 []) (rejectable c1)).
  intros Hin Hsound Hne.
  assert (∀ k, k ∈ InputIDs tx → ID tx ∉ spenders_of (utxos c2) k) as Hgone.
  { intros k Hk. apply elem_of_app in Hin as [Hin|Hin].
    - intros Hc2. apply (drain_loop_shrinks _ drains_update_rejected) in Hc2.
      revert Hc2. simpl. by apply (drain_loop_spender_gone _ drains_update_accepted).
    - by apply (drain_loop_spender_gone _ drains_update_rejected). }
  split.
  - apply elem_of_app in Hin as [Hin|Hin].
    + apply (drain_loop_txs_None _ drains_update_rejected). simpl.
      by apply (drain_loop_txs_gone _ drains_update_accepted).
    + by apply (drain_loop_txs_gone _ drains_update_rejected).
  - intros k s Hks. split; [|by eapply Hne].
    intros Hs. rewrite <- (spenders_of_Some _ _ _ Hks) in Hs.
    destruct (Hsound _ _ Hs) as (tx' & Hid' & Hk).
    rewrite (Hid _ _ Hid') in Hk. by apply (Hgone k).
Qed.

(** C3. In a reachable state [IsVirtuous] of a transaction answers true
    exactly when the spender set of every input id of the tx is empty. *)
Theorem IsVirtuous_iff_no_spender c txIntf tx :
  reachable c → asTx txIntf = Some tx →
  ∃ b, IsVirtuous c txIntf = inr b ∧
       (b = true ↔ ∀ inputID, inputID ∈ InputIDs tx → spenders_of (utxos c) inputID = ∅).
Proof.
  intros Hc Htx. unfold IsVirtuous. rewrite Htx. eexists. split; [done|].
  pose proof (reachable_no_empty_bucket _ Hc) as Hne.
  rewrite forallb_forall. split.
  - intros Hall k Hk. apply empty_bucket_iff_absent; [done|].
    apply (bool_decide_eq_true (utxos c !! k = None)), Hall. by apply list_elem_of_In.
  - intros Hall k Hk. apply bool_decide_eq_true, empty_bucket_iff_absent; [done|].
    by apply Hall, list_elem_of_In.
Qed.

(** C9. In every state reachable from [New] no key of [utxos] maps to an
    empty spender set. *)
Theorem utxos_has_no_empty_bucket c k s :
  reachable c → utxos c !! k = Some s → s ≠ ∅.
Proof. intros Hc. apply (reachable_no_empty_bucket _ Hc). Qed.

(** C10. [Accept] of an id that is a key of [txs] returns. What it has
    done is to hand [pendingAccept.Register] the acceptor of the stored tx,
    with just the ids of the tx's dependencies whose status is not
    Accepted as its dependency set: [pendingAccept] is the blocker that
    [Register] returns and the acceptors that fired on the way are queued
    in [acceptable]; nothing else of the manager changes. [Accept] of an id
    that is no key of [txs] fails (nil dereference). *)
Theorem Accept_needs_processing_tx c status txID :
  (∀ tx, txs c !! txID = Some tx →
     ∃ deps c',
       Accept c status txID = Some c' ∧
       (∀ i, i ∈ deps ↔ ∃ d, d ∈ Dependencies tx ∧ ID d = i ∧ status d ≠ Accepted) ∧
       pendingAccept c' = (Register PA (pendingAccept c) tx deps).1 ∧
       acceptable c' = acceptable c ++ (Register PA (pendingAccept c) tx deps).2 ∧
       txs c' = txs c ∧ utxos c' = utxos c ∧
       pendingReject c' = pendingReject c ∧ rejectable c' = rejectable c) ∧
  (txs c !! txID = None → Accept c status txID = None).
Proof.
  unfold Accept. split.
  - intros tx ->. cbv zeta.
    exists (foldl (add_dependency status) ∅ (Dependencies tx)).
    eexists. split; [done|]. split.
    + intros i. rewrite elem_of_foldl_add_dependency. split; [|by right].
      intros [Hi|?]; [set_solver|done].
    + unfold register_acceptor.
      by destruct (Register PA (pendingAccept c) tx _) as [pa fired].
  - by intros ->.
Qed.

(** ** More invariants of reachable states *)

(** Every processing tx is stored under its own id and is listed in the
    bucket of each of its inputs. *)
Definition index_complete (t : gmap ids_ID Tx) (u : gmap ids_ID (gset ids_ID)) : Prop :=
  ∀ i tx, t !! i = Some tx →
    ID tx = i ∧ ∀ k, k ∈ InputIDs tx → i ∈ spenders_of u k.

(** Every id listed in a bucket is the id of a processing tx that names
    the bucket's key among its inputs. *)
Definition index_exact (t : gmap ids_ID Tx) (u : gmap ids_ID (gset ids_ID)) : Prop :=
  ∀ k i, i ∈ spenders_of u k → ∃ tx, t !! i = Some tx ∧ k ∈ InputIDs tx.

Lemma index_complete_add t u tx :
  index_complete t u →
  index_complete (<[ID tx := tx]> t) (foldl (add_spender (ID tx)) u (InputIDs tx)).
Proof.
  intros Hc i tx' Hl. destruct (decide (ID tx = i)) as [<-|Hne].
  - rewrite lookup_insert_eq in Hl. injection Hl as <-. split; [done|].
    intros k Hk. rewrite spenders_of_foldl_add, decide_True by done. set_solver.
  - rewrite lookup_insert_ne in Hl by done. destruct (Hc _ _ Hl) as [Hid Hin].
    split; [done|]. intros k Hk. rewrite spenders_of_foldl_add.
    specialize (Hin k Hk). case_decide; set_solver.
Qed.

Lemma index_complete_drain t u tx :
  index_complete t u →
  index_complete (delete (ID tx) t) (foldl (remove_spender (ID tx)) u (InputIDs tx)).
Proof.
  intros Hc i tx' Hl. apply lookup_delete_Some in Hl as [Hne Hl].
  destruct (Hc _ _ Hl) as [Hid Hin]. split; [done|].
  intros k Hk. rewrite spenders_of_foldl_remove. specialize (Hin k Hk).
  case_decide; set_solver.
Qed.

Lemma index_exact_add t u tx :
  (∀ t1 t2 : Tx, ID t1 = ID t2 → InputIDs t1 = InputIDs t2) →
  index_complete t u → index_exact t u →
  index_exact (<[ID tx := tx]> t) (foldl (add_spender (ID tx)) u (InputIDs tx)).
Proof.
  intros Hid Hc He k i. rewrite spenders_of_foldl_add. intros Hi.
  destruct (decide (i = ID tx)) as [->|Hne].
  - exists tx. rewrite lookup_insert_eq. split; [done|].
    case_decide as Hk; [done|].
    destruct (He _ _ Hi) as (tx' & Hl & Hk'). destruct (Hc _ _ Hl) as [Hid' _].
    by rewrite <- (Hid _ _ Hid').
  - assert (i ∈ spenders_of u k) as Hi' by (case_decide; set_solver).
    destruct (He _ _ Hi') as (tx' & Hl & Hk'). exists tx'.
    by rewrite lookup_insert_ne.
Qed.

Lemma index_exact_drain t u tx :
  (∀ t1 t2 : Tx, ID t1 = ID t2 → InputIDs t1 = InputIDs t2) →
  index_complete t u → index_exact t u →
  index_exact (delete (ID tx) t) (foldl (remove_spender (ID tx)) u (InputIDs tx)).
Proof.
  intros Hid Hc He k i. rewrite spenders_of_foldl_remove. intros Hi.
  assert (i ∈ spenders_of u k) as Hi' by (case_decide; set_solver).
  destruct (He _ _ Hi') as (tx' & Hl & Hk'). exists tx'. split; [|done].
  apply lookup_delete_Some. split; [|done]. intros <-.
  destruct (Hc _ _ Hl) as [Hid' _]. rewrite (Hid _ _ Hid') in Hk'.
  rewrite decide_True in Hi by done. set_solver.
Qed.

Lemma drain_loop_index (f : ConflictsState → Tx → ConflictsState) l c :
  drains f →
  (∀ t u tx, index_complete t u →
     index_complete (delete (ID tx) t) (foldl (remove_spender (ID tx)) u (InputIDs tx))) →
  index_complete (txs c) (utxos c) →
  index_complete (txs (foldl f c l)) (utxos (foldl f c l)).
Proof.
  intros Hf Hstep. revert c. induction l as [|tx l IH]; intros c Hc; [done|].
  cbn [foldl]. apply IH. destruct (Hf c tx) as [-> ->]. by apply Hstep.
Qed.

Lemma drain_loop_index_both (f : ConflictsState → Tx → ConflictsState) l c :
  drains f →
  (∀ t1 t2 : Tx, ID t1 = ID t2 → InputIDs t1 = InputIDs t2) →
  index_complete (txs c) (utxos c) ∧ index_exact (txs c) (utxos c) →
  index_complete (txs (foldl f c l)) (utxos (foldl f c l)) ∧
  index_exact (txs (foldl f c l)) (utxos (foldl f c l)).
Proof.
  intros Hf Hid. revert c. induction l as [|tx l IH]; intros c [Hc He]; [done|].
  cbn [foldl]. apply IH. destruct (Hf c tx) as [-> ->].
  split; [by apply index_complete_drain | by apply index_exact_drain].
Qed.

Lemma reachable_index_complete c : reachable c → index_complete (txs c) (utxos c).
Proof.
  induction 1 as [|c status txIntf c' _ IH Hadd|c status txID c' _ IH Hacc|c _ IH].
  - intros i tx. simpl. by rewrite lookup_empty.
  - destruct (asTx txIntf) as [tx|] eqn:Htx.
    + destruct (Add_utxos _ _ _ _ _ Htx Hadd) as [-> ->]. by apply index_complete_add.
    + unfold Add in Hadd. by rewrite Htx in Hadd.
  - by destruct (Accept_utxos _ _ _ _ Hacc) as [-> ->].
  - unfold Updateable. cbv zeta. simpl.
    apply drain_loop_index; [apply drains_update_rejected|apply index_complete_drain|].
    simpl. by apply drain_loop_index;
      [apply drains_update_accepted|apply index_complete_drain|].
Qed.

Lemma reachable_index_exact c :
  (∀ t1 t2 : Tx, ID t1 = ID t2 → InputIDs t1 = InputIDs t2) →
  reachable c →
  index_complete (txs c) (utxos c) ∧ index_exact (txs c) (utxos c).
Proof.
  intros Hid.
  induction 1 as [|c status txIntf c' _ IH Hadd|c status txID c' _ IH Hacc|c _ IH].
  - split.
    + intros i tx. simpl. by rewrite lookup_empty.
    + intros k i. simpl. unfold spenders_of. rewrite lookup_empty. set_solver.
  - destruct IH as [Hc He]. destruct (asTx txIntf) as [tx|] eqn:Htx.
    + destruct (Add_utxos _ _ _ _ _ Htx Hadd) as [-> ->].
      split; [by apply index_complete_add | by apply index_exact_add].
    + unfold Add in Hadd. by rewrite Htx in Hadd.
  - by destruct (Accept_utxos _ _ _ _ Hacc) as [-> ->].
  - unfold Updateable. cbv zeta. simpl.
    apply drain_loop_index_both; [apply drains_update_rejected|done|]. simpl.
    by apply drain_loop_index_both; [apply drains_update_accepted|done|].
Qed.

Lemma bucket_map_eq (u1 u2 : gmap ids_ID (gset ids_ID)) :
  no_empty_bucket u1 → no_empty_bucket u2 →
  (∀ k, spenders_of u1 k = spenders_of u2 k) → u1 = u2.
Proof.
  intros H1 H2 Heq. apply map_eq. intros k. specialize (Heq k).
  destruct (u1 !! k) as [s1|] eqn:E1, (u2 !! k) as [s2|] eqn:E2.
  - rewrite (spenders_of_Some _ _ _ E1), (spenders_of_Some _ _ _ E2) in Heq. by subst.
  - rewrite (spenders_of_Some _ _ _ E1), (spenders_of_None _ _ E2) in Heq.
    subst. by apply H1 in E1.
  - rewrite (spenders_of_None _ _ E1), (spenders_of_Some _ _ _ E2) in Heq.
    subst. by apply H2 in E2.
  - done.
Qed.

Lemma drain_loop_frame (f : ConflictsState → Tx → ConflictsState) l c i :
  drains f → (∀ tx, tx ∈ l → ID tx ≠ i) →
  txs (foldl f c l) !! i = txs c !! i ∧
  ∀ k, i ∈ spenders_of (utxos (foldl f c l)) k ↔ i ∈ spenders_of (utxos c) k.
Proof.
  intros Hf. revert c. induction l as [|tx l IH]; intros c Hne; [done|].
  cbn [foldl]. destruct (IH (f c tx)) as [Ht Hu].
  { intros tx' Hin. apply Hne. by right. }
  assert (ID tx ≠ i) as Hi by (apply Hne; left).
  destruct (Hf c tx) as [Hfu Hft]. split.
  - by rewrite Ht, Hft, lookup_delete_ne.
  - intros k. rewrite Hu, Hfu, spenders_of_foldl_remove. case_decide; set_solver.
Qed.

(** ** Further properties of the conflict manager *)

(** C2, for the transactions [Conflicts] is made for. In a reachable
    state, for a transaction that is not yet processing (its id is no key
    of [txs]), [Conflicts] returns exactly the union of the buckets
    [utxos[input_id]] over the tx's input ids, minus the tx's own id; the
    result never holds the tx's own id. Ids determine the inputs. *)
Theorem Conflicts_is_union_of_buckets c txIntf tx :
  (∀ t1 t2 : Tx, ID t1 = ID t2 → InputIDs t1 = InputIDs t2) →
  reachable c → asTx txIntf = Some tx → txs c !! ID tx = None →
  ∃ s, Conflicts c txIntf = inr s ∧
       (∀ i, i ∈ s ↔
             (∃ inputID, inputID ∈ InputIDs tx ∧ i ∈ spenders_of (utxos c) inputID) ∧
             i ≠ ID tx) ∧
       ID tx ∉ s.
Proof.
  intros Hid Hc Htx Hnew. exists (conflicts c tx). unfold Conflicts. rewrite Htx.
  destruct (reachable_index_exact c Hid Hc) as [_ Hexact].
  assert (ID tx ∉ conflicts c tx) as Hown.
  { intros (k & _ & Hk)%elem_of_conflicts.
    destruct (Hexact k (ID tx) Hk) as (tx' & Hstored & _). by rewrite Hnew in Hstored. }
  split; [done|]. split; [|done].
  intros i. rewrite elem_of_conflicts. split; [|by intros [? _]].
  intros Hi. split; [done|]. intros ->. by apply Hown, elem_of_conflicts.
Qed.

(** X1. In every reachable state each processing tx is stored under its
    own id and listed as a spender of each of its inputs; so no tx that
    shares an input with a processing tx is virtuous. *)
Theorem processing_tx_is_indexed c i tx :
  reachable c → txs c !! i = Some tx →
  ID tx = i ∧
  (∀ k, k ∈ InputIDs tx → i ∈ spenders_of (utxos c) k) ∧
  (∀ txIntf tx' k, asTx txIntf = Some tx' → k ∈ InputIDs tx → k ∈ InputIDs tx' →
     IsVirtuous c txIntf = inr false).
Proof.
  intros Hc Hl. destruct (reachable_index_complete _ Hc _ _ Hl) as [Hid Hin].
  split; [done|]. split; [done|]. intros txIntf tx' k Htx' Hk Hk'.
  unfold IsVirtuous. rewrite Htx'. f_equal.
  apply not_true_is_false. rewrite forallb_forall. intros Hall.
  specialize (Hall k (proj1 (list_elem_of_In _ _) Hk')).
  apply (bool_decide_eq_true (utxos c !! k = None)) in Hall.
  specialize (Hin k Hk). rewrite (spenders_of_None _ _ Hall) in Hin. set_solver.
Qed.

(** X2. When a tx id determines the inputs of its tx, the spender index of
    a reachable state is exact: an id is listed under an input exactly when
    a processing tx with this id consumes the input. *)
Theorem spender_index_is_exact c k i :
  (∀ t1 t2 : Tx, ID t1 = ID t2 → InputIDs t1 = InputIDs t2) →
  reachable c →
  (i ∈ spenders_of (utxos c) k ↔ ∃ tx, txs c !! i = Some tx ∧ k ∈ InputIDs tx).
Proof.
  intros Hid Hc. destruct (reachable_index_exact c Hid Hc) as [Hcomp Hex]. split.
  - apply Hex.
  - intros (tx & Hl & Hk). by apply (Hcomp _ _ Hl).
Qed.

(** X3. In a reachable state a transaction is virtuous exactly when it has
    no conflict: [IsVirtuous] answers true if and only if [Conflicts]
    returns the empty set. *)
Theorem IsVirtuous_iff_no_conflict c txIntf tx :
  reachable c → asTx txIntf = Some tx →
  (IsVirtuous c txIntf = inr true ↔ Conflicts c txIntf = inr ∅).
Proof.
  intros Hc Htx. pose proof (reachable_no_empty_bucket _ Hc) as Hne.
  unfold IsVirtuous, Conflicts. rewrite Htx. split.
  - intros [= Hall]. f_equal. apply set_eq. intros i. rewrite elem_of_conflicts.
    split; [|set_solver]. intros (k & Hk & Hi).
    rewrite forallb_forall in Hall.
    specialize (Hall k (proj1 (list_elem_of_In _ _) Hk)).
    apply (bool_decide_eq_true (utxos c !! k = None)) in Hall.
    by rewrite (spenders_of_None _ _ Hall) in Hi.
  - intros [= Hempty]. f_equal. apply forallb_forall. intros k Hk%list_elem_of_In.
    apply bool_decide_eq_true, empty_bucket_iff_absent; [done|].
    apply set_eq. intros i. split; [|set_solver]. intros Hi.
    rewrite <- Hempty. apply elem_of_conflicts. by exists k.
Qed.

(** X4. [Updateable] touches nothing but what it drains: a tx id that is
    the id of no returned tx keeps its entry of [txs] and its place in
    every bucket of [utxos]. *)
Theorem Updateable_keeps_the_rest c i :
  (∀ tx, tx ∈ ((Updateable c).1.2) ++ ((Updateable c).2) → ID tx ≠ i) →
  txs ((Updateable c).1.1) !! i = txs c !! i ∧
  (∀ k, i ∈ spenders_of (utxos ((Updateable c).1.1)) k ↔ i ∈ spenders_of (utxos c) k).
Proof.
  unfold Updateable. cbv zeta. simpl.
  set (c1 := foldl update_accepted (set_acceptable c []) (acceptable c)).
  intros Hne.
  destruct (drain_loop_frame update_accepted (acceptable c) (set_acceptable c []) i
              drains_update_accepted) as [Ht1 Hu1].
  { intros tx Hin. apply Hne, elem_of_app. by left. }
  destruct (drain_loop_frame update_rejected (rejectable c1) (set_rejectable c1 []) i
              drains_update_rejected) as [Ht2 Hu2].
  { intros tx Hin. apply Hne, elem_of_app. by right. }
  split.
  - by rewrite Ht2.
  - intros k. by rewrite Hu2.
Qed.

(** X5. When a tx id determines the inputs of its tx: adding a tx that is
    not processing to a reachable state and then removing it, as the loops
    of [Updateable] do for a drained tx, gives back the [txs] and [utxos]
    maps of before: no bucket and no entry is left over. *)
Theorem Add_then_drain_restores c status txIntf tx c' :
  (∀ t1 t2 : Tx, ID t1 = ID t2 → InputIDs t1 = InputIDs t2) →
  reachable c → asTx txIntf = Some tx → Add c status txIntf = inr c' →
  txs c !! ID tx = None →
  txs (update_rejected c' tx) = txs c ∧ utxos (update_rejected c' tx) = utxos c ∧
  txs (update_accepted c' tx) = txs c ∧ utxos (update_accepted c' tx) = utxos c.
Proof.
  intros Hid Hc Htx Hadd Hnew.
  assert (∀ k, ID tx ∉ spenders_of (utxos c) k) as Hfree.
  { intros k Hk. destruct (reachable_index_exact c Hid Hc) as [_ Hex].
    destruct (Hex _ _ Hk) as (tx' & Hl & _). by rewrite Hnew in Hl. }
  pose proof (reachable_no_empty_bucket _ Hc) as Hne.
  destruct (Add_utxos _ _ _ _ _ Htx Hadd) as [Hu Ht].
  assert (delete (ID tx) (txs c') = txs c) as Htxs.
  { rewrite Ht, delete_insert_eq. by apply delete_id. }
  assert (foldl (remove_spender (ID tx)) (utxos c') (InputIDs tx) = utxos c) as Hutxos.
  { apply bucket_map_eq; [|done|].
    - apply no_empty_bucket_foldl; [intros; by apply no_empty_bucket_remove_spender|].
      rewrite Hu. apply no_empty_bucket_foldl; [|done].
      intros. by apply no_empty_bucket_add_spender.
    - intros k. rewrite spenders_of_foldl_remove, Hu, spenders_of_foldl_add.
      specialize (Hfree k). case_decide; set_solver. }
  by rewrite update_rejected_txs, update_rejected_utxos, update_accepted_txs,
    update_accepted_utxos, Htxs, Hutxos.
Qed.

End conflicts.

End ConflictsPkg.

(** * The conflict manager run on the transactions of consensus_test.go *)

Module ConflictsTest.
Import ConflictsPkg.

(** The colored transactions of [Setup] (Red, Green, Blue, Alpha) and the
    purple one of [AcceptingDependencyTest], which depends on Red. The ids
    [ids.Empty.Prefix(i)] are hashes; distinct numbers stand for them. *)
Inductive TestTx := Red | Green | Blue | Alpha | Purple.

#[global] Instance TestTx_eq_dec : EqDecision TestTx.
Proof. solve_decision. Defined.

Definition input_X : N := 4.
Definition input_Y : N := 5.
Definition input_Z : N := 6.

#[global] Instance TestTx_interface : TxInterface N TestTx := {|
  ID t := match t with Red => 0 | Green => 1 | Blue => 2 | Alpha => 3 | Purple => 7 end%N;
  InputIDs t :=
    match t with
    | Red => [input_X] | Green => [input_X; input_Y] | Blue => [input_Y; input_Z]
    | Alpha => [input_Z] | Purple => [8%N]
    end;
  Dependencies t := match t with Purple => [Red] | _ => [] end;
|}.

(** A [choices.Decidable] is one of the transactions or something else. *)
Inductive TestDecidable := IsTx (tx : TestTx) | NotATx.

Definition asTx (d : TestDecidable) : option TestTx :=
  match d with IsTx tx => Some tx | NotATx => None end.

(** Modelled from the spec: the entries of [events.Blocker] (snow/events
    and the acceptor / rejector types are not among the sources). An entry
    holds the tx of its acceptor or rejector and a dependency set. The
    theorems about the conflict manager hold for every blocker; this one
    serves to run the manager. *)
Record entry := mkEntry { entry_tx : TestTx; entry_deps : gset N }.

(** Modelled from the spec: registering an entry whose dependency set is
    empty fires it at once. *)
Definition spec_Register (b : list entry) (tx : TestTx) (deps : gset N) :
    list entry * list TestTx :=
  if decide (deps = ∅) then (b, [tx]) else (b ++ [mkEntry tx deps], []).

(** Modelled from the spec: [fulfill] takes the id out of every dependency
    set and fires the entries whose set becomes empty. *)
Definition spec_Fulfill (b : list entry) (id : N) : list entry * list TestTx :=
  let b' := (λ e, mkEntry (entry_tx e) (entry_deps e ∖ {[id]})) <$> b in
  (filter (λ e, entry_deps e ≠ ∅) b', entry_tx <$> filter (λ e, entry_deps e = ∅) b').

(** Modelled from the spec: [abandon] drops the entries that depend on the
    id; their callback is not run. *)
Definition spec_Abandon (b : list entry) (id : N) : list entry * list TestTx :=
  (filter (λ e, id ∉ entry_deps e) b, []).

Definition spec_Blocker : Blocker N TestTx (list entry) :=
  {| Register := spec_Register; Fulfill := spec_Fulfill; Abandon := spec_Abandon |}.

Abbreviation State := (@ConflictsState N _ _ TestTx (list entry) (list entry)).

Definition test_Accept (c : State) (status : TestTx → Status) (txID : N) :=
  Accept spec_Blocker c status txID.
Definition test_Conflicts (c : State) (d : TestDecidable) := Conflicts asTx c d.
Definition test_IsVirtuous (c : State) (d : TestDecidable) := IsVirtuous asTx c d.
Definition test_Updateable (c : State) := Updateable spec_Blocker spec_Blocker c.
Abbreviation TestOp := (Op (ids_ID := N) (Tx := TestTx) (Decidable := TestDecidable)).
Definition test_run (ops : list TestOp) : option State :=
  run asTx spec_Blocker spec_Blocker [] [] ops.
Definition test_reachable (c : State) : Prop :=
  reachable asTx spec_Blocker spec_Blocker [] [] c.

(** Every transaction is still processing. *)
Definition all_processing : TestTx → Status := λ _, Processing.

(** Red has been added. *)
Definition red_added : list TestOp := [OpAdd all_processing (IsTx Red)].

(** Red and Green have been added and Red has been conditionally accepted:
    its acceptor has no dependency and fires at once. *)
Definition red_accepted : list TestOp :=
  [OpAdd all_processing (IsTx Red); OpAdd all_processing (IsTx Green);
   OpAccept all_processing (ID Red)].

(** Red, Green and Purple have been added. *)
Definition purple_added : list TestOp :=
  [OpAdd all_processing (IsTx Red); OpAdd all_processing (IsTx Green);
   OpAdd all_processing (IsTx Purple)].

(** The state a run ends in. *)
Definition state_of (ops : list TestOp) : State :=
  default (New [] []) (test_run ops).

Lemma TestTx_ID_determines_inputs (t1 t2 : TestTx) :
  ID t1 = ID t2 → InputIDs t1 = InputIDs t2.
Proof. by destruct t1, t2. Qed.

Lemma state_of_reachable ops : is_Some (test_run ops) → test_reachable (state_of ops).
Proof.
  intros [c Hc]. unfold state_of. rewrite Hc. by apply run_reachable in Hc.
Qed.

Example Updateable_drains_Red_then_Green :
  (test_Updateable (state_of red_accepted)).1.2 = [Red] ∧
  (test_Updateable (state_of red_accepted)).2 = [Green].
Proof. by vm_compute. Qed.

(** The calls of [IsVirtuousTest] after [Add(Red)], made on the manager.
    The manager takes Red itself for a spender of its input: its
    [IsVirtuous] assumes a tx that is not yet processing. *)
Example IsVirtuousTest_after_Red :
  test_IsVirtuous (state_of red_added) (IsTx Red) = inr false ∧
  test_IsVirtuous (state_of red_added) (IsTx Green) = inr false ∧
  test_IsVirtuous (state_of red_added) (IsTx Blue) = inr true ∧
  test_IsVirtuous (state_of red_added) (IsTx Alpha) = inr true.
Proof. by vm_compute. Qed.

(** On the run of Red and Green, [Updateable] returns Red as acceptable
    and Green as rejectable, and Green is gone afterwards. *)
Lemma Updateable_symmetric_removal_witness :
  txs ((test_Updateable (state_of red_accepted)).1.1) !! ID Green = None ∧
  (∀ k s, utxos ((test_Updateable (state_of red_accepted)).1.1) !! k = Some s →
          (ID Green ∉ s) ∧ s ≠ ∅).
Proof.
  apply (Updateable_symmetric_removal asTx spec_Blocker spec_Blocker [] []
           (state_of red_accepted) Green).
  - exact TestTx_ID_determines_inputs.
  - apply state_of_reachable. vm_compute. eauto.
  - vm_compute. apply list_elem_of_In. simpl. auto.
Defined.

(** C2 fails as stated: once Red is processing, [Conflicts] of Red returns
    a set that holds Red's own id. *)
Lemma Conflicts_keeps_own_id :
  txs (state_of red_added) !! ID Red = Some Red ∧
  ∃ s, test_Conflicts (state_of red_added) (IsTx Red) = inr s ∧ ID Red ∈ s.
Proof.
  split; [by vm_compute|].
  exists {[ID Red]}. split; [by vm_compute|]. by apply elem_of_singleton.
Qed.

Lemma Conflicts_is_union_of_buckets_witness :
  ∃ s, test_Conflicts (state_of red_added) (IsTx Green) = inr s ∧
       (∀ i, i ∈ s ↔
             (∃ inputID, inputID ∈ InputIDs Green ∧
                         i ∈ spenders_of (utxos (state_of red_added)) inputID) ∧
             i ≠ ID Green) ∧
       ID Green ∉ s.
Proof.
  apply (Conflicts_is_union_of_buckets asTx spec_Blocker spec_Blocker [] []
           (state_of red_added) (IsTx Green) Green).
  - exact TestTx_ID_determines_inputs.
  - apply state_of_reachable. vm_compute. eauto.
  - reflexivity.
  - reflexivity.
Defined.

(** Green is not processing after Red was added; it conflicts with Red. *)
Example Conflicts_of_Green_is_Red :
  txs (state_of red_added) !! ID Green = None ∧
  test_Conflicts (state_of red_added) (IsTx Green) = inr {[ID Red]}.
Proof. by vm_compute. Qed.

Lemma IsVirtuous_iff_no_spender_witness :
  ∃ b, test_IsVirtuous (state_of red_added) (IsTx Green) = inr b ∧
       (b = true ↔ ∀ inputID, inputID ∈ InputIDs Green →
                     spenders_of (utxos (state_of red_added)) inputID = ∅).
Proof.
  apply (IsVirtuous_iff_no_spender asTx spec_Blocker spec_Blocker [] []
           (state_of red_added) (IsTx Green) Green).
  - apply state_of_reachable. vm_compute. eauto.
  - reflexivity.
Defined.

Lemma utxos_has_no_empty_bucket_witness :
  utxos (state_of red_added) !! input_X = Some {[ID Red]} ∧ ({[ID Red]} : gset N) ≠ ∅.
Proof.
  assert (utxos (state_of red_added) !! input_X = Some {[ID Red]}) as Hx by (by vm_compute).
  split; [exact Hx|].
  apply (utxos_has_no_empty_bucket asTx spec_Blocker spec_Blocker [] []
           (state_of red_added) input_X {[ID Red]}).
  - apply state_of_reachable. vm_compute. eauto.
  - exact Hx.
Defined.

Lemma Accept_needs_processing_tx_witness :
  (∀ tx, txs (state_of purple_added) !! ID Purple = Some tx →
     ∃ deps c',
       test_Accept (state_of purple_added) all_processing (ID Purple) = Some c' ∧
       (∀ i, i ∈ deps ↔
             ∃ d, d ∈ Dependencies tx ∧ ID d = i ∧ all_processing d ≠ Accepted) ∧
       pendingAccept c' =
         (Register spec_Blocker (pendingAccept (state_of purple_added)) tx deps).1 ∧
       acceptable c' =
         acceptable (state_of purple_added) ++
         (Register spec_Blocker (pendingAccept (state_of purple_added)) tx deps).2 ∧
       txs c' = txs (state_of purple_added) ∧ utxos c' = utxos (state_of purple_added) ∧
       pendingReject c' = pendingReject (state_of purple_added) ∧
       rejectable c' = rejectable (state_of purple_added)) ∧
  (txs (state_of purple_added) !! ID Purple = None →
     test_Accept (state_of purple_added) all_processing (ID Purple) = None).
Proof.
  exact (Accept_needs_processing_tx spec_Blocker (state_of purple_added)
           all_processing (ID Purple)).
Defined.

Example Accept_of_Purple_waits_for_Red :
  txs (state_of purple_added) !! ID Purple = Some Purple ∧
  match test_Accept (state_of purple_added) all_processing (ID Purple) with
  | Some c => elements ∘ entry_deps <$> pendingAccept c
  | None => []
  end = [[ID Red]].
Proof. by vm_compute. Qed.

Example Accept_of_unknown_id_fails :
  test_Accept (state_of red_added) all_processing (ID Blue) = None.
Proof. by vm_compute. Qed.

(** ** The further properties on the colored transactions *)

(** Red, Green and Blue have been added and Red has been conditionally
    accepted: [Updateable] will return Red and Green, and leave Blue. *)
Definition blue_survives : list TestOp :=
  [OpAdd all_processing (IsTx Red); OpAdd all_processing (IsTx Green);
   OpAdd all_processing (IsTx Blue); OpAccept all_processing (ID Red)].

Example Updateable_leaves_Blue :
  (test_Updateable (state_of blue_survives)).1.2 = [Red] ∧
  (test_Updateable (state_of blue_survives)).2 = [Green] ∧
  txs ((test_Updateable (state_of blue_survives)).1.1) !! ID Blue = Some Blue.
Proof. by vm_compute. Qed.

Lemma processing_tx_is_indexed_witness :
  ID Red = ID Red ∧
  (∀ k, k ∈ InputIDs Red → ID Red ∈ spenders_of (utxos (state_of red_added)) k) ∧
  (∀ txIntf tx' k, asTx txIntf = Some tx' → k ∈ InputIDs Red → k ∈ InputIDs tx' →
     test_IsVirtuous (state_of red_added) txIntf = inr false).
Proof.
  apply (processing_tx_is_indexed asTx spec_Blocker spec_Blocker [] []
           (state_of red_added) (ID Red) Red).
  - apply state_of_reachable. vm_compute. eauto.
  - by vm_compute.
Defined.

Lemma spender_index_is_exact_witness :
  ID Red ∈ spenders_of (utxos (state_of red_added)) input_X ↔
  ∃ tx, txs (state_of red_added) !! ID Red = Some tx ∧ input_X ∈ InputIDs tx.
Proof.
  apply (spender_index_is_exact asTx spec_Blocker spec_Blocker [] []
           (state_of red_added) input_X (ID Red)).
  - exact TestTx_ID_determines_inputs.
  - apply state_of_reachable. vm_compute. eauto.
Defined.

Lemma IsVirtuous_iff_no_conflict_witness :
  test_IsVirtuous (state_of red_added) (IsTx Blue) = inr true ↔
  test_Conflicts (state_of red_added) (IsTx Blue) = inr ∅.
Proof.
  apply (IsVirtuous_iff_no_conflict asTx spec_Blocker spec_Blocker [] []
           (state_of red_added) (IsTx Blue) Blue).
  - apply state_of_reachable. vm_compute. eauto.
  - reflexivity.
Defined.

Lemma Updateable_keeps_the_rest_witness :
  txs ((test_Updateable (state_of blue_survives)).1.1) !! ID Blue =
    txs (state_of blue_survives) !! ID Blue ∧
  (∀ k, ID Blue ∈ spenders_of (utxos ((test_Updateable (state_of blue_survives)).1.1)) k ↔
        ID Blue ∈ spenders_of (utxos (state_of blue_survives)) k).
Proof.
  apply (Updateable_keeps_the_rest spec_Blocker spec_Blocker
           (state_of blue_survives) (ID Blue)).
  intros tx Hin. vm_compute in Hin. apply list_elem_of_In in Hin. simpl in Hin.
  destruct Hin as [<-|[<-|[]]]; by vm_compute.
Defined.

Lemma Add_then_drain_restores_witness :
  txs (update_rejected spec_Blocker spec_Blocker
         (state_of (red_added ++ [OpAdd all_processing (IsTx Blue)])) Blue) =
    txs (state_of red_added) ∧
  utxos (update_rejected spec_Blocker spec_Blocker
           (state_of (red_added ++ [OpAdd all_processing (IsTx Blue)])) Blue) =
    utxos (state_of red_added) ∧
  txs (update_accepted spec_Blocker spec_Blocker
         (state_of (red_added ++ [OpAdd all_processing (IsTx Blue)])) Blue) =
    txs (state_of red_added) ∧
  utxos (update_accepted spec_Blocker spec_Blocker
           (state_of (red_added ++ [OpAdd all_processing (IsTx Blue)])) Blue) =
    utxos (state_of red_added).
Proof.
  apply (Add_then_drain_restores asTx spec_Blocker spec_Blocker [] []
           (state_of red_added) all_processing (IsTx Blue)).
  - exact TestTx_ID_determines_inputs.
  - apply state_of_reachable. vm_compute. eauto.
  - reflexivity.
  - by vm_compute.
  - by vm_compute.
Defined.

End ConflictsTest.

(** * Unsigned machine integers

    Go's [uint32] arithmetic wraps around; values are the integers of
    [0, 2^32). *)

Module Uint32.

Definition modulus : Z := 2 ^ 32.
Definition max : Z := modulus - 1.
Definition add (x y : Z) : Z := ((x + y) mod modulus)%Z.

Lemma add_no_wrap x y : (0 ≤ x + y < modulus)%Z → add x y = (x + y)%Z.
Proof. intros Hr. unfold add. by apply Z.mod_small. Qed.

Lemma add_max_1 : add max 1 = 0%Z.
Proof. reflexivity. Qed.

End Uint32.

(** * vms/avm: [VM.verifyOperation] (managed-asset epoch rule) *)

Module AvmVerify.

(** Errors of [verifyOperation]. The two [fmt.Errorf] results keep what they
    format; errors handed up from a collaborator are [errFrom]. *)
Inductive Error (E : Type) :=
  | errAssetIDMismatch
  | errIncompatibleFx
  | errManagedAssetStatus (cause : E)
  | errAssetUpdateEpoch (epoch epochLastUpdated : Z)
  | errFrom (cause : E).
Arguments errAssetIDMismatch {E}.
Arguments errIncompatibleFx {E}.
Arguments errManagedAssetStatus {E} _.
Arguments errAssetUpdateEpoch {E} _ _.
Arguments errFrom {E} _.

Section verifyOperation.

(** What [verifyOperation] is given and what it calls; none of the callees
    is part of the sources, so they are parameters. *)
Context {E AssetID UTXOID Output FxOperation UnsignedTx Credential ManagedStatus : Type}.
Context `{EqDecision AssetID}.

Record UTXO := mkUTXO { utxo_AssetID : AssetID; utxo_Out : Output }.

Record Operation := mkOperation {
  op_AssetID : AssetID;
  op_UTXOIDs : list UTXOID;
  op_Op : FxOperation;
}.

Record VM := mkVM {
  (** [vm.getUTXO(utxoID, epoch)] *)
  getUTXO : UTXOID → Z → E + UTXO;
  (** [vm.getFx(op.Op)]: the index of the fx *)
  getFx : FxOperation → E + nat;
  (** [vm.verifyFxUsage(fxIndex, assetID)] *)
  verifyFxUsage : nat → AssetID → bool;
  (** [vm.state.ManagedAssetStatus(assetID)]:
      (epoch of the last update, status, old status) *)
  ManagedAssetStatus : AssetID → E + (Z * ManagedStatus * ManagedStatus);
  (** [vm.fxs[fxIndex].Fx.VerifyOperation(tx, op, cred, utxos)] *)
  fx_VerifyOperation :
    nat → UnsignedTx → FxOperation → Credential → list Output → option E;
}.

(** The type assertion of [op.Op] to a pointer to
    [secp256k1fx.UpdateManagedAssetOperation]. *)
Context (isUpdateManagedAssetOperation : FxOperation → bool).

(** The first loop: fetch each UTXO and compare its asset id. *)
Fixpoint collect_utxos (vm : VM) (epoch : Z) (opAssetID : AssetID)
    (utxoIDs : list UTXOID) : Error E + list Output :=
  match utxoIDs with
  | [] => inr []
  | utxoID :: rest =>
      match getUTXO vm utxoID epoch with
      | inl err => inl (errFrom err)
      | inr utxo =>
          if decide (utxo_AssetID utxo ≠ opAssetID) then inl errAssetIDMismatch
          else
            match collect_utxos vm epoch opAssetID rest with
            | inl err => inl err
            | inr outs => inr (utxo_Out utxo :: outs)
            end
      end
  end.

(** The epoch check of an update of a managed asset's status:
    [if epoch <= epochLastUpdated+1 { return error }], in [uint32]. *)
Definition check_update_epoch (vm : VM) (epoch : Z) (opAssetID : AssetID) :
    option (Error E) :=
  match ManagedAssetStatus vm opAssetID with
  | inl err => Some (errManagedAssetStatus err)
  | inr (epochLastUpdated, _, _) =>
      if (epoch <=? Uint32.add epochLastUpdated 1)%Z
      then Some (errAssetUpdateEpoch epoch epochLastUpdated)
      else None
  end.

(** [verifyOperation]: [None] is the nil error. *)
Definition verifyOperation (vm : VM) (tx : UnsignedTx) (epoch : Z) (op : Operation)
    (cred : Credential) : option (Error E) :=
  let opAssetID := op_AssetID op in
  match collect_utxos vm epoch opAssetID (op_UTXOIDs op) with
  | inl err => Some err
  | inr utxos =>
      match getFx vm (op_Op op) with
      | inl err => Some (errFrom err)
      | inr fxIndex =>
          if negb (verifyFxUsage vm fxIndex opAssetID) then Some errIncompatibleFx
          else
            let checked :=
              if isUpdateManagedAssetOperation (op_Op op)
              then check_update_epoch vm epoch opAssetID
              else None in
            match checked with
            | Some err => Some err
            | None =>
                errFrom <$> fx_VerifyOperation vm fxIndex tx (op_Op op) cred utxos
            end
      end
  end.

(** When [epochLastUpdated + 1] does not wrap, the check is the rule of the
    specification: the operation passes only two epochs after the update. *)
Lemma check_update_epoch_no_wrap vm epoch opAssetID last st old :
  ManagedAssetStatus vm opAssetID = inr (last, st, old) →
  (0 ≤ last < Uint32.max)%Z →
  (check_update_epoch vm epoch opAssetID = None ↔ (last + 2 ≤ epoch)%Z).
Proof.
  intros Hst Hlast. unfold check_update_epoch. rewrite Hst.
  rewrite Uint32.add_no_wrap by (unfold Uint32.max, Uint32.modulus in *; lia).
  destruct (Z.leb_spec epoch (last + 1)); split; intros; (done || lia).
Qed.

Lemma verifyOperation_update_no_wrap vm tx epoch op cred last st old :
  isUpdateManagedAssetOperation (op_Op op) = true →
  ManagedAssetStatus vm (op_AssetID op) = inr (last, st, old) →
  (0 ≤ last < Uint32.max)%Z →
  (verifyOperation vm tx epoch op cred = None → (last + 2 ≤ epoch)%Z) ∧
  ((epoch ≤ last + 1)%Z → verifyOperation vm tx epoch op cred ≠ None).
Proof.
  intros Hupd Hst Hlast.
  pose proof (check_update_epoch_no_wrap vm epoch _ _ _ _ Hst Hlast) as Hchk.
  assert (verifyOperation vm tx epoch op cred = None →
          check_update_epoch vm epoch (op_AssetID op) = None) as Hpass.
  { unfold verifyOperation. cbv zeta. rewrite Hupd.
    destruct (collect_utxos _ _ _ _); [done|].
    destruct (getFx _ _); [done|].
    destruct (negb _); [done|].
    by destruct (check_update_epoch _ _ _). }
  split.
  - intros Hok. by apply Hchk, Hpass.
  - intros Hle Hok. apply Hpass, Hchk in Hok. lia.
Qed.

End verifyOperation.

(** An asset whose status was last updated in the last epoch a [uint32]
    can hold, and an update operation on it that every collaborator
    accepts. *)
Definition last_epoch_vm : VM (E := unit) (AssetID := N) (UTXOID := N) (Output := N)
    (FxOperation := bool) (UnsignedTx := unit) (Credential := unit)
    (ManagedStatus := bool) :=
  {| getUTXO := λ utxoID _, inr (mkUTXO 7%N utxoID);
     getFx := λ _, inr 0;
     verifyFxUsage := λ _ _, true;
     ManagedAssetStatus := λ _, inr (Uint32.max, true, false);
     fx_VerifyOperation := λ _ _ _ _ _, None |}.

Definition update_op : Operation (AssetID := N) (UTXOID := N) (FxOperation := bool) :=
  {| op_AssetID := 7%N; op_UTXOIDs := [1%N]; op_Op := true |}.

(** C4 fails on the code at the top of the epoch range. The status was last
    updated in epoch 4294967295, the tx is in epoch 1, 1 ≤ 4294967295 + 1,
    and still no error is returned: [epochLastUpdated+1] wraps to 0. *)
Theorem verifyOperation_update_epoch_wraps :
  ManagedAssetStatus last_epoch_vm (op_AssetID update_op) = inr (4294967295%Z, true, false) ∧
  (1 ≤ 4294967295 + 1)%Z ∧
  verifyOperation (λ isUpdate, isUpdate) last_epoch_vm tt 1%Z update_op tt = None.
Proof. split; [reflexivity|]. split; [lia|reflexivity]. Qed.

(** ** What verifyOperation hands to the fx *)

Section verifyOperation_ok.

Context {E AssetID UTXOID Output FxOperation UnsignedTx Credential ManagedStatus : Type}.
Context `{EqDecision AssetID}.
Context (isUpdateManagedAssetOperation : FxOperation → bool).

Abbreviation VM' := (VM (E := E) (AssetID := AssetID) (UTXOID := UTXOID) (Output := Output)
                 (FxOperation := FxOperation) (UnsignedTx := UnsignedTx)
                 (Credential := Credential) (ManagedStatus := ManagedStatus)).

(** [utxo] is what [getUTXO] finds for [utxoID], and it is of the asset. *)
Definition fetched (vm : VM') (epoch : Z) (assetID : AssetID) (utxoID : UTXOID)
    (utxo : UTXO (AssetID := AssetID) (Output := Output)) : Prop :=
  getUTXO vm utxoID epoch = inr utxo ∧ utxo_AssetID utxo = assetID.

Lemma collect_utxos_inr (vm : VM') epoch assetID utxoIDs outs :
  collect_utxos vm epoch assetID utxoIDs = inr outs ↔
  ∃ utxos, Forall2 (fetched vm epoch assetID) utxoIDs utxos ∧ outs = utxo_Out <$> utxos.
Proof.
  revert outs. induction utxoIDs as [|utxoID rest IH]; intros outs; cbn [collect_utxos].
  - split.
    + intros [= <-]. exists []. split; [constructor|done].
    + intros (utxos & ->%Forall2_nil_inv_l & ->). done.
  - split.
    + destruct (getUTXO vm utxoID epoch) as [|utxo] eqn:Hget; [done|].
      destruct (decide _) as [|Heq%dec_stable]; [done|].
      destruct (collect_utxos vm epoch assetID rest) as [|outs'] eqn:Hrest; [done|].
      intros [= <-]. destruct (proj1 (IH outs') eq_refl) as (utxos & Hall & ->).
      exists (utxo :: utxos). split; [|done]. by constructor.
    + intros (utxos & Hall & ->).
      apply Forall2_cons_inv_l in Hall as (utxo & utxos' & [Hget Heq] & Hall & ->).
      rewrite Hget, decide_False by (by intros ?).
      rewrite (proj2 (IH (utxo_Out <$> utxos'))) by eauto. done.
Qed.

(** X19. [verifyOperation] returns no error exactly when every UTXO of
    the operation is found and is of the operation's asset, the fx of the
    operation is known and may be used with the asset, an update of a
    managed asset's status passes the epoch check, and the fx accepts the
    operation on the outputs of these UTXOs, in the order of the
    operation's UTXO ids. *)
Theorem verifyOperation_ok_iff (vm : VM') tx epoch op cred :
  verifyOperation isUpdateManagedAssetOperation vm tx epoch op cred = None ↔
  ∃ utxos fxIndex,
    Forall2 (fetched vm epoch (op_AssetID op)) (op_UTXOIDs op) utxos ∧
    getFx vm (op_Op op) = inr fxIndex ∧
    verifyFxUsage vm fxIndex (op_AssetID op) = true ∧
    (isUpdateManagedAssetOperation (op_Op op) = true →
       check_update_epoch vm epoch (op_AssetID op) = None) ∧
    fx_VerifyOperation vm fxIndex tx (op_Op op) cred (utxo_Out <$> utxos) = None.
Proof.
  unfold verifyOperation. cbv zeta. split.
  - destruct (collect_utxos vm epoch _ _) as [|outs] eqn:Hc; [done|].
    apply collect_utxos_inr in Hc as (utxos & Hall & ->).
    destruct (getFx vm (op_Op op)) as [|fxIndex]; [done|].
    destruct (verifyFxUsage vm fxIndex _) eqn:Hfx; [|done]. cbn [negb].
    intros Hok. exists utxos, fxIndex. repeat (split; [done|]).
    destruct (isUpdateManagedAssetOperation (op_Op op)).
    + destruct (check_update_epoch vm epoch _); [done|]. split; [done|].
      by destruct (fx_VerifyOperation vm fxIndex tx _ cred _).
    + split; [done|]. by destruct (fx_VerifyOperation vm fxIndex tx _ cred _).
  - intros (utxos & fxIndex & Hall & -> & -> & Hupd & Hfx).
    rewrite (proj2 (collect_utxos_inr vm epoch _ _ (utxo_Out <$> utxos))) by eauto.
    cbn [negb]. rewrite Hfx.
    destruct (isUpdateManagedAssetOperation (op_Op op)); [|done].
    by rewrite Hupd.
Qed.

End verifyOperation_ok.

(** ** verifyTransfer and verifyTransferOfUTXO *)

(** The errors of [verifyTransferOfUTXO]: those of [verifyOperation],
    [errNoPermission], and the error that says the asset is frozen. *)
Inductive TransferError (E AssetID : Type) :=
  | errOp (err : Error E)
  | errNoPermission
  | errFrozen (assetID : AssetID).
Arguments errOp {E AssetID} _.
Arguments errNoPermission {E AssetID}.
Arguments errFrozen {E AssetID} _.

Section verifyTransfer.

Context {E AssetID UTXOID Output FxOperation UnsignedTx Credential ManagedStatus In : Type}.
Context `{EqDecision AssetID}.

(** [avax.TransferableInput] *)
Record TransferableInput := mkTransferableInput {
  in_UTXOID : UTXOID;
  in_AssetID : AssetID;
  in_In : In;
}.

(** What [verifyTransferOfUTXO] calls besides the methods of the [VM]
    above: [vm.getFx(cred)], the methods [VerifyTransfer] and
    [VerifyPermission] of [vm.fxs[fxIndex].Fx], the comparison of an error
    with [database.ErrNotFound], and [Frozen()] and [Manager()] of a
    status. The owner handed to [VerifyPermission] is an output or the
    manager of a status; both are values of [Output] here. *)
Context (getFx_cred : Credential → E + nat).
Context (fx_VerifyTransfer : nat → In → Output → option E).
Context (fx_VerifyPermission : nat → UnsignedTx → In → Credential → Output → option E).
Context (isErrNotFound : E → bool).
Context (Frozen : ManagedStatus → bool).
Context (Manager : ManagedStatus → Output).

Abbreviation VM' := (VM (E := E) (AssetID := AssetID) (UTXOID := UTXOID) (Output := Output)
                 (FxOperation := FxOperation) (UnsignedTx := UnsignedTx)
                 (Credential := Credential) (ManagedStatus := ManagedStatus)).

(** [if epoch <= lastUpdatedEpoch+1 { status = oldStatus }], in [uint32]. *)
Definition status_in_force (epoch lastUpdatedEpoch : Z) (status oldStatus : ManagedStatus) :
    ManagedStatus :=
  if (epoch <=? Uint32.add lastUpdatedEpoch 1)%Z then oldStatus else status.

(** [verifyTransferOfUTXO]: [None] is the nil error. *)
Definition verifyTransferOfUTXO (vm : VM') (tx : UnsignedTx) (inp : TransferableInput)
    (cred : Credential) (utxo : UTXO (AssetID := AssetID) (Output := Output)) (epoch : Z) :
    option (TransferError E AssetID) :=
  match getFx_cred cred with
  | inl err => Some (errOp (errFrom err))
  | inr fxIndex =>
      let utxoAssetID := utxo_AssetID utxo in
      if decide (utxoAssetID ≠ in_AssetID inp) then Some (errOp errAssetIDMismatch)
      else if negb (verifyFxUsage vm fxIndex utxoAssetID) then Some (errOp errIncompatibleFx)
      else
        match fx_VerifyTransfer fxIndex (in_In inp) (utxo_Out utxo) with
        | Some err => Some (errOp (errFrom err))
        | None =>
            match ManagedAssetStatus vm utxoAssetID with
            | inl err =>
                if isErrNotFound err then
                  match fx_VerifyPermission fxIndex tx (in_In inp) cred (utxo_Out utxo) with
                  | Some _ => Some errNoPermission
                  | None => None
                  end
                else Some (errOp (errFrom err))
            | inr (lastUpdatedEpoch, status, oldStatus) =>
                let status := status_in_force epoch lastUpdatedEpoch status oldStatus in
                if Frozen status then Some (errFrozen utxoAssetID)
                else
                  match fx_VerifyPermission fxIndex tx (in_In inp) cred (utxo_Out utxo) with
                  | None => None
                  | Some _ =>
                      match fx_VerifyPermission fxIndex tx (in_In inp) cred (Manager status) with
                      | None => None
                      | Some _ => Some errNoPermission
                      end
                  end
            end
        end
  end.

Definition verifyTransfer (vm : VM') (tx : UnsignedTx) (epoch : Z) (inp : TransferableInput)
    (cred : Credential) : option (TransferError E AssetID) :=
  match getUTXO vm (in_UTXOID inp) epoch with
  | inl err => Some (errOp (errFrom err))
  | inr utxo => verifyTransferOfUTXO vm tx inp cred utxo epoch
  end.

(** Who may spend [utxo] of an asset with the given answer of
    [ManagedAssetStatus]: the owner of the UTXO, and for a managed asset
    that is not frozen also the manager of the status in force. *)
Definition permitted (vm : VM') (fxIndex : nat) (tx : UnsignedTx) (inp : TransferableInput)
    (cred : Credential) (utxo : UTXO (AssetID := AssetID) (Output := Output)) (epoch : Z) :
    Prop :=
  match ManagedAssetStatus vm (utxo_AssetID utxo) with
  | inl err =>
      isErrNotFound err = true ∧
      fx_VerifyPermission fxIndex tx (in_In inp) cred (utxo_Out utxo) = None
  | inr (last, status, old) =>
      Frozen (status_in_force epoch last status old) = false ∧
      (fx_VerifyPermission fxIndex tx (in_In inp) cred (utxo_Out utxo) = None ∨
       fx_VerifyPermission fxIndex tx (in_In inp) cred
         (Manager (status_in_force epoch last status old)) = None)
  end.

(** X15. [verifyTransfer] returns no error exactly when the UTXO of the
    input is found, the fx of the credential is known and may be used with
    the asset, the asset of the UTXO is the asset of the input,
    [VerifyTransfer] accepts, and the spender is permitted: the owner of
    the UTXO, or, for a managed asset, the manager of the status in force,
    and nobody while that status is frozen. *)
Theorem verifyTransfer_ok_iff vm tx epoch inp cred :
  verifyTransfer vm tx epoch inp cred = None ↔
  ∃ utxo fxIndex,
    getUTXO vm (in_UTXOID inp) epoch = inr utxo ∧
    getFx_cred cred = inr fxIndex ∧
    utxo_AssetID utxo = in_AssetID inp ∧
    verifyFxUsage vm fxIndex (utxo_AssetID utxo) = true ∧
    fx_VerifyTransfer fxIndex (in_In inp) (utxo_Out utxo) = None ∧
    permitted vm fxIndex tx inp cred utxo epoch.
Proof.
  unfold verifyTransfer, verifyTransferOfUTXO, permitted. cbv zeta. split.
  - destruct (getUTXO vm (in_UTXOID inp) epoch) as [|utxo]; [done|].
    destruct (getFx_cred cred) as [|fxIndex]; [done|].
    destruct (decide _) as [|Heq%dec_stable]; [done|].
    destruct (verifyFxUsage vm fxIndex _) eqn:Hfx; [|done]. cbn [negb].
    destruct (fx_VerifyTransfer fxIndex _ _) eqn:Htr; [done|].
    intros Hok. exists utxo, fxIndex. repeat (split; [done|]).
    destruct (ManagedAssetStatus vm _) as [err|[[last st] old]].
    + destruct (isErrNotFound err); [|done].
      by destruct (fx_VerifyPermission fxIndex tx _ cred (utxo_Out utxo)).
    + destruct (Frozen _); [done|]. split; [done|].
      destruct (fx_VerifyPermission fxIndex tx _ cred (utxo_Out utxo)); [|by left].
      right. by destruct (fx_VerifyPermission fxIndex tx _ cred (Manager _)).
  - intros (utxo & fxIndex & -> & -> & Heq & -> & -> & Hperm). cbn [negb].
    rewrite decide_False by (by intros ?).
    destruct (ManagedAssetStatus vm _) as [err|[[last st] old]].
    + destruct Hperm as [-> ->]. done.
    + destruct Hperm as [-> [->| ->]]; [done|].
      by destruct (fx_VerifyPermission fxIndex tx _ cred (utxo_Out utxo)).
Qed.

(** X16. A change of the status of a managed asset comes into force two
    epochs after the update. With [lastUpdatedEpoch] below 2^32 - 1: up to
    epoch [lastUpdatedEpoch + 1] the result of [verifyTransferOfUTXO] does
    not depend on the new status, from [lastUpdatedEpoch + 2] on it does
    not depend on the old one. [vm1] and [vm2] agree on [verifyFxUsage]
    and on when the asset's status was updated. *)
Theorem verifyTransferOfUTXO_status_takes_two_epochs
    (vm1 vm2 : VM') tx inp cred utxo epoch last st1 old1 st2 old2 :
  verifyFxUsage vm1 = verifyFxUsage vm2 →
  ManagedAssetStatus vm1 (utxo_AssetID utxo) = inr (last, st1, old1) →
  ManagedAssetStatus vm2 (utxo_AssetID utxo) = inr (last, st2, old2) →
  (0 ≤ last < Uint32.max)%Z →
  ((epoch ≤ last + 1)%Z ∧ old1 = old2) ∨ ((last + 2 ≤ epoch)%Z ∧ st1 = st2) →
  verifyTransferOfUTXO vm1 tx inp cred utxo epoch =
  verifyTransferOfUTXO vm2 tx inp cred utxo epoch.
Proof.
  intros Hfx H1 H2 Hlast Hcase. unfold verifyTransferOfUTXO. cbv zeta.
  rewrite Hfx, H1, H2.
  assert (status_in_force epoch last st1 old1 = status_in_force epoch last st2 old2) as ->;
    [|done].
  unfold status_in_force.
  rewrite Uint32.add_no_wrap by (unfold Uint32.max, Uint32.modulus in *; lia).
  destruct (Z.leb_spec epoch (last + 1)), Hcase as [[? ->]|[? ->]]; (done || lia).
Qed.

End verifyTransfer.

(** ** getUTXO *)

Inductive GetUTXOError (TxID : Type) :=
  | errInvalidUTXOEpoch
  | errMissingUTXO (inputTxID : TxID) (inputIndex : Z) (parentStatus : Status)
  | errInvalidOutputIndex (inputIndex : Z) (inputTxID : TxID) (outputs : nat).
Arguments errInvalidUTXOEpoch {TxID}.
Arguments errMissingUTXO {TxID} _ _ _.
Arguments errInvalidOutputIndex {TxID} _ _ _.

(** What a call returns: a value, an error, or a run-time panic. *)
Inductive Outcome (Err A : Type) :=
  | Returned (a : A)
  | Failed (err : Err)
  | Panicked.
Arguments Returned {Err A} _.
Arguments Failed {Err A} _.
Arguments Panicked {Err A}.

Section getUTXO.

Context {E TxID ID UTXOID UTXO : Type}.

(** [utxoID.InputSource()] (the id of the tx that made the UTXO and the
    index of the output, a [uint32]) and [utxoID.InputID()]. *)
Context (InputSource : UTXOID → TxID * Z).
Context (InputID : UTXOID → ID).

(** The parent [newUniqueTx(vm, inputTxID, nil)]: its [Status()],
    [Epoch()] and [UTXOs()]; and [vm.state.UTXO]. *)
Context (parent_Status : TxID → Status).
Context (parent_Epoch : TxID → Z).
Context (parent_UTXOs : TxID → list UTXO).
Context (state_UTXO : ID → E + UTXO).

(** [getUTXO]. [uint32(len(parentUTXOs))] keeps the low 32 bits of the
    length; [int] has 64 bits, so [int(inputIndex)] is [inputIndex]. The
    index expression panics out of range. *)
Definition getUTXO_of_state (utxoID : UTXOID) (epoch : Z) :
    Outcome (GetUTXOError TxID) UTXO :=
  let '(inputTxID, inputIndex) := InputSource utxoID in
  let parentStatus := parent_Status inputTxID in
  if bool_decide (parentStatus = Accepted) && (epoch <? parent_Epoch inputTxID)%Z
  then Failed errInvalidUTXOEpoch
  else
    match state_UTXO (InputID utxoID) with
    | inr utxo => Returned utxo
    | inl _ =>
        if negb (bool_decide (parentStatus = Processing))
        then Failed (errMissingUTXO inputTxID inputIndex parentStatus)
        else
          let parentUTXOs := parent_UTXOs inputTxID in
          if (Z.of_nat (length parentUTXOs) mod Uint32.modulus <=? inputIndex)%Z
             || (inputIndex <? 0)%Z
          then Failed (errInvalidOutputIndex inputIndex inputTxID (length parentUTXOs))
          else
            match parentUTXOs !! Z.to_nat inputIndex with
            | Some utxo => Returned utxo
            | None => Panicked
            end
    end.

(** X17. [getUTXO] never indexes the outputs of the parent out of range.
    A UTXO it returns is the one of the state, or, when the state has
    none, the output at the given index of a parent that is processing;
    and the UTXO of an accepted parent is returned only in an epoch that is
    not before the epoch of the parent. *)
Theorem getUTXO_is_safe utxoID epoch :
  getUTXO_of_state utxoID epoch ≠ Panicked ∧
  ∀ utxo, getUTXO_of_state utxoID epoch = Returned utxo →
    (parent_Status (InputSource utxoID).1 = Accepted →
       (parent_Epoch (InputSource utxoID).1 ≤ epoch)%Z) ∧
    (state_UTXO (InputID utxoID) = inr utxo ∨
     ((∃ err, state_UTXO (InputID utxoID) = inl err) ∧
      parent_Status (InputSource utxoID).1 = Processing ∧
      parent_UTXOs (InputSource utxoID).1 !! Z.to_nat (InputSource utxoID).2 = Some utxo)).
Proof.
  unfold getUTXO_of_state. destruct (InputSource utxoID) as [txID idx]. cbn [fst snd].
  destruct (bool_decide (parent_Status txID = Accepted) && (epoch <? parent_Epoch txID)%Z)
    eqn:Hep.
  { split; [done|]. by intros utxo. }
  assert (parent_Status txID = Accepted → (parent_Epoch txID ≤ epoch)%Z) as Hepoch.
  { intros Hacc. rewrite bool_decide_eq_true_2 in Hep by done. cbn in Hep. lia. }
  destruct (state_UTXO (InputID utxoID)) as [err|utxo0].
  2:{ split; [done|]. intros utxo [= ->]. split; [done|]. by left. }
  destruct (decide (parent_Status txID = Processing)) as [Hproc|Hproc].
  2:{ rewrite bool_decide_eq_false_2 by done. cbn. split; [done|]. by intros utxo. }
  rewrite bool_decide_eq_true_2 by done. cbn [negb]. cbv zeta.
  destruct (Z.leb_spec (Z.of_nat (length (parent_UTXOs txID)) mod Uint32.modulus) idx)
    as [|Hlt]; cbn [orb].
  { split; [done|]. by intros utxo. }
  destruct (Z.ltb_spec idx 0) as [|Hpos].
  { split; [done|]. by intros utxo. }
  assert (Z.to_nat idx < length (parent_UTXOs txID)) as Hin.
  { pose proof (Z.mod_le (Z.of_nat (length (parent_UTXOs txID))) Uint32.modulus) as Hle.
    unfold Uint32.modulus in *. lia. }
  apply lookup_lt_is_Some in Hin as [utxo0 Hu]. rewrite Hu.
  split; [done|]. intros utxo [= ->]. split; [done|]. right. eauto.
Qed.

End getUTXO.

(** ** verifyFxUsage *)

Section verifyFxUsage.

Context {AssetID Cache BitSet : Type}.

(** [vm.assetToFxCache] with [Get] and [Put], and [ids.BitSet] with the
    empty set [ids.BitSet(0)], [Add] and [Contains]; neither is part of the
    sources. *)
Context (cache_Get : Cache → AssetID → option BitSet).
Context (cache_Put : Cache → AssetID → BitSet → Cache).
Context (bs_zero : BitSet).
Context (bs_Add : BitSet → Z → BitSet).
Context (bs_Contains : BitSet → Z → bool).

(** The tx [newUniqueTx(vm, assetID, nil)]: whether its status is fetched,
    and, if it is a [CreateAssetTx], the [FxID]s of its [States]. *)
Context (tx_Fetched : AssetID → bool).
Context (tx_CreateAsset_FxIDs : AssetID → option (list Z)).

(** The loop over [createAssetTx.States]; [uint32(fxID)] keeps the low 32
    bits. *)
Definition collect_fx (fxID : Z) (states : list Z) : BitSet :=
  foldl (λ fxIDs stateFxID,
           if (stateFxID =? fxID mod Uint32.modulus)%Z then bs_Add fxIDs fxID else fxIDs)
    bs_zero states.

(** [verifyFxUsage] returns its answer and the cache it leaves. *)
Definition verifyFxUsage_cached (c : Cache) (fxID : Z) (assetID : AssetID) : bool * Cache :=
  match cache_Get c assetID with
  | Some fxIDs => (bs_Contains fxIDs fxID, c)
  | None =>
      if negb (tx_Fetched assetID) then (false, c)
      else
        match tx_CreateAsset_FxIDs assetID with
        | None => (false, c)
        | Some states =>
            let fxIDs := collect_fx fxID states in
            (bs_Contains fxIDs fxID, cache_Put c assetID fxIDs)
        end
  end.

(** What is asked of the cache and of the bit set: an entry just put is
    found, the empty bit set has no member, and adding [i] adds nothing
    but [i]. *)
Hypothesis cache_Get_Put : ∀ c a v, cache_Get (cache_Put c a v) a = Some v.
Hypothesis bs_Contains_zero : ∀ i, bs_Contains bs_zero i = false.
Hypothesis bs_Contains_Add : ∀ bs i j, i ≠ j → bs_Contains (bs_Add bs i) j = bs_Contains bs j.

Lemma collect_fx_other fxID states j :
  fxID ≠ j → bs_Contains (collect_fx fxID states) j = false.
Proof.
  intros Hne. unfold collect_fx.
  assert (∀ bs, bs_Contains bs j = false →
            bs_Contains
              (foldl (λ fxIDs stateFxID,
                        if (stateFxID =? fxID mod Uint32.modulus)%Z
                        then bs_Add fxIDs fxID else fxIDs) bs states) j = false) as Hgen.
  { induction states as [|s states IH]; intros bs Hbs; [done|]. cbn [foldl].
    apply IH. destruct (s =? fxID mod Uint32.modulus)%Z; [|done].
    by rewrite bs_Contains_Add. }
  apply Hgen, bs_Contains_zero.
Qed.

(** X18. The cache of [verifyFxUsage] keeps, for an asset, only the fx
    that was asked about when the entry was made. After a call for an
    asset that was not in the cache and whose creating tx is a fetched
    [CreateAssetTx], the next call for the same asset and any other fx
    answers false, whatever the states of the asset are. *)
Theorem verifyFxUsage_cache_keeps_one_fx c fxID fxID' assetID states :
  cache_Get c assetID = None →
  tx_Fetched assetID = true →
  tx_CreateAsset_FxIDs assetID = Some states →
  fxID ≠ fxID' →
  (verifyFxUsage_cached (verifyFxUsage_cached c fxID assetID).2 fxID' assetID).1 = false.
Proof.
  intros Hmiss Hfetched Hstates Hne. unfold verifyFxUsage_cached at 2.
  rewrite Hmiss, Hfetched, Hstates. cbn [negb snd]. cbv zeta.
  unfold verifyFxUsage_cached. rewrite cache_Get_Put. cbn [fst].
  by apply collect_fx_other.
Qed.

End verifyFxUsage.

(** An asset whose status was updated in epoch 5, from not frozen to the
    given status; every collaborator accepts. *)
Definition updated_vm (status : bool) : VM (E := unit) (AssetID := N) (UTXOID := N)
    (Output := N) (FxOperation := bool) (UnsignedTx := unit) (Credential := unit)
    (ManagedStatus := bool) :=
  {| getUTXO := λ utxoID _, inr (mkUTXO 7%N utxoID);
     getFx := λ _, inr 0;
     verifyFxUsage := λ _ _, true;
     ManagedAssetStatus := λ _, inr (5%Z, status, false);
     fx_VerifyOperation := λ _ _ _ _ _, None |}.

Definition transfer_input : TransferableInput (AssetID := N) (UTXOID := N) (In := unit) :=
  {| in_UTXOID := 1%N; in_AssetID := 7%N; in_In := tt |}.

(** [verifyTransferOfUTXO] with an fx that accepts every transfer and the
    owner's credential; a status is the flag that says it is frozen. *)
Definition test_verifyTransferOfUTXO :=
  verifyTransferOfUTXO (E := unit) (AssetID := N) (UTXOID := N) (Output := N)
    (FxOperation := bool) (UnsignedTx := unit) (Credential := unit) (ManagedStatus := bool)
    (In := unit)
    (λ _, inr 0) (λ _ _ _, None) (λ _ _ _ _ _, None) (λ _, true) (λ frozen, frozen) (λ _, 0%N).

Lemma verifyTransferOfUTXO_status_takes_two_epochs_witness :
  test_verifyTransferOfUTXO (updated_vm true) tt transfer_input tt (mkUTXO 7%N 1%N) 6%Z =
  test_verifyTransferOfUTXO (updated_vm false) tt transfer_input tt (mkUTXO 7%N 1%N) 6%Z.
Proof.
  apply (verifyTransferOfUTXO_status_takes_two_epochs
           (λ _, inr 0) (λ _ _ _, None) (λ _ _ _ _ _, None) (λ _, true) (λ frozen, frozen)
           (λ _, 0%N) (updated_vm true) (updated_vm false) tt transfer_input tt
           (mkUTXO 7%N 1%N) 6%Z 5%Z true false false false).
  - reflexivity.
  - reflexivity.
  - reflexivity.
  - by vm_compute.
  - left. split; [lia|reflexivity].
Defined.

(** Frozen in epoch 5, the asset can still be transferred in epoch 6 and
    no longer in epoch 7. *)
Example frozen_from_epoch_7 :
  test_verifyTransferOfUTXO (updated_vm true) tt transfer_input tt (mkUTXO 7%N 1%N) 6%Z = None ∧
  test_verifyTransferOfUTXO (updated_vm true) tt transfer_input tt (mkUTXO 7%N 1%N) 7%Z =
    Some (errFrozen 7%N).
Proof. by vm_compute. Qed.

(** [ids.BitSet] as a [uint64]: a shift by 64 or more gives 0, so [Add]
    does nothing and [Contains] is false there. *)
Definition uint64_Add (bs i : Z) : Z :=
  if ((0 <=? i) && (i <? 64))%Z then Z.setbit bs i else bs.

Definition uint64_Contains (bs i : Z) : bool :=
  ((0 <=? i) && (i <? 64))%Z && Z.testbit bs i.

Lemma uint64_Contains_Add bs i j :
  i ≠ j → uint64_Contains (uint64_Add bs i) j = uint64_Contains bs j.
Proof.
  intros Hne. unfold uint64_Contains, uint64_Add.
  destruct (Z.leb_spec 0 i), (Z.ltb_spec i 64); cbn [andb]; try done.
  destruct (Z.leb_spec 0 j), (Z.ltb_spec j 64); cbn [andb]; try done.
  by rewrite Z.setbit_neq.
Qed.

Lemma uint64_Contains_zero i : uint64_Contains 0 i = false.
Proof. unfold uint64_Contains. by rewrite Z.bits_0, andb_false_r. Qed.

(** Asset 7 was created with the fxs 0 and 1. *)
Definition test_verifyFxUsage :=
  verifyFxUsage_cached (AssetID := N) (Cache := gmap N Z) (BitSet := Z)
    (λ c a, c !! a) (λ c a v, <[a := v]> c) 0%Z uint64_Add uint64_Contains
    (λ _, true) (λ a, if (a =? 7)%N then Some [0%Z; 1%Z] else None).

Lemma verifyFxUsage_cache_keeps_one_fx_witness :
  (test_verifyFxUsage (test_verifyFxUsage ∅ 0%Z 7%N).2 1%Z 7%N).1 = false.
Proof.
  apply (verifyFxUsage_cache_keeps_one_fx (AssetID := N) (Cache := gmap N Z) (BitSet := Z)
           (λ c a, c !! a) (λ c a v, <[a := v]> c) 0%Z uint64_Add uint64_Contains
           (λ _, true) (λ a, if (a =? 7)%N then Some [0%Z; 1%Z] else None)
           (λ c a v, lookup_insert_eq c a v)
           uint64_Contains_zero uint64_Contains_Add ∅ 0%Z 1%Z 7%N [0%Z; 1%Z]).
  - reflexivity.
  - reflexivity.
  - reflexivity.
  - done.
Defined.

(** Asked first, fx 1 is found for asset 7; asked after fx 0, it is not. *)
Example verifyFxUsage_depends_on_history :
  (test_verifyFxUsage ∅ 1%Z 7%N).1 = true ∧
  (test_verifyFxUsage ∅ 0%Z 7%N).1 = true ∧
  (test_verifyFxUsage (test_verifyFxUsage ∅ 0%Z 7%N).2 1%Z 7%N).1 = false.
Proof. by vm_compute. Qed.

End AvmVerify.

(** * vms/platformvm: the health check [isWellConnected] *)

Module PlatformHealth.

(** The [map[string]float64] of details has the one key
    ["percentConnected"]; its value stands for the map. *)
Inductive Error (E : Type) :=
  | errPercentConnected (cause : E)
  | errNotWellConnected (percentConnected shouldBe : float).
Arguments errPercentConnected {E} _.
Arguments errNotWellConnected {E} _ _.

(** The closure [isWellConnected] of [HealthChecks]. Its one input is the
    result of [vm.getPercentConnected()]; the result is the pair
    (details, error) with [None] for nil. *)
Definition isWellConnected {E} (getPercentConnected : E + float) :
    option float * option (Error E) :=
  match getPercentConnected with
  | inl err => (None, Some (errPercentConnected err))
  | inr percentConnected =>
      let details := percentConnected in
      if (percentConnected <? 0.5)%float
      then (Some details, Some (errNotWellConnected percentConnected 0.5%float))
      else (Some details, None)
  end.

(** The check compares with the constant 0.5, whatever the quorum
    threshold of the network is. *)
Lemma isWellConnected_fails_below_half {E} (percentConnected : float) :
  (isWellConnected (E := E) (inr percentConnected)).2 = None ↔
  (percentConnected <? 0.5)%float = false.
Proof.
  unfold isWellConnected. by destruct (percentConnected <? 0.5)%float.
Qed.

(** C5 fails on the code. With a quorum threshold of 0.75 and a node that
    is connected to 0.625 of the stake, the connected fraction is below
    the threshold and the check succeeds. *)
Theorem isWellConnected_ignores_alpha :
  (0.625 <? 0.75)%float = true ∧
  isWellConnected (E := unit) (inr 0.625%float) = (Some 0.625%float, None).
Proof. split; reflexivity. Qed.

End PlatformHealth.

(** * snow/engine/avalanche/issuer.go *)

Module Issuer.

(** What the issuer calls on the engine [t] and its collaborators, in the
    order of the calls. The callees (the engine's [batch] and [repoll],
    the blockers, consensus, the sender) are not part of the sources: a
    call is recorded with its arguments, and its result and what it does
    to the engine are read from the [World]. *)
Inductive Call (ID Transition ShortID Bytes : Type) :=
  | Call_batch (epoch : Z) (trs : list Transition) (restrictions : list (list ID))
      (force empty updatedEpoch : bool)
  | Call_vtxBlocked_Abandon (vtxID : ID)
  | Call_vtxBlocked_Fulfill (vtxID : ID)
  | Call_Consensus_Add (vtxID : ID)
  | Call_PushQuery (vdrSet : list ShortID) (requestID : Z) (vtxID : ID) (vtxBytes : Bytes)
  | Call_trBlocked_markIssued (trID : ID) (epoch : Z)
  | Call_updateMissingTransitions
  | Call_repoll.
Arguments Call_batch {ID Transition ShortID Bytes} _ _ _ _ _ _.
Arguments Call_vtxBlocked_Abandon {ID Transition ShortID Bytes} _.
Arguments Call_vtxBlocked_Fulfill {ID Transition ShortID Bytes} _.
Arguments Call_Consensus_Add {ID Transition ShortID Bytes} _.
Arguments Call_PushQuery {ID Transition ShortID Bytes} _ _ _ _.
Arguments Call_trBlocked_markIssued {ID Transition ShortID Bytes} _ _.
Arguments Call_updateMissingTransitions {ID Transition ShortID Bytes}.
Arguments Call_repoll {ID Transition ShortID Bytes}.

Section issuer.

Context {ID : Type} `{Countable ID}.
Context {ShortID : Type} `{Countable ShortID}.
Context {Transition Bytes Err : Type}.
(** [transition.ID()] *)
Context (tr_ID : Transition → ID).

(** A transaction of the vertex: [tx.ID()], [tx.Transition()] and the
    result of [tx.Verify()] ([None] is nil). *)
Record Tx := mkTx {
  tx_ID : ID;
  tx_Transition : Transition;
  tx_Verify : option Err;
}.

(** [avalanche.Vertex]: [ID()], [Txs()], [Epoch()], [Bytes()]. *)
Record Vertex := mkVertex {
  vtx_ID : ID;
  vtx_Txs : Err + list Tx;
  vtx_Epoch : Err + Z;
  vtx_Bytes : Bytes;
}.

(** The fields of the engine [Transitive] that [Update] reads or writes,
    and the calls made so far. [errs] is a [wrappers.Errs]: it keeps the
    first error added. *)
Record Transitive := mkTransitive {
  pending : gset ID;
  errs : option Err;
  abandonedVertices : bool;
  RequestID : Z;
  missingTransitions : gmap Z (gset ID);
  calls : list (Call ID Transition ShortID Bytes);
}.

Record issuer := mkIssuer {
  vtx : Vertex;
  updatedEpoch : bool;
  issued : bool;
  abandoned : bool;
  vtxDeps : gset ID;
  trDeps : gset ID;
  unfulfilledDeps : gset ID;
}.

(** The answers of the collaborators, and what the calls that notify the
    blockers and run the engine do to the fields of the engine.
    [vtxBlocked.Fulfill] and [trBlocked.markIssued] call back into the
    issuers that wait ([vtxIssuer.Fulfill], [trIssuer.Fulfill]), whose
    [Update] works on the same engine; [updateMissingTransitions] and
    [repoll] are methods of the engine. [batch] and [vtxBlocked.Abandon]
    are recorded as calls: [vtxBlocked.Abandon] reaches the [Abandon] of
    the issuers that wait, which takes their own vertices out of
    [pending]. *)
Record World := mkWorld {
  (** [i.t.Consensus.VertexIssued(vtx)] *)
  VertexIssued : Vertex → bool;
  (** [i.t.Consensus.TransitionProcessing(trID)] *)
  TransitionProcessing : ID → bool;
  (** [i.t.Ctx.Epoch()] *)
  Ctx_Epoch : Z;
  (** the error of [i.t.batch(...)] *)
  batch : Z → list Transition → list (list ID) → bool → bool → bool → option Err;
  (** the error of [i.t.Consensus.Add(vtx)] *)
  Consensus_Add : Vertex → option Err;
  (** [i.t.Validators.Sample(p.K)], the ids of the sampled validators *)
  Validators_Sample : Err + list ShortID;
  (** [i.t.polls.Add(requestID, vdrBag)] *)
  polls_Add : Z → list ShortID → bool;
  (** the error of [i.t.repoll()] *)
  repoll : option Err;
  (** the engine after [i.t.vtxBlocked.Fulfill(vtxID)] *)
  vtxBlocked_Fulfill : ID → Transitive → Transitive;
  (** the engine after [i.t.trBlocked.markIssued(trID, epoch)] *)
  trBlocked_markIssued : ID → Z → Transitive → Transitive;
  (** the engine after [i.t.updateMissingTransitions()] *)
  updateMissingTransitions : Transitive → Transitive;
  (** the engine after [i.t.repoll()] *)
  repoll_effect : Transitive → Transitive;
}.

(** [errs.Add(err)] *)
Definition errs_Add (t : Transitive) (err : option Err) : Transitive :=
  {| pending := pending t;
     errs := match errs t with Some e => Some e | None => err end;
     abandonedVertices := abandonedVertices t;
     RequestID := RequestID t;
     missingTransitions := missingTransitions t;
     calls := calls t |}.

Definition call (t : Transitive) (c : Call ID Transition ShortID Bytes) : Transitive :=
  {| pending := pending t; errs := errs t;
     abandonedVertices := abandonedVertices t;
     RequestID := RequestID t;
     missingTransitions := missingTransitions t;
     calls := calls t ++ [c] |}.

(** A call that runs code on the engine: the fields are those the
    callee leaves, and the call is added to the calls of this issuer
    ([calls] lists what the issuer calls itself, not what its callees
    call). *)
Definition run_callback (effect : Transitive → Transitive) (t : Transitive)
    (c : Call ID Transition ShortID Bytes) : Transitive :=
  let t' := effect t in
  {| pending := pending t'; errs := errs t';
     abandonedVertices := abandonedVertices t';
     RequestID := RequestID t';
     missingTransitions := missingTransitions t';
     calls := calls t ++ [c] |}.

Definition pending_Remove (t : Transitive) (vtxID : ID) : Transitive :=
  {| pending := pending t ∖ {[vtxID]}; errs := errs t;
     abandonedVertices := abandonedVertices t;
     RequestID := RequestID t;
     missingTransitions := missingTransitions t;
     calls := calls t |}.

Definition set_abandonedVertices (t : Transitive) : Transitive :=
  {| pending := pending t; errs := errs t;
     abandonedVertices := true;
     RequestID := RequestID t;
     missingTransitions := missingTransitions t;
     calls := calls t |}.

(** [i.t.RequestID++] on a [uint32] *)
Definition next_RequestID (t : Transitive) : Transitive :=
  {| pending := pending t; errs := errs t;
     abandonedVertices := abandonedVertices t;
     RequestID := Uint32.add (RequestID t) 1;
     missingTransitions := missingTransitions t;
     calls := calls t |}.

(** [delete(i.t.missingTransitions[epoch], trID)] and the removal of the
    epoch's set once it is empty. *)
Definition remove_missing (t : Transitive) (epoch : Z) (trID : ID) : Transitive :=
  let m :=
    match missingTransitions t !! epoch with
    | Some s =>
        let s' := s ∖ {[trID]} in
        if decide (size s' = 0) then delete epoch (missingTransitions t)
        else <[epoch := s']> (missingTransitions t)
    | None => missingTransitions t
    end in
  {| pending := pending t; errs := errs t;
     abandonedVertices := abandonedVertices t;
     RequestID := RequestID t;
     missingTransitions := m;
     calls := calls t |}.

Definition set_issued (i : issuer) : issuer :=
  {| vtx := vtx i; updatedEpoch := updatedEpoch i; issued := true;
     abandoned := abandoned i; vtxDeps := vtxDeps i; trDeps := trDeps i;
     unfulfilledDeps := unfulfilledDeps i |}.

(** The three slices the verification loop builds. *)
Record Verified := mkVerified {
  validTransitions : list Transition;
  invalidTransitions : list ID;
  unissuedTransitions : list Transition;
}.

(** One iteration of [for _, tx := range txs]. *)
Definition verify_tx (w : World) (updatedEpoch : bool) (v : Verified) (tx : Tx) : Verified :=
  let transition := tx_Transition tx in
  match tx_Verify tx with
  | Some _ =>
      {| validTransitions := validTransitions v;
         invalidTransitions :=
           if updatedEpoch then invalidTransitions v ++ [tr_ID transition]
           else invalidTransitions v;
         unissuedTransitions := unissuedTransitions v |}
  | None =>
      {| validTransitions := validTransitions v ++ [transition];
         invalidTransitions := invalidTransitions v;
         unissuedTransitions :=
           if negb (TransitionProcessing w (tr_ID transition))
           then unissuedTransitions v ++ [transition]
           else unissuedTransitions v |}
  end.

Definition verify_txs (w : World) (updatedEpoch : bool) (txs : list Tx) : Verified :=
  foldl (verify_tx w updatedEpoch) (mkVerified [] [] []) txs.

(** The last loop of [Update], over the transactions of the issued vertex. *)
Definition mark_issued (w : World) (epoch : Z) (t : Transitive) (tx : Tx) : Transitive :=
  let trID := tr_ID (tx_Transition tx) in
  run_callback (trBlocked_markIssued w trID epoch) (remove_missing t epoch trID)
    (Call_trBlocked_markIssued trID epoch).

(** The part of [Update] after the epoch checks: add the vertex to
    consensus and issue a poll for it. *)
Definition add_to_consensus (w : World) (i : issuer) (t : Transitive)
    (txs : list Tx) (epoch : Z) : Transitive :=
  let vtxID := vtx_ID (vtx i) in
  let t := call t (Call_Consensus_Add vtxID) in
  match Consensus_Add w (vtx i) with
  | Some err => errs_Add t (Some err)
  | None =>
      let t := next_RequestID t in
      let t :=
        match Validators_Sample w with
        | inr vdrs =>
            if polls_Add w (RequestID t) vdrs
            then call t (Call_PushQuery (remove_dups vdrs) (RequestID t) vtxID
                           (vtx_Bytes (vtx i)))
            else t
        | inl _ => t
        end in
      let t := run_callback (vtxBlocked_Fulfill w vtxID) t (Call_vtxBlocked_Fulfill vtxID) in
      let t := foldl (mark_issued w epoch) t txs in
      let t := run_callback (updateMissingTransitions w) t Call_updateMissingTransitions in
      errs_Add (run_callback (repoll_effect w) t Call_repoll) (repoll w)
  end.

(** [Update]: issue the poll when all dependencies are met. *)
Definition Update (w : World) (i : issuer) (t : Transitive) : issuer * Transitive :=
  if abandoned i || issued i
     || negb (bool_decide (size (vtxDeps i) = 0))
     || negb (bool_decide (size (unfulfilledDeps i) = 0))
     || VertexIssued w (vtx i)
     || bool_decide (is_Some (errs t))
  then (i, t)
  else
    let i := set_issued i in
    let vtxID := vtx_ID (vtx i) in
    let t := pending_Remove t vtxID in
    match vtx_Txs (vtx i) with
    | inl err => (i, errs_Add t (Some err))
    | inr txs =>
        let v := verify_txs w (updatedEpoch i) txs in
        match vtx_Epoch (vtx i) with
        | inl err => (i, errs_Add t (Some err))
        | inr epoch =>
            if negb (length (validTransitions v) =? length txs)%nat then
              let restrictions :=
                if updatedEpoch i then [invalidTransitions v] else [] in
              let t := call t (Call_batch epoch (validTransitions v) restrictions
                                 false false true) in
              let err := batch w epoch (validTransitions v) restrictions
                           false false true in
              let t := errs_Add t err in
              let t := set_abandonedVertices t in
              (i, call t (Call_vtxBlocked_Abandon vtxID))
            else
              let currentEpoch := Ctx_Epoch w in
              let reissue :=
                negb (epoch =? currentEpoch)%Z
                && negb (length (unissuedTransitions v) =? 0)%nat in
              let t :=
                if reissue
                then call t (Call_batch currentEpoch (unissuedTransitions v) []
                               true false true)
                else t in
              let err :=
                if reissue
                then batch w currentEpoch (unissuedTransitions v) [] true false true
                else None in
              match err with
              | Some e => (i, errs_Add t (Some e))
              | None =>
                  if (currentEpoch <? epoch)%Z then
                    (i, call (set_abandonedVertices t) (Call_vtxBlocked_Abandon vtxID))
                  else (i, add_to_consensus w i t txs epoch)
              end
        end
    end.

(** [tx.Verify()] returned nil. *)
Definition verified (tx : Tx) : bool :=
  match tx_Verify tx with None => true | Some _ => false end.

Lemma verify_txs_from w u txs v :
  validTransitions (foldl (verify_tx w u) v txs) =
    validTransitions v ++ (tx_Transition <$> List.filter verified txs) ∧
  invalidTransitions (foldl (verify_tx w true) v txs) =
    invalidTransitions v ++
    (tr_ID ∘ tx_Transition <$> List.filter (negb ∘ verified) txs).
Proof.
  revert v. induction txs as [|tx txs IH]; intros v; cbn [foldl List.filter].
  - by rewrite !app_nil_r.
  - destruct (IH (verify_tx w u v tx)) as [-> _].
    destruct (IH (verify_tx w true v tx)) as [_ ->].
    unfold verify_tx, verified, compose. destruct (tx_Verify tx); simpl.
    + split; [done|]. by rewrite <- app_assoc.
    + split; [|done]. by rewrite <- app_assoc.
Qed.

Lemma verify_txs_valid w u txs :
  validTransitions (verify_txs w u txs) = tx_Transition <$> List.filter verified txs.
Proof. unfold verify_txs. by destruct (verify_txs_from w u txs (mkVerified [] [] [])) as [-> _]. Qed.

Lemma verify_txs_invalid w txs :
  invalidTransitions (verify_txs w true txs) =
  tr_ID ∘ tx_Transition <$> List.filter (negb ∘ verified) txs.
Proof. unfold verify_txs. by destruct (verify_txs_from w true txs (mkVerified [] [] [])) as [_ ->]. Qed.

Lemma filter_verified_shorter txs tx :
  tx ∈ txs → verified tx = false →
  length (List.filter verified txs) < length txs.
Proof.
  induction txs as [|tx' txs IH]; intros Hin Hv; [by apply elem_of_nil in Hin|].
  pose proof (List.filter_length_le verified txs) as Hle.
  apply elem_of_cons in Hin as [<-|Hin]; cbn [List.filter length].
  - rewrite Hv. lia.
  - specialize (IH Hin Hv). destruct (verified tx'); cbn [length]; lia.
Qed.

(** An issuer that has run [Update] to the point of setting [issued] does
    nothing when it is updated again. *)
Lemma Update_issued_is_noop w i t : issued i = true → Update w i t = (i, t).
Proof. intros Hi. unfold Update. rewrite Hi. by rewrite orb_true_r. Qed.

(** The branch of [Update] for a vertex with a transaction that fails
    verification, for every issuer. When all dependencies are met, some
    transaction of the vertex fails verification and [updatedEpoch] is
    set, [Update] makes exactly two calls: [batch], for the epoch of the
    vertex, with the transitions that verified and the one restriction
    entry that lists the transitions that did not; then
    [vtxBlocked.Abandon] of the vertex. The vertex is not added to
    consensus, neither now nor by a later [Update] of this issuer. *)
Lemma Update_rebatches_into_vertex_epoch w i t txs epoch :
  abandoned i = false → issued i = false →
  vtxDeps i = ∅ → unfulfilledDeps i = ∅ →
  VertexIssued w (vtx i) = false → errs t = None →
  vtx_Txs (vtx i) = inr txs → vtx_Epoch (vtx i) = inr epoch →
  updatedEpoch i = true →
  (∃ tx, tx ∈ txs ∧ verified tx = false) →
  calls (Update w i t).2 =
    calls t ++
    [Call_batch epoch (tx_Transition <$> List.filter verified txs)
       [tr_ID ∘ tx_Transition <$> List.filter (negb ∘ verified) txs]
       false false true;
     Call_vtxBlocked_Abandon (vtx_ID (vtx i))] ∧
  abandonedVertices (Update w i t).2 = true ∧
  (∀ w' t', Update w' (Update w i t).1 t' = ((Update w i t).1, t')).
Proof.
  intros Hab Hiss Hvd Hud Hvi Herr Htxs Hep Hupd (tx & Hin & Hbad).
  pose proof (filter_verified_shorter txs tx Hin Hbad) as Hlt.
  set (valid := tx_Transition <$> List.filter verified txs).
  set (invalid := tr_ID ∘ tx_Transition <$> List.filter (negb ∘ verified) txs).
  set (vtxID := vtx_ID (vtx i)).
  assert (Update w i t =
          (set_issued i,
           call (set_abandonedVertices
                   (errs_Add
                      (call (pending_Remove t vtxID)
                         (Call_batch epoch valid [invalid] false false true))
                      (batch w epoch valid [invalid] false false true)))
             (Call_vtxBlocked_Abandon vtxID))) as ->.
  { unfold Update.
    rewrite Hab, Hiss, Hvd, Hud, Hvi, Herr, size_empty. cbn [orb negb].
    rewrite (bool_decide_eq_false_2 (is_Some None)) by (by intros [? ?]).
    rewrite (bool_decide_eq_true_2 (0 = 0)) by done.
    cbn [orb negb]. cbv zeta. cbn [vtx set_issued updatedEpoch].
    rewrite Htxs, Hep, Hupd.
    rewrite verify_txs_valid, verify_txs_invalid.
    rewrite length_fmap.
    destruct (Nat.eqb_spec (length (List.filter verified txs)) (length txs)) as [Heq|_];
      [lia|].
    done. }
  cbn [fst snd]. split; [|split].
  - cbn [calls call set_abandonedVertices errs_Add pending_Remove].
    by rewrite <- app_assoc.
  - done.
  - intros w' t'. by apply Update_issued_is_noop.
Qed.

(** ** The other entry points of the issuer *)

Definition set_vtxDeps (i : issuer) (deps : gset ID) : issuer :=
  {| vtx := vtx i; updatedEpoch := updatedEpoch i; issued := issued i;
     abandoned := abandoned i; vtxDeps := deps; trDeps := trDeps i;
     unfulfilledDeps := unfulfilledDeps i |}.

Definition set_unfulfilledDeps (i : issuer) (deps : gset ID) : issuer :=
  {| vtx := vtx i; updatedEpoch := updatedEpoch i; issued := issued i;
     abandoned := abandoned i; vtxDeps := vtxDeps i; trDeps := trDeps i;
     unfulfilledDeps := deps |}.

Definition set_abandoned (i : issuer) : issuer :=
  {| vtx := vtx i; updatedEpoch := updatedEpoch i; issued := issued i;
     abandoned := true; vtxDeps := vtxDeps i; trDeps := trDeps i;
     unfulfilledDeps := unfulfilledDeps i |}.

(** [FulfillVtx]: a vertex waited for has been issued. *)
Definition FulfillVtx (w : World) (i : issuer) (t : Transitive) (id : ID) :
    issuer * Transitive :=
  Update w (set_vtxDeps i (vtxDeps i ∖ {[id]})) t.

(** [FulfillTr]: a transition waited for has been issued. *)
Definition FulfillTr (w : World) (i : issuer) (t : Transitive) (id : ID) :
    issuer * Transitive :=
  Update w (set_unfulfilledDeps i (unfulfilledDeps i ∖ {[id]})) t.

(** [Abandon]: give up this attempt to issue. *)
Definition Abandon (i : issuer) (t : Transitive) : issuer * Transitive :=
  if abandoned i then (i, t)
  else
    let vtxID := vtx_ID (vtx i) in
    let t := pending_Remove t vtxID in
    (set_abandoned i, call t (Call_vtxBlocked_Abandon vtxID)).

(** The transitions of the verified transactions that consensus is not
    processing yet. *)
Definition unissued (w : World) (txs : list Tx) : list Transition :=
  tx_Transition <$>
    List.filter (λ tx, verified tx && negb (TransitionProcessing w (tr_ID (tx_Transition tx))))
      txs.

Lemma verify_txs_unissued_from w u txs v :
  unissuedTransitions (foldl (verify_tx w u) v txs) = unissuedTransitions v ++ unissued w txs.
Proof.
  unfold unissued. revert v. induction txs as [|tx txs IH]; intros v; cbn [foldl List.filter].
  - by rewrite app_nil_r.
  - rewrite IH. unfold verify_tx, verified. destruct (tx_Verify tx); cbn.
    + done.
    + destruct (TransitionProcessing w _); cbn; [done|]. by rewrite <- app_assoc.
Qed.

Lemma verify_txs_unissued w u txs :
  unissuedTransitions (verify_txs w u txs) = unissued w txs.
Proof. unfold verify_txs. by rewrite verify_txs_unissued_from. Qed.

Lemma filter_verified_all txs :
  length (List.filter verified txs) = length txs → ∀ tx, tx ∈ txs → verified tx = true.
Proof.
  intros Hlen tx Hin. destruct (verified tx) eqn:Hv; [done|].
  pose proof (filter_verified_shorter txs tx Hin Hv). lia.
Qed.

Lemma filter_verified_id txs :
  (∀ tx, tx ∈ txs → verified tx = true) → List.filter verified txs = txs.
Proof.
  induction txs as [|tx txs IH]; intros Hall; [done|]. cbn.
  rewrite (Hall tx) by left. f_equal. apply IH. intros tx' Hin. apply Hall. by right.
Qed.

Lemma calls_mark_issued w epoch txs t :
  calls (foldl (mark_issued w epoch) t txs) =
  calls t ++ ((λ tx, Call_trBlocked_markIssued (tr_ID (tx_Transition tx)) epoch) <$> txs).
Proof.
  revert t. induction txs as [|tx txs IH]; intros t; cbn [foldl fmap list_fmap].
  - by rewrite app_nil_r.
  - rewrite IH. cbn. by rewrite <- app_assoc.
Qed.

(** A callee that leaves the engine as it is only adds its call. *)
Lemma run_callback_inert effect t c : effect t = t → run_callback effect t c = call t c.
Proof. intros He. unfold run_callback, call. cbv zeta. by rewrite He. Qed.

(** The notified blockers release no issuer and the two methods of the
    engine leave its fields as they are. *)
Definition inert (w : World) : Prop :=
  (∀ vtxID t, vtxBlocked_Fulfill w vtxID t = t) ∧
  (∀ trID epoch t, trBlocked_markIssued w trID epoch t = t) ∧
  (∀ t, updateMissingTransitions w t = t) ∧
  (∀ t, repoll_effect w t = t).

Lemma mark_issued_inert w epoch t tx :
  (∀ trID t0, trBlocked_markIssued w trID epoch t0 = t0) →
  mark_issued w epoch t tx =
  call (remove_missing t epoch (tr_ID (tx_Transition tx)))
    (Call_trBlocked_markIssued (tr_ID (tx_Transition tx)) epoch).
Proof. intros Hm. unfold mark_issued. cbv zeta. by rewrite run_callback_inert. Qed.

(** What is still missing in [epoch], read as Go reads the map. *)
Definition missing_in (t : Transitive) (epoch : Z) : gset ID :=
  default ∅ (missingTransitions t !! epoch).

Lemma missing_in_remove t epoch trID :
  missing_in (remove_missing t epoch trID) epoch = missing_in t epoch ∖ {[trID]}.
Proof.
  unfold missing_in, remove_missing. cbn.
  destruct (missingTransitions t !! epoch) as [s|] eqn:Hs; cbn.
  - case_decide as Hz.
    + rewrite lookup_delete_eq. cbn. apply size_empty_inv in Hz.
      apply leibniz_equiv in Hz. by rewrite Hz.
    + by rewrite lookup_insert_eq.
  - rewrite Hs. cbn. set_solver.
Qed.

Lemma missing_in_mark_issued w epoch txs t :
  (∀ trID t0, trBlocked_markIssued w trID epoch t0 = t0) →
  missing_in (foldl (mark_issued w epoch) t txs) epoch =
  missing_in t epoch ∖ list_to_set (tr_ID ∘ tx_Transition <$> txs).
Proof.
  intros Hm.
  revert t. induction txs as [|tx txs IH]; intros t; cbn [foldl fmap list_fmap list_to_set].
  - set_solver.
  - rewrite IH, mark_issued_inert by done.
    change (missing_in (call ?t' ?c) epoch) with (missing_in t' epoch).
    rewrite missing_in_remove. cbn. set_solver.
Qed.

Lemma missing_nonempty_remove t epoch trID :
  missingTransitions (remove_missing t epoch trID) !! epoch ≠ Some ∅.
Proof.
  unfold remove_missing. cbn.
  destruct (missingTransitions t !! epoch) as [s|] eqn:Hs.
  - case_decide as Hz.
    + by rewrite lookup_delete_eq.
    + rewrite lookup_insert_eq. intros [= He]. apply Hz. rewrite He. apply size_empty.
  - by rewrite Hs.
Qed.

Lemma missing_nonempty_mark_issued w epoch txs t :
  (∀ trID t0, trBlocked_markIssued w trID epoch t0 = t0) →
  missingTransitions t !! epoch ≠ Some ∅ →
  missingTransitions (foldl (mark_issued w epoch) t txs) !! epoch ≠ Some ∅.
Proof.
  intros Hm.
  revert t. induction txs as [|tx txs IH]; intros t Ht; cbn [foldl]; [done|].
  apply IH. rewrite mark_issued_inert by done.
  change (missingTransitions (call ?t' ?c)) with (missingTransitions t').
  apply missing_nonempty_remove.
Qed.

(** The guard of [Update] lets the issuer through. *)
Definition ready (w : World) (i : issuer) (t : Transitive) : Prop :=
  abandoned i = false ∧ issued i = false ∧ vtxDeps i = ∅ ∧ unfulfilledDeps i = ∅ ∧
  VertexIssued w (vtx i) = false ∧ errs t = None.

Lemma Update_not_ready w i t : ¬ ready w i t → Update w i t = (i, t).
Proof.
  intros Hn. unfold Update.
  destruct (abandoned i) eqn:Hab; [done|].
  destruct (issued i) eqn:Hiss; [done|].
  destruct (bool_decide (size (vtxDeps i) = 0)) eqn:Hvd; [|done].
  destruct (bool_decide (size (unfulfilledDeps i) = 0)) eqn:Hud; [|done].
  destruct (VertexIssued w (vtx i)) eqn:Hvi; [done|].
  destruct (bool_decide (is_Some (errs t))) eqn:Herr; [done|].
  exfalso. apply Hn. unfold ready.
  apply bool_decide_eq_true in Hvd, Hud. apply bool_decide_eq_false in Herr.
  apply size_empty_inv, leibniz_equiv in Hvd, Hud.
  repeat split; try done. destruct (errs t); [|done]. exfalso. apply Herr. eauto.
Qed.

Lemma ready_dec w i t : ready w i t ∨ ¬ ready w i t.
Proof.
  unfold ready.
  destruct (abandoned i), (issued i), (decide (vtxDeps i = ∅)),
    (decide (unfulfilledDeps i = ∅)), (VertexIssued w (vtx i)), (errs t);
    try (left; done); right; intros (? & ? & ? & ? & ? & ?); done.
Qed.

(** Past the guard, [Update] is the rest of its body. *)
Lemma Update_ready w i t :
  ready w i t →
  Update w i t =
    let i' := set_issued i in
    let vtxID := vtx_ID (vtx i) in
    let t := pending_Remove t vtxID in
    match vtx_Txs (vtx i) with
    | inl err => (i', errs_Add t (Some err))
    | inr txs =>
        let v := verify_txs w (updatedEpoch i) txs in
        match vtx_Epoch (vtx i) with
        | inl err => (i', errs_Add t (Some err))
        | inr epoch =>
            if negb (length (validTransitions v) =? length txs)%nat then
              let restrictions :=
                if updatedEpoch i then [invalidTransitions v] else [] in
              (i', call (set_abandonedVertices
                           (errs_Add
                              (call t (Call_batch epoch (validTransitions v) restrictions
                                         false false true))
                              (batch w epoch (validTransitions v) restrictions
                                 false false true)))
                     (Call_vtxBlocked_Abandon vtxID))
            else
              let currentEpoch := Ctx_Epoch w in
              let reissue :=
                negb (epoch =? currentEpoch)%Z
                && negb (length (unissuedTransitions v) =? 0)%nat in
              let t :=
                if reissue
                then call t (Call_batch currentEpoch (unissuedTransitions v) []
                               true false true)
                else t in
              let err :=
                if reissue
                then batch w currentEpoch (unissuedTransitions v) [] true false true
                else None in
              match err with
              | Some e => (i', errs_Add t (Some e))
              | None =>
                  if (currentEpoch <? epoch)%Z then
                    (i', call (set_abandonedVertices t) (Call_vtxBlocked_Abandon vtxID))
                  else (i', add_to_consensus w i' t txs epoch)
              end
        end
    end.
Proof.
  intros (Hab & Hiss & Hvd & Hud & Hvi & Herr). unfold Update.
  rewrite Hab, Hiss, Hvd, Hud, Hvi, Herr, size_empty. cbn [orb negb].
  rewrite (bool_decide_eq_false_2 (is_Some None)) by (by intros [? ?]).
  rewrite (bool_decide_eq_true_2 (0 = 0)) by done.
  reflexivity.
Qed.

Lemma Update_ready_issued w i t : ready w i t → (Update w i t).1 = set_issued i.
Proof.
  intros Hr. rewrite (Update_ready w i t Hr). cbv zeta.
  repeat case_match; reflexivity.
Qed.

Lemma calls_add_to_consensus w i t txs epoch :
  ∃ l, calls (add_to_consensus w i t txs epoch) =
         calls t ++ Call_Consensus_Add (vtx_ID (vtx i)) :: l ∧
       ∀ v, Call_Consensus_Add v ∉ l.
Proof.
  unfold add_to_consensus. cbv zeta.
  destruct (Consensus_Add w (vtx i)).
  { exists []. split; [done|]. intros v. apply not_elem_of_nil. }
  set (push :=
    match Validators_Sample w with
    | inr vdrs =>
        if polls_Add w (Uint32.add (RequestID t) 1) vdrs
        then [Call_PushQuery (remove_dups vdrs) (Uint32.add (RequestID t) 1)
                (vtx_ID (vtx i)) (vtx_Bytes (vtx i))]
        else []
    | inl _ => []
    end : list (Call ID Transition ShortID Bytes)).
  exists (push ++ [Call_vtxBlocked_Fulfill (vtx_ID (vtx i))] ++
          ((λ tx, Call_trBlocked_markIssued (tr_ID (tx_Transition tx)) epoch) <$> txs) ++
          [Call_updateMissingTransitions; Call_repoll]).
  split.
  - cbn [calls errs_Add run_callback]. rewrite calls_mark_issued.
    cbn [calls run_callback].
    subst push. destruct (Validators_Sample w) as [|vdrs]; cbn.
    + by rewrite <- !app_assoc.
    + destruct (polls_Add w _ vdrs); cbn; by rewrite <- !app_assoc.
  - intros v Hin. rewrite !elem_of_app in Hin.
    destruct Hin as [Hin|[Hin|[Hin|Hin]]].
    + subst push. destruct (Validators_Sample w) as [|vdrs];
        [by apply elem_of_nil in Hin|].
      destruct (polls_Add w _ vdrs); [|by apply elem_of_nil in Hin].
      by apply list_elem_of_singleton in Hin.
    + by apply list_elem_of_singleton in Hin.
    + by apply list_elem_of_fmap in Hin as (tx & ? & _).
    + apply elem_of_cons in Hin as [?|Hin]; [done|].
      by apply list_elem_of_singleton in Hin.
Qed.

(** ** Further properties of the issuer *)

(** X6. Whatever [Update] does, it only appends to the calls made so far,
    and it calls [Consensus.Add] for nothing but its own vertex, and only
    when the issuer is through its guard, every transaction of the vertex
    has passed [Verify] and the epoch of the vertex is not after the
    current epoch. *)
Theorem Update_adds_only_valid_vertex w i t :
  ∃ l, calls (Update w i t).2 = calls t ++ l ∧
       ∀ v, Call_Consensus_Add v ∈ l →
         v = vtx_ID (vtx i) ∧ ready w i t ∧
         ∃ txs epoch,
           vtx_Txs (vtx i) = inr txs ∧ vtx_Epoch (vtx i) = inr epoch ∧
           (∀ tx, tx ∈ txs → verified tx = true) ∧ (epoch ≤ Ctx_Epoch w)%Z.
Proof.
  destruct (ready_dec w i t) as [Hr|Hn].
  2:{ rewrite (Update_not_ready w i t Hn). exists []. rewrite app_nil_r.
      split; [done|]. by intros v ?%elem_of_nil. }
  rewrite (Update_ready w i t Hr). cbv zeta.
  destruct (vtx_Txs (vtx i)) as [e|txs] eqn:Htxs.
  { exists []. cbn. rewrite app_nil_r. split; [done|]. by intros v ?%elem_of_nil. }
  destruct (vtx_Epoch (vtx i)) as [e|epoch] eqn:Hep.
  { exists []. cbn. rewrite app_nil_r. split; [done|]. by intros v ?%elem_of_nil. }
  rewrite verify_txs_valid, length_fmap.
  destruct (Nat.eqb_spec (length (List.filter verified txs)) (length txs)) as [Hall|_];
    cbn [negb].
  2:{ eexists [_; _]. cbn. rewrite <- app_assoc. split; [done|].
      intros v Hin. apply elem_of_cons in Hin as [?|Hin]; [done|].
      by apply list_elem_of_singleton in Hin. }
  pose proof (filter_verified_all txs Hall) as Hverified.
  set (reissue := negb (epoch =? Ctx_Epoch w)%Z && _).
  destruct reissue.
  - destruct (batch w _ _ _ _ _ _).
    { eexists [_]. cbn. split; [done|]. by intros v ?%list_elem_of_singleton. }
    destruct (Z.ltb_spec (Ctx_Epoch w) epoch) as [Hfut|Hle].
    { eexists [_; _]. cbn. rewrite <- app_assoc. split; [done|].
      intros v Hin. apply elem_of_cons in Hin as [?|Hin]; [done|].
      by apply list_elem_of_singleton in Hin. }
    cbn [snd].
    destruct (calls_add_to_consensus w (set_issued i)
                (call (pending_Remove t (vtx_ID (vtx i)))
                   (Call_batch (Ctx_Epoch w)
                      (unissuedTransitions (verify_txs w (updatedEpoch i) txs)) []
                      true false true)) txs epoch) as (l & -> & Hl).
    eexists (_ :: _ :: l). cbn. rewrite <- app_assoc. split; [done|].
    intros v Hin. apply elem_of_cons in Hin as [?|Hin]; [done|].
    apply elem_of_cons in Hin as [Hv|Hin]; [|by apply Hl in Hin].
    injection Hv as ->. split; [done|]. split; [done|]. by exists txs, epoch.
  - destruct (Z.ltb_spec (Ctx_Epoch w) epoch) as [Hfut|Hle].
    { eexists [_]. cbn. split; [done|]. by intros v ?%list_elem_of_singleton. }
    cbn [snd].
    destruct (calls_add_to_consensus w (set_issued i)
                (pending_Remove t (vtx_ID (vtx i))) txs epoch) as (l & -> & Hl).
    eexists (_ :: l). cbn. split; [done|].
    intros v Hin. apply elem_of_cons in Hin as [Hv|Hin]; [|by apply Hl in Hin].
    injection Hv as ->. split; [done|]. split; [done|]. by exists txs, epoch.
Qed.

(** X7. An issuer acts at most once: a call of [Update] either changes
    nothing, or leaves an issuer on which every later [Update],
    [FulfillVtx] and [FulfillTr] changes nothing in the engine. *)
Theorem Update_acts_at_most_once w i t :
  Update w i t = (i, t) ∨
  ∀ w' t' id,
    (Update w' (Update w i t).1 t').2 = t' ∧
    (FulfillVtx w' (Update w i t).1 t' id).2 = t' ∧
    (FulfillTr w' (Update w i t).1 t' id).2 = t'.
Proof.
  destruct (ready_dec w i t) as [Hr|Hn]; [right|left; by apply Update_not_ready].
  rewrite (Update_ready_issued w i t Hr). intros w' t' id.
  unfold FulfillVtx, FulfillTr. by rewrite !Update_issued_is_noop.
Qed.

(** X8. [Abandon] is final. It takes the vertex out of [pending] and tells
    the vertex blocker once; on the abandoned issuer a second [Abandon],
    [Update], [FulfillVtx] and [FulfillTr] leave the engine as it is, so
    the vertex is never added to consensus by this issuer. *)
Theorem Abandon_is_final i t :
  abandoned (Abandon i t).1 = true ∧
  (abandoned i = false →
     (vtx_ID (vtx i) ∉ pending (Abandon i t).2) ∧
     calls (Abandon i t).2 = calls t ++ [Call_vtxBlocked_Abandon (vtx_ID (vtx i))]) ∧
  (∀ w t' id,
     Abandon (Abandon i t).1 t' = ((Abandon i t).1, t') ∧
     (Update w (Abandon i t).1 t').2 = t' ∧
     (FulfillVtx w (Abandon i t).1 t' id).2 = t' ∧
     (FulfillTr w (Abandon i t).1 t' id).2 = t').
Proof.
  assert (abandoned (Abandon i t).1 = true) as Hab.
  { unfold Abandon. by destruct (abandoned i) eqn:Hi. }
  split; [done|]. split.
  - intros Hi. unfold Abandon. rewrite Hi. cbn. split; [set_solver|done].
  - intros w t' id. split; [|split; [|split]].
    + unfold Abandon at 1. by rewrite Hab.
    + unfold Update. by rewrite Hab.
    + unfold FulfillVtx, Update. cbn [abandoned set_vtxDeps]. by rewrite Hab.
    + unfold FulfillTr, Update. cbn [abandoned set_unfulfilledDeps]. by rewrite Hab.
Qed.

(** X9. A vertex is not issued while a dependency is missing. If, after
    the fulfilled id is taken out, a vertex dependency or a transition
    dependency is still unmet, [FulfillVtx] and [FulfillTr] only record the
    fulfilled id: the engine is untouched and the issuer is not issued. *)
Theorem Fulfill_waits_for_all_dependencies w i t id :
  (vtxDeps i ∖ {[id]} ≠ ∅ ∨ unfulfilledDeps i ≠ ∅ →
     FulfillVtx w i t id = (set_vtxDeps i (vtxDeps i ∖ {[id]}), t)) ∧
  (vtxDeps i ≠ ∅ ∨ unfulfilledDeps i ∖ {[id]} ≠ ∅ →
     FulfillTr w i t id = (set_unfulfilledDeps i (unfulfilledDeps i ∖ {[id]}), t)).
Proof.
  split; intros Hdeps; apply Update_not_ready;
    intros (_ & _ & Hv & Hu & _); cbn in Hv, Hu; by destruct Hdeps.
Qed.

(** X10. When an issuer that is through its guard holds a vertex whose
    transactions all pass [Verify] but whose epoch differs from the current
    epoch, and some of its transitions are not processing yet, [Update]
    first batches exactly these transitions into the current epoch, with
    [force] set and without restrictions; if that batch fails, nothing
    else is called and the error is kept. *)
Theorem Update_reissues_into_current_epoch w i t txs epoch :
  ready w i t →
  vtx_Txs (vtx i) = inr txs → vtx_Epoch (vtx i) = inr epoch →
  (∀ tx, tx ∈ txs → verified tx = true) →
  epoch ≠ Ctx_Epoch w → unissued w txs ≠ [] →
  ∃ l, calls (Update w i t).2 =
         calls t ++
         Call_batch (Ctx_Epoch w) (unissued w txs) [] true false true :: l ∧
       ∀ e, batch w (Ctx_Epoch w) (unissued w txs) [] true false true = Some e →
            l = [] ∧ errs (Update w i t).2 = Some e.
Proof.
  intros Hr Htxs Hep Hall Hne Hun.
  rewrite (Update_ready w i t Hr). cbv zeta. rewrite Htxs, Hep.
  rewrite verify_txs_valid, length_fmap, (filter_verified_id txs Hall), Nat.eqb_refl.
  cbn [negb]. rewrite verify_txs_unissued.
  destruct (Z.eqb_spec epoch (Ctx_Epoch w)) as [?|_]; [done|].
  destruct (Nat.eqb_spec (length (unissued w txs)) 0) as [Hz|_].
  { by apply nil_length_inv in Hz. }
  cbn [negb andb].
  destruct (batch w (Ctx_Epoch w) (unissued w txs) [] true false true) as [e|] eqn:Hb.
  - exists []. cbn. split; [done|]. intros e' [= <-]. split; [done|].
    destruct Hr as (_ & _ & _ & _ & _ & Herr). by rewrite Herr.
  - destruct (Ctx_Epoch w <? epoch)%Z.
    + eexists [_]. cbn. rewrite <- app_assoc. split; [done|]. by intros e' ?.
    + cbn [snd].
      destruct (calls_add_to_consensus w (set_issued i)
                  (call (pending_Remove t (vtx_ID (vtx i)))
                     (Call_batch (Ctx_Epoch w) (unissued w txs) [] true false true))
                  txs epoch) as (l & -> & _).
      eexists (_ :: l). cbn. rewrite <- app_assoc. split; [done|]. by intros e' ?.
Qed.

(** The calls [Update] makes when it issues the vertex, after
    [Consensus.Add]: the push query, if validators were sampled and the
    poll was added, then the notifications and the repoll. *)
Definition issue_calls (w : World) (i : issuer) (t : Transitive) (txs : list Tx) (epoch : Z) :
    list (Call ID Transition ShortID Bytes) :=
  match Validators_Sample w with
  | inr vdrs =>
      if polls_Add w (Uint32.add (RequestID t) 1) vdrs
      then [Call_PushQuery (remove_dups vdrs) (Uint32.add (RequestID t) 1)
              (vtx_ID (vtx i)) (vtx_Bytes (vtx i))]
      else []
  | inl _ => []
  end ++
  [Call_vtxBlocked_Fulfill (vtx_ID (vtx i))] ++
  ((λ tx, Call_trBlocked_markIssued (tr_ID (tx_Transition tx)) epoch) <$> txs) ++
  [Call_updateMissingTransitions; Call_repoll].

(** X11. When an issuer that is through its guard holds a vertex of the
    current epoch whose transactions all pass [Verify], and consensus takes
    the vertex, [Update] calls, in this order, [Consensus.Add], the push
    query, [vtxBlocked.Fulfill], [trBlocked.markIssued] for each
    transaction, [updateMissingTransitions] and [repoll], whatever these
    callees do to the engine. The fields of the engine after [Update] are
    what the callees leave: the notifications run the [Update] of the
    issuers that waited, on the same engine. If these callees leave the
    engine as it is, then after [Update] the vertex is no longer pending,
    the request id has advanced by one (modulo 2^32), no transition of the
    vertex is missing in its epoch any more, no empty set is stored for
    the epoch if the vertex has a transaction, and the error of the engine
    is what [repoll] returned. *)
Theorem Update_issues_vertex w i t txs epoch :
  ready w i t →
  vtx_Txs (vtx i) = inr txs → vtx_Epoch (vtx i) = inr epoch →
  (∀ tx, tx ∈ txs → verified tx = true) →
  epoch = Ctx_Epoch w → Consensus_Add w (vtx i) = None →
  calls (Update w i t).2 =
    calls t ++ Call_Consensus_Add (vtx_ID (vtx i)) :: issue_calls w i t txs epoch ∧
  (inert w →
     (vtx_ID (vtx i) ∉ pending (Update w i t).2) ∧
     RequestID (Update w i t).2 = Uint32.add (RequestID t) 1 ∧
     missing_in (Update w i t).2 epoch =
       missing_in t epoch ∖ list_to_set (tr_ID ∘ tx_Transition <$> txs) ∧
     (txs ≠ [] → missingTransitions (Update w i t).2 !! epoch ≠ Some ∅) ∧
     errs (Update w i t).2 = repoll w).
Proof.
  intros Hr Htxs Hep Hall Hcur Hadd.
  rewrite (Update_ready w i t Hr). cbv zeta. rewrite Htxs, Hep.
  rewrite verify_txs_valid, length_fmap, (filter_verified_id txs Hall), Nat.eqb_refl.
  cbn [negb]. rewrite <- Hcur, Z.eqb_refl, Z.ltb_irrefl. cbn [negb andb snd].
  unfold add_to_consensus. cbv zeta. cbn [vtx set_issued]. rewrite Hadd.
  destruct Hr as (_ & _ & _ & _ & _ & Herr).
  set (t1 := match Validators_Sample w with inl _ => _ | inr _ => _ end).
  assert (pending t1 = pending t ∖ {[vtx_ID (vtx i)]} ∧
          RequestID t1 = Uint32.add (RequestID t) 1 ∧
          missingTransitions t1 = missingTransitions t ∧ errs t1 = None) as (Hp & Hq & Hm & He).
  { subst t1. destruct (Validators_Sample w) as [|vdrs]; [by cbn|].
    by destruct (polls_Add w _ vdrs); cbn. }
  split.
  - cbn [calls errs_Add run_callback]. rewrite calls_mark_issued. cbn [calls run_callback].
    unfold issue_calls. subst t1. destruct (Validators_Sample w) as [|vdrs]; cbn.
    + by rewrite <- !app_assoc.
    + destruct (polls_Add w _ vdrs); cbn; by rewrite <- !app_assoc.
  - intros (HF & HM & HU & HR).
    rewrite !run_callback_inert by done.
    set (t2 := foldl (mark_issued w epoch) (call t1 (Call_vtxBlocked_Fulfill _)) txs).
    assert (pending t2 = pending t1 ∧ RequestID t2 = RequestID t1 ∧ errs t2 = errs t1)
      as (Hp2 & Hq2 & He2).
    { assert (∀ l t0, pending (foldl (mark_issued w epoch) t0 l) = pending t0 ∧
                        RequestID (foldl (mark_issued w epoch) t0 l) = RequestID t0 ∧
                        errs (foldl (mark_issued w epoch) t0 l) = errs t0) as Hfold.
      { induction l as [|tx l IH]; intros t0; [done|]. cbn [foldl].
        destruct (IH (mark_issued w epoch t0 tx)) as (-> & -> & ->).
        by rewrite mark_issued_inert. }
      subst t2. by destruct (Hfold txs (call t1 (Call_vtxBlocked_Fulfill (vtx_ID (vtx i)))))
        as (-> & -> & ->). }
    cbn [pending RequestID errs missingTransitions errs_Add call].
    rewrite Hp2, Hq2, He2, Hp, Hq, He. split; [set_solver|]. split; [done|].
    split; [|split; [|done]].
    + unfold missing_in at 1. cbn [missingTransitions errs_Add call].
      fold (missing_in t2 epoch). subst t2. rewrite missing_in_mark_issued by done.
      unfold missing_in. cbn [missingTransitions call]. by rewrite Hm.
    + intros Hne. destruct txs as [|tx txs]; [done|]. subst t2. cbn [foldl].
      apply missing_nonempty_mark_issued; [done|]. rewrite mark_issued_inert by done.
      change (missingTransitions (call ?t' ?c)) with (missingTransitions t').
      apply missing_nonempty_remove.
Qed.

End issuer.

(** The issuer of a vertex of epoch 1 with one transaction that fails
    verification, updated when the current epoch is 2. *)
Definition stale_vertex : Vertex (ID := N) (Transition := N) (Bytes := unit) (Err := unit) :=
  {| vtx_ID := 5%N;
     vtx_Txs := inr [mkTx 10%N 9%N (Some tt); mkTx 11%N 8%N None];
     vtx_Epoch := inr 1%Z;
     vtx_Bytes := tt |}.

Definition stale_issuer : issuer (ID := N) (Transition := N) (Bytes := unit) (Err := unit) :=
  {| vtx := stale_vertex; updatedEpoch := true; issued := false; abandoned := false;
     vtxDeps := ∅; trDeps := ∅; unfulfilledDeps := ∅ |}.

Abbreviation TestWorld :=
  (World (ID := N) (ShortID := N) (Transition := N) (Bytes := unit) (Err := unit)).
Abbreviation TestEngine :=
  (Transitive (ID := N) (ShortID := N) (Transition := N) (Bytes := unit) (Err := unit)).

Definition epoch_2_world : TestWorld :=
  {| VertexIssued := λ _, false;
     TransitionProcessing := λ _, true;
     Ctx_Epoch := 2%Z;
     batch := λ _ _ _ _ _ _, None;
     Consensus_Add := λ _, None;
     Validators_Sample := inr [];
     polls_Add := λ _ _, true;
     repoll := None;
     vtxBlocked_Fulfill := λ _ t, t;
     trBlocked_markIssued := λ _ _ t, t;
     updateMissingTransitions := λ t, t;
     repoll_effect := λ t, t |}.

Definition fresh_engine : TestEngine :=
  {| pending := {[5%N]}; errs := None; abandonedVertices := false; RequestID := 0%Z;
     missingTransitions := ∅; calls := [] |}.

(** C7. The code departs from the rule, and from the comment on
    [updatedEpoch] in issuer.go, which has the failed transactions
    restricted into the current epoch. The issuer has [updatedEpoch] set,
    its vertex is of epoch 1 and has a transaction that fails verification
    and one that passes; the current epoch is 2. [Update] batches the
    valid transition, with the restriction that lists the invalid one,
    into epoch 1, the epoch of the vertex, and not into the current epoch;
    then it abandons the vertex. *)
Theorem Update_batches_into_stale_epoch :
  updatedEpoch stale_issuer = true ∧
  vtx_Epoch (vtx stale_issuer) = inr 1%Z ∧
  (verified <$> [mkTx 10%N 9%N (Some tt); mkTx 11%N 8%N None]) = [false; true] ∧
  Ctx_Epoch epoch_2_world = 2%Z ∧
  calls (Update id epoch_2_world stale_issuer fresh_engine).2 =
    [Call_batch 1%Z [8%N] [[9%N]] false false true; Call_vtxBlocked_Abandon 5%N].
Proof. repeat (split; [reflexivity|]). by vm_compute. Qed.

Lemma Update_rebatches_into_vertex_epoch_witness :
  calls (Update id epoch_2_world stale_issuer fresh_engine).2 =
    calls fresh_engine ++
    [Call_batch 1%Z
       (tx_Transition <$> List.filter verified [mkTx 10%N 9%N (Some tt); mkTx 11%N 8%N None])
       [id ∘ tx_Transition <$>
          List.filter (negb ∘ verified) [mkTx 10%N 9%N (Some tt); mkTx 11%N 8%N None]]
       false false true;
     Call_vtxBlocked_Abandon (vtx_ID (vtx stale_issuer))] ∧
  abandonedVertices (Update id epoch_2_world stale_issuer fresh_engine).2 = true ∧
  (∀ (w' : TestWorld) (t' : TestEngine),
     Update id w' (Update id epoch_2_world stale_issuer fresh_engine).1 t' =
            ((Update id epoch_2_world stale_issuer fresh_engine).1, t')).
Proof.
  apply (Update_rebatches_into_vertex_epoch id epoch_2_world stale_issuer fresh_engine
           [mkTx 10%N 9%N (Some tt); mkTx 11%N 8%N None] 1%Z);
    try reflexivity.
  exists (mkTx 10%N 9%N (Some tt)). split; [left|reflexivity].
Defined.

(** The issuer of a vertex of epoch 1 whose two transactions pass
    verification. *)
Definition valid_txs : list (Tx (ID := N) (Transition := N) (Err := unit)) :=
  [mkTx 10%N 9%N None; mkTx 11%N 8%N None].

Definition valid_vertex : Vertex (ID := N) (Transition := N) (Bytes := unit) (Err := unit) :=
  {| vtx_ID := 5%N;
     vtx_Txs := inr valid_txs;
     vtx_Epoch := inr 1%Z;
     vtx_Bytes := tt |}.

Definition valid_issuer : issuer (ID := N) (Transition := N) (Bytes := unit) (Err := unit) :=
  {| vtx := valid_vertex; updatedEpoch := false; issued := false; abandoned := false;
     vtxDeps := ∅; trDeps := ∅; unfulfilledDeps := ∅ |}.

(** The same issuer while it waits for the vertices 1 and 2. *)
Definition waiting_issuer : issuer (ID := N) (Transition := N) (Bytes := unit) (Err := unit) :=
  {| vtx := valid_vertex; updatedEpoch := false; issued := false; abandoned := false;
     vtxDeps := {[1%N; 2%N]}; trDeps := ∅; unfulfilledDeps := ∅ |}.

(** Epoch 2, no transition processing yet, and [batch] fails. *)
Definition failing_batch_world : TestWorld :=
  {| VertexIssued := λ _, false;
     TransitionProcessing := λ _, false;
     Ctx_Epoch := 2%Z;
     batch := λ _ _ _ _ _ _, Some tt;
     Consensus_Add := λ _, None;
     Validators_Sample := inr [];
     polls_Add := λ _ _, true;
     repoll := None;
     vtxBlocked_Fulfill := λ _ t, t;
     trBlocked_markIssued := λ _ _ t, t;
     updateMissingTransitions := λ t, t;
     repoll_effect := λ t, t |}.

(** Epoch 1, the epoch of [valid_vertex]; two validators are sampled. *)
Definition epoch_1_world : TestWorld :=
  {| VertexIssued := λ _, false;
     TransitionProcessing := λ _, false;
     Ctx_Epoch := 1%Z;
     batch := λ _ _ _ _ _ _, None;
     Consensus_Add := λ _, None;
     Validators_Sample := inr [3%N; 3%N; 4%N];
     polls_Add := λ _ _, true;
     repoll := None;
     vtxBlocked_Fulfill := λ _ t, t;
     trBlocked_markIssued := λ _ _ t, t;
     updateMissingTransitions := λ t, t;
     repoll_effect := λ t, t |}.

(** An engine that misses the transitions 9 and 12 in epoch 1, with the
    request id at its maximum. *)
Definition missing_engine : TestEngine :=
  {| pending := {[5%N]}; errs := None; abandonedVertices := false;
     RequestID := Uint32.max;
     missingTransitions := {[1%Z := {[9%N; 12%N]}]}; calls := [] |}.

Lemma valid_txs_verified (tx : Tx (ID := N) (Transition := N) (Err := unit)) :
  tx ∈ valid_txs → verified tx = true.
Proof.
  unfold valid_txs. intros Hin. repeat (apply elem_of_cons in Hin as [->|Hin]; [reflexivity|]).
  by apply elem_of_nil in Hin.
Qed.

Lemma Fulfill_waits_for_all_dependencies_witness :
  FulfillVtx id epoch_1_world waiting_issuer missing_engine 1%N =
    (set_vtxDeps waiting_issuer (vtxDeps waiting_issuer ∖ {[1%N]}), missing_engine) ∧
  issued (FulfillVtx id epoch_1_world waiting_issuer missing_engine 1%N).1 = false.
Proof.
  assert (vtxDeps waiting_issuer ∖ {[1%N]} ≠ ∅) as Hdeps.
  { intros Hempty. assert (2%N ∈ vtxDeps waiting_issuer ∖ {[1%N]}) as Hin.
    { apply elem_of_difference. split; [by vm_compute; set_solver|].
      by intros [=]%elem_of_singleton. }
    rewrite Hempty in Hin. by apply not_elem_of_empty in Hin. }
  pose proof (proj1 (Fulfill_waits_for_all_dependencies id epoch_1_world waiting_issuer
                       missing_engine 1%N) (or_introl Hdeps)) as Heq.
  split; [exact Heq|]. rewrite Heq. reflexivity.
Defined.

Lemma Update_reissues_into_current_epoch_witness :
  ∃ l, calls (Update id failing_batch_world valid_issuer fresh_engine).2 =
         calls fresh_engine ++
         Call_batch 2%Z
           (unissued id failing_batch_world valid_txs)
           [] true false true :: l ∧
       ∀ e, batch failing_batch_world 2%Z
              (unissued id failing_batch_world valid_txs)
              [] true false true = Some e →
            l = [] ∧
            errs (Update id failing_batch_world valid_issuer fresh_engine).2 = Some e.
Proof.
  apply (Update_reissues_into_current_epoch id failing_batch_world valid_issuer
           fresh_engine valid_txs 1%Z).
  - by repeat split.
  - reflexivity.
  - reflexivity.
  - apply valid_txs_verified.
  - by vm_compute.
  - by vm_compute.
Defined.

Lemma inert_epoch_1_world : inert epoch_1_world.
Proof. by repeat split. Qed.

Lemma Update_issues_vertex_witness :
  calls (Update id epoch_1_world valid_issuer missing_engine).2 =
    calls missing_engine ++
    Call_Consensus_Add (vtx_ID (vtx valid_issuer)) ::
      issue_calls id epoch_1_world valid_issuer missing_engine valid_txs 1%Z ∧
  (vtx_ID (vtx valid_issuer) ∉ pending (Update id epoch_1_world valid_issuer missing_engine).2) ∧
  RequestID (Update id epoch_1_world valid_issuer missing_engine).2 =
    Uint32.add (RequestID missing_engine) 1 ∧
  missing_in (Update id epoch_1_world valid_issuer missing_engine).2 1%Z =
    missing_in missing_engine 1%Z ∖
      list_to_set (id ∘ tx_Transition <$> valid_txs) ∧
  (valid_txs ≠ [] →
     missingTransitions (Update id epoch_1_world valid_issuer missing_engine).2 !! 1%Z
       ≠ Some ∅) ∧
  errs (Update id epoch_1_world valid_issuer missing_engine).2 = repoll epoch_1_world.
Proof.
  destruct (Update_issues_vertex id epoch_1_world valid_issuer missing_engine
              valid_txs 1%Z) as [Hcalls Hfields].
  - by repeat split.
  - reflexivity.
  - reflexivity.
  - apply valid_txs_verified.
  - reflexivity.
  - reflexivity.
  - split; [exact Hcalls|]. apply Hfields. exact inert_epoch_1_world.
Defined.

(** On this run the request id wraps from 2^32 - 1 to 0 and the two
    sampled validators are queried once each. *)
Example Update_issues_vertex_run :
  RequestID (Update id epoch_1_world valid_issuer missing_engine).2 = 0%Z ∧
  calls (Update id epoch_1_world valid_issuer missing_engine).2 =
    [Call_Consensus_Add 5%N; Call_PushQuery [3%N; 4%N] 0%Z 5%N tt;
     Call_vtxBlocked_Fulfill 5%N;
     Call_trBlocked_markIssued 9%N 1%Z; Call_trBlocked_markIssued 8%N 1%Z;
     Call_updateMissingTransitions; Call_repoll] ∧
  missing_in (Update id epoch_1_world valid_issuer missing_engine).2 1%Z = {[12%N]}.
Proof. by vm_compute. Qed.

(** As [epoch_1_world], but vertex 6 waits for vertex 5:
    [vtxBlocked.Fulfill(5)] runs the [Update] of its issuer, which takes
    vertex 6 out of [pending] and issues a poll of its own. *)
Definition releasing_world : TestWorld :=
  {| VertexIssued := λ _, false;
     TransitionProcessing := λ _, false;
     Ctx_Epoch := 1%Z;
     batch := λ _ _ _ _ _ _, None;
     Consensus_Add := λ _, None;
     Validators_Sample := inr [3%N; 3%N; 4%N];
     polls_Add := λ _ _, true;
     repoll := None;
     vtxBlocked_Fulfill := λ _ t, next_RequestID (pending_Remove t 6%N);
     trBlocked_markIssued := λ _ _ t, t;
     updateMissingTransitions := λ t, t;
     repoll_effect := λ t, t |}.

Definition two_pending : TestEngine :=
  {| pending := {[5%N; 6%N]}; errs := None; abandonedVertices := false;
     RequestID := Uint32.max;
     missingTransitions := {[1%Z := {[9%N; 12%N]}]}; calls := [] |}.

(** The issuer of vertex 5 makes the same calls, and the request id has
    advanced twice when its [Update] returns. *)
Example Update_releases_a_waiting_issuer :
  calls (Update id releasing_world valid_issuer two_pending).2 =
    calls (Update id epoch_1_world valid_issuer missing_engine).2 ∧
  RequestID (Update id releasing_world valid_issuer two_pending).2 = 1%Z ∧
  pending (Update id releasing_world valid_issuer two_pending).2 = ∅.
Proof. by vm_compute. Qed.

End Issuer.

(** * snow/engine/avalanche/vertex/builder.go *)

Module VertexBuilder.

Section Build.

Context {ID Bytes E : Type}.

(** [bytes.Compare(a, b) <= 0] on ids, a total order. *)
Context (id_le : relation ID).
Context `{!Transitive id_le, !AntiSymm (=) id_le}.

(** [hashing.ComputeHash256Array] *)
Context (ComputeHash256Array : Bytes → ID).

(** [ids.SortIDs] and [SortHashOf] sort a slice in place with [sort.Sort];
    neither is part of the sources. They are any functions that return
    their argument rearranged, in ascending order of the ids, respectively
    of the hashes of the byte strings. *)
Context (SortIDs : list ID → list ID).
Context (SortHashOf : list Bytes → list Bytes).
Hypothesis SortIDs_sorted : ∀ l, Sorted id_le (SortIDs l).
Hypothesis SortIDs_perm : ∀ l, SortIDs l ≡ₚ l.
Hypothesis SortHashOf_sorted : ∀ l, Sorted id_le (ComputeHash256Array <$> SortHashOf l).
Hypothesis SortHashOf_perm : ∀ l, SortHashOf l ≡ₚ l.

(** The two codec versions, constants of the package. *)
Context (noEpochTransitionsCodecVersion apricotCodecVersion : Z).

Record innerStatelessVertex := mkInner {
  Version : Z;
  ChainID : ID;
  Height : Z;
  Epoch : Z;
  ParentIDs : list ID;
  Transitions : list Bytes;
  Restrictions : list ID;
}.

Record statelessVertex := mkStateless {
  inner : innerStatelessVertex;
  id : ID;
  bytes : Bytes;
}.

(** [innerVtx.Verify()] and [Codec.Marshal(version, innerVtx)]; [Marshal]
    returns the bytes together with its error. *)
Context (Verify : innerStatelessVertex → option E).
Context (Marshal : Z → innerStatelessVertex → Bytes * option E).

(** [Build] returns (vertex, error): no vertex when [Verify] fails, else
    the vertex and the error of [Marshal]. *)
Definition Build (chainID : ID) (height : Z) (epoch : Z) (parentIDs : list ID)
    (trs : list Bytes) (restrictions : list ID) : option statelessVertex * option E :=
  let parentIDs := SortIDs parentIDs in
  let trs := SortHashOf trs in
  let restrictions := SortIDs restrictions in
  let version :=
    if (epoch =? 0)%Z then noEpochTransitionsCodecVersion else apricotCodecVersion in
  let innerVtx :=
    {| Version := version; ChainID := chainID; Height := height; Epoch := epoch;
       ParentIDs := parentIDs; Transitions := trs; Restrictions := restrictions |} in
  match Verify innerVtx with
  | Some err => (None, Some err)
  | None =>
      let '(vtxBytes, err) := Marshal (Version innerVtx) innerVtx in
      (Some {| inner := innerVtx; id := ComputeHash256Array vtxBytes; bytes := vtxBytes |},
       err)
  end.

Lemma SortIDs_canonical l1 l2 : l1 ≡ₚ l2 → SortIDs l1 = SortIDs l2.
Proof.
  intros Hp. apply (Sorted_unique id_le); [apply SortIDs_sorted..|].
  by rewrite !SortIDs_perm.
Qed.

Lemma fmap_eq_inj_on {A B} (f : A → B) (l1 l2 : list A) :
  (∀ x y, x ∈ l1 → y ∈ l2 → f x = f y → x = y) →
  f <$> l1 = f <$> l2 → l1 = l2.
Proof.
  revert l2. induction l1 as [|x l1 IH]; intros [|y l2] Hinj Heq; try done.
  injection Heq as Hxy Heq. f_equal.
  - apply Hinj; [left|left|done].
  - apply IH; [|done]. intros x' y' Hx' Hy'. apply Hinj; by right.
Qed.

Lemma SortHashOf_canonical l1 l2 :
  (∀ x y, x ∈ l1 → y ∈ l1 →
          ComputeHash256Array x = ComputeHash256Array y → x = y) →
  l1 ≡ₚ l2 → SortHashOf l1 = SortHashOf l2.
Proof.
  intros Hinj Hp. apply (fmap_eq_inj_on ComputeHash256Array).
  - intros x y Hx Hy. apply Hinj.
    + by rewrite <- (SortHashOf_perm l1).
    + by rewrite Hp, <- (SortHashOf_perm l2).
  - apply (Sorted_unique id_le); [apply SortHashOf_sorted..|].
    by rewrite !SortHashOf_perm, Hp.
Qed.

(** C8. [Build] returns the same vertex, with the same bytes and the same
    id, for the parent ids, the transitions and the restrictions supplied
    in any order, as long as no two of the transitions that differ have the
    same hash. *)
Theorem Build_order_independent chainID height epoch
    (parentIDs1 parentIDs2 : list ID) (trs1 trs2 : list Bytes)
    (restrictions1 restrictions2 : list ID) :
  parentIDs1 ≡ₚ parentIDs2 → trs1 ≡ₚ trs2 → restrictions1 ≡ₚ restrictions2 →
  (∀ x y, x ∈ trs1 → y ∈ trs1 →
          ComputeHash256Array x = ComputeHash256Array y → x = y) →
  Build chainID height epoch parentIDs1 trs1 restrictions1 =
  Build chainID height epoch parentIDs2 trs2 restrictions2.
Proof.
  intros Hp Ht Hr Hinj. unfold Build.
  by rewrite (SortIDs_canonical _ _ Hp), (SortIDs_canonical _ _ Hr),
    (SortHashOf_canonical _ _ Hinj Ht).
Qed.

(** X27. A vertex that [Build] returns passes [Verify]; its id is the
    hash of its bytes, which are what [Marshal] wrote with the codec
    version of its epoch; its parent ids, transitions and restrictions are
    those given, rearranged in ascending order (the transitions by their
    hashes). Building again from the content of the vertex returns the
    same vertex, as long as no two of the transitions that differ have the
    same hash. *)
Theorem Build_vertex_is_canonical chainID height epoch parentIDs trs restrictions v err :
  Build chainID height epoch parentIDs trs restrictions = (Some v, err) →
  Verify (inner v) = None ∧
  id v = ComputeHash256Array (bytes v) ∧
  Marshal (Version (inner v)) (inner v) = (bytes v, err) ∧
  Version (inner v) =
    (if (epoch =? 0)%Z then noEpochTransitionsCodecVersion else apricotCodecVersion) ∧
  (Sorted id_le (ParentIDs (inner v)) ∧ ParentIDs (inner v) ≡ₚ parentIDs) ∧
  (Sorted id_le (ComputeHash256Array <$> Transitions (inner v)) ∧
   Transitions (inner v) ≡ₚ trs) ∧
  (Sorted id_le (Restrictions (inner v)) ∧ Restrictions (inner v) ≡ₚ restrictions) ∧
  ((∀ x y, x ∈ trs → y ∈ trs → ComputeHash256Array x = ComputeHash256Array y → x = y) →
   Build chainID height epoch (ParentIDs (inner v)) (Transitions (inner v))
     (Restrictions (inner v)) = (Some v, err)).
Proof.
  intros HB. pose proof HB as HB'. unfold Build in HB. cbv zeta in HB.
  destruct (Verify _) eqn:Hverify; [done|].
  destruct (Marshal _ _) as [vtxBytes merr] eqn:Hmarshal.
  injection HB as <- <-. cbn [inner id bytes Version ParentIDs Transitions Restrictions] in *.
  split; [done|]. split; [done|]. split; [done|]. split; [done|].
  split; [split; [apply SortIDs_sorted|apply SortIDs_perm]|].
  split; [split; [apply SortHashOf_sorted|apply SortHashOf_perm]|].
  split; [split; [apply SortIDs_sorted|apply SortIDs_perm]|].
  intros Hinj. rewrite <- HB'. unfold Build.
  rewrite (SortIDs_canonical (SortIDs parentIDs) parentIDs (SortIDs_perm _)),
    (SortIDs_canonical (SortIDs restrictions) restrictions (SortIDs_perm _)),
    (SortHashOf_canonical (SortHashOf trs) trs); [done| |apply SortHashOf_perm].
  intros x y Hx Hy. apply Hinj; by rewrite <- (SortHashOf_perm trs).
Qed.

End Build.

(** ** An instance of the parameters, to run [Build]: ids that are
       numbers, byte strings that are lists of bytes written as numbers,
       merge sort, and a toy hash and codec *)

Definition toy_hash (b : list N) : N := foldl (λ h x, 257 * h + x + 1)%N 0%N b.

Definition hash_le (b1 b2 : list N) : Prop := (toy_hash b1 ≤ toy_hash b2)%N.

#[local] Instance hash_le_dec b1 b2 : Decision (hash_le b1 b2).
Proof. unfold hash_le. apply _. Defined.

Definition toy_SortIDs : list N → list N := merge_sort N.le.
Definition toy_SortHashOf : list (list N) → list (list N) := merge_sort hash_le.

(** The toy codec writes the fields one after the other. *)
Definition toy_Marshal (version : Z) (v : innerStatelessVertex (ID := N) (Bytes := list N)) :
    list N * option unit :=
  ([Z.to_N version; ChainID v; Z.to_N (Height v); Z.to_N (Epoch v)]
     ++ ParentIDs v ++ concat (Transitions v) ++ Restrictions v, None).

Definition toy_Build :=
  Build toy_hash toy_SortIDs toy_SortHashOf 0 1 (λ _, None) toy_Marshal.

Lemma toy_SortHashOf_sorted l : Sorted N.le (toy_hash <$> toy_SortHashOf l).
Proof.
  apply (Sorted_fmap _ hash_le N.le); [by intros x y|].
  apply Sorted_merge_sort. intros b1 b2. unfold hash_le. lia.
Qed.

Example Build_sorts_its_arguments :
  toy_Build 9%N 3 1 [7; 2; 5]%N [[3]; [1; 2]]%N [8; 4]%N =
  toy_Build 9%N 3 1 [2; 5; 7]%N [[1; 2]; [3]]%N [4; 8]%N.
Proof. by vm_compute. Qed.

Lemma Build_order_independent_witness :
  toy_Build 9%N 3 1 [7; 2; 5]%N [[3]; [1; 2]]%N [8; 4]%N =
  toy_Build 9%N 3 1 [5; 7; 2]%N [[1; 2]; [3]]%N [4; 8]%N.
Proof.
  apply (Build_order_independent N.le toy_hash toy_SortIDs toy_SortHashOf).
  - intros l. apply Sorted_merge_sort. intros x y. lia.
  - intros l. apply merge_sort_Permutation.
  - apply toy_SortHashOf_sorted.
  - intros l. apply merge_sort_Permutation.
  - symmetry. apply (Permutation_cons_append [7; 2]%N 5%N).
  - apply perm_swap.
  - apply perm_swap.
  - intros x y Hx Hy Hh.
    apply list_elem_of_In in Hx, Hy. simpl in Hx, Hy.
    destruct Hx as [<-|[<-|[]]], Hy as [<-|[<-|[]]]; (done || by vm_compute in Hh).
Defined.

Lemma toy_SortIDs_sorted l : Sorted N.le (toy_SortIDs l).
Proof. apply Sorted_merge_sort. intros x y. lia. Qed.

Definition built_vertex : statelessVertex (ID := N) (Bytes := list N) :=
  {| inner := {| Version := 1; ChainID := 9%N; Height := 3; Epoch := 1;
                 ParentIDs := [2; 5; 7]%N; Transitions := [[3]; [1; 2]]%N;
                 Restrictions := [4; 8]%N |};
     id := toy_hash [1; 9; 3; 1; 2; 5; 7; 3; 1; 2; 4; 8]%N;
     bytes := [1; 9; 3; 1; 2; 5; 7; 3; 1; 2; 4; 8]%N |}.

Lemma Build_vertex_is_canonical_witness :
  (λ _ : innerStatelessVertex (ID := N) (Bytes := list N), @None unit) (inner built_vertex)
    = None ∧
  id built_vertex = toy_hash (bytes built_vertex) ∧
  toy_Marshal (Version (inner built_vertex)) (inner built_vertex) =
    (bytes built_vertex, None) ∧
  Version (inner built_vertex) = (if (1 =? 0)%Z then 0 else 1)%Z ∧
  (Sorted N.le (ParentIDs (inner built_vertex)) ∧
   ParentIDs (inner built_vertex) ≡ₚ [7; 2; 5]%N) ∧
  (Sorted N.le (toy_hash <$> Transitions (inner built_vertex)) ∧
   Transitions (inner built_vertex) ≡ₚ [[1; 2]; [3]]%N) ∧
  (Sorted N.le (Restrictions (inner built_vertex)) ∧
   Restrictions (inner built_vertex) ≡ₚ [8; 4]%N) ∧
  ((∀ x y, x ∈ [[1; 2]; [3]]%N → y ∈ [[1; 2]; [3]]%N → toy_hash x = toy_hash y → x = y) →
   toy_Build 9%N 3 1 (ParentIDs (inner built_vertex)) (Transitions (inner built_vertex))
     (Restrictions (inner built_vertex)) = (Some built_vertex, None)).
Proof.
  apply (Build_vertex_is_canonical N.le toy_hash toy_SortIDs toy_SortHashOf
           toy_SortIDs_sorted (λ l, merge_sort_Permutation N.le l)
           toy_SortHashOf_sorted (λ l, merge_sort_Permutation hash_le l)
           0 1 (λ _, None) toy_Marshal 9%N 3 1 [7; 2; 5]%N [[1; 2]; [3]]%N [8; 4]%N
           built_vertex None).
  by vm_compute.
Defined.

End VertexBuilder.

(** * vms/avm: [VM.GetUTXOs] and [VM.getPaginatedUTXOs] *)

Module AvmUTXOs.

(** Addresses ([ids.ShortID], 20 bytes) and UTXO ids ([ids.ID], 32 bytes)
    are compared bytewise; arrays of one length compared bytewise are in
    the order of the numbers they spell, so both are numbers here.
    [ids.ShortEmpty] and [ids.Empty] are the all-zero arrays. *)
Definition ShortEmpty : N := 0.
Definition Empty : N := 0.
Definition maxUTXOsToFetch : Z := 1024.

Inductive Error (E : Type) :=
  | errFunds (addr : N) (cause : E)
  | errUTXO (utxoID : N) (cause : E).
Arguments errFunds {E} _ _.
Arguments errUTXO {E} _ _.

Section GetUTXOs.

Context {E UTXO : Type}.

(** The two reads of [vm.state], which is not part of the sources:
    [vm.state.Funds(addr, start, limit)], the ids of UTXOs that reference
    [addr], and [vm.state.UTXO(utxoID)]. *)
Context (state_Funds : N → N → Z → E + list N).
Context (state_UTXO : N → E + UTXO).

(** The variables of [getPaginatedUTXOs] that its loops update. *)
Record Scan := mkScan {
  utxos : list UTXO;
  seen : gset N;
  limit : Z;
  lastAddr : N;
  lastIndex : N;
}.

(** What [GetUTXOs] returns besides the error. *)
Record Page := mkPage {
  page_utxos : list UTXO;
  page_lastAddr : N;
  page_lastIndex : N;
}.

(** [for _, utxoID := range utxoIDs]. The flag of the result says that the
    loop has returned from the function (the limit was reached). *)
Fixpoint scan_utxoIDs (addr : N) (utxoIDs : list N) (s : Scan) :
    Error E + Scan * bool :=
  match utxoIDs with
  | [] => inr (s, false)
  | utxoID :: rest =>
      if decide (utxoID ∈ seen s) then
        scan_utxoIDs addr rest
          {| utxos := utxos s; seen := seen s; limit := limit s;
             lastAddr := addr; lastIndex := utxoID |}
      else
        match state_UTXO utxoID with
        | inl err => inl (errUTXO utxoID err)
        | inr utxo =>
            let s' :=
              {| utxos := utxos s ++ [utxo]; seen := {[utxoID]} ∪ seen s;
                 limit := limit s - 1;
                 lastAddr := addr; lastIndex := utxoID |} in
            if (limit s' <=? 0)%Z then inr (s', true) else scan_utxoIDs addr rest s'
        end
  end.

(** [for _, addr := range addrsList] *)
Fixpoint scan_addrs (startAddr startUTXOID : N) (searchSize : Z)
    (addrsList : list N) (s : Scan) : Error E + Scan :=
  match addrsList with
  | [] => inr s
  | addr :: rest =>
      if (addr <? startAddr)%N then
        scan_addrs startAddr startUTXOID searchSize rest s
      else
        let start := if (addr =? startAddr)%N then startUTXOID else Empty in
        match state_Funds addr start searchSize with
        | inl err => inl (errFunds addr err)
        | inr utxoIDs =>
            match scan_utxoIDs addr utxoIDs s with
            | inl err => inl err
            | inr (s', true) => inr s'
            | inr (s', false) =>
                scan_addrs startAddr startUTXOID searchSize rest s'
            end
        end
  end.

(** [addrs.List()] followed by [ids.SortShortIDs]: the members of the set
    in ascending order. *)
Definition sorted_addrs (addrs : gset N) : list N := merge_sort N.le (elements addrs).

Definition getPaginatedUTXOs (addrs : gset N) (startAddr startUTXOID : N) (limit : Z) :
    Error E + Page :=
  let s0 := {| utxos := []; seen := ∅; limit := limit;
               lastAddr := ShortEmpty; lastIndex := Empty |} in
  match scan_addrs startAddr startUTXOID limit (sorted_addrs addrs) s0 with
  | inl err => inl err
  | inr s =>
      inr {| page_utxos := utxos s; page_lastAddr := lastAddr s;
             page_lastIndex := lastIndex s |}
  end.

(** [getAllUTXOs], the mode without pages, is left a parameter. *)
Context (getAllUTXOs : gset N → Error E + Page).

Definition GetUTXOs (addrs : gset N) (startAddr startUTXOID : N) (limit : Z)
    (paginate : bool) : Error E + Page :=
  let limit :=
    if ((limit <=? 0) || (maxUTXOsToFetch <? limit))%Z then maxUTXOsToFetch else limit in
  if paginate then getPaginatedUTXOs addrs startAddr startUTXOID limit
  else getAllUTXOs addrs.

(** Calling [GetUTXOs] in paginated mode again and again, each time from
    the cursor the last call returned, until a call returns no UTXO. The
    result is all the UTXOs returned, page after page; [None] if a call
    fails or [fuel] calls were not enough. *)
Fixpoint fetch_all (fuel : nat) (addrs : gset N) (startAddr startUTXOID : N) (limit : Z) :
    option (list UTXO) :=
  match fuel with
  | O => None
  | S fuel' =>
      match GetUTXOs addrs startAddr startUTXOID limit true with
      | inl _ => None
      | inr page =>
          match page_utxos page with
          | [] => Some []
          | _ :: _ =>
              (page_utxos page ++.) <$>
                fetch_all fuel' addrs (page_lastAddr page) (page_lastIndex page) limit
          end
      end
  end.

End GetUTXOs.

(** ** A store given by its funds index *)

(** Modelled from the spec: [vm.state.Funds] (vms/components/avax is not
    among the sources). The funds index lists, for every address, the ids
    of the UTXOs that reference it, in ascending order (the persisted
    layout keys the index by address and UTXO id);
    [Funds(addr, start, limit)] returns the first [limit] of them that are
    greater than [start], as the comment of [GetUTXOs] says. *)
Definition index_Funds (index : N → list N) (addr start : N) (limit : Z) : unit + list N :=
  inr (take (Z.to_nat limit) (filter (λ utxoID, (start < utxoID)%N) (index addr))).

(** Modelled from the spec: [vm.state.UTXO], with a UTXO identified with
    its id. *)
Definition index_UTXO (utxoID : N) : unit + N := inr utxoID.

Definition index_GetUTXOs (index : N → list N) :=
  GetUTXOs (index_Funds index) index_UTXO (λ _, inr (mkPage [] ShortEmpty Empty)).

Definition index_fetch_all (index : N → list N) :=
  fetch_all (index_Funds index) index_UTXO (λ _, inr (mkPage [] ShortEmpty Empty)).

(** Two addresses that both reference UTXO 10; address 2 also references
    UTXO 11. *)
Definition shared_index (addr : N) : list N :=
  if (addr =? 1)%N then [10%N] else if (addr =? 2)%N then [10%N; 11%N] else [].

(** ** The order of the cursor *)

Definition lex_lt (c e : N * N) : Prop :=
  (c.1 < e.1)%N ∨ (c.1 = e.1 ∧ (c.2 < e.2)%N).

#[local] Instance lex_lt_dec c e : Decision (lex_lt c e).
Proof. unfold lex_lt. apply _. Defined.

Lemma lex_lt_trans c1 c2 c3 : lex_lt c1 c2 → lex_lt c2 c3 → lex_lt c1 c3.
Proof. unfold lex_lt. lia. Qed.

Lemma lex_lt_asym c1 c2 : lex_lt c1 c2 → ¬ lex_lt c2 c1.
Proof. unfold lex_lt. lia. Qed.

Lemma filter_Forall_id {A} (P : A → Prop) `{∀ x, Decision (P x)} (l : list A) :
  Forall P l → filter P l = l.
Proof.
  induction 1 as [|x l Hx _ IH]; [done|]. by rewrite filter_cons_True, IH.
Qed.

Lemma filter_after_last E :
  StronglySorted lex_lt E →
  ∀ c P S c', filter (lex_lt c) E = P ++ S → last P = Some c' →
  filter (lex_lt c') E = S.
Proof.
  induction 1 as [|e E HE IH He]; intros c P S c' Hsplit Hlast.
  - rewrite filter_nil in Hsplit. symmetry in Hsplit.
    apply app_eq_nil in Hsplit as [-> _]. done.
  - assert (∀ x, x ∈ P → x ∈ filter (lex_lt c) (e :: E)) as HP.
    { intros x Hx. rewrite Hsplit. apply elem_of_app. by left. }
    rewrite Forall_forall in He.
    destruct (decide (lex_lt c e)) as [Hce|Hce].
    + rewrite filter_cons_True in Hsplit, HP by done.
      destruct P as [|p P]; [done|]. injection Hsplit as <- Hsplit.
      destruct P as [|p' P].
      * injection Hlast as <-.
        rewrite filter_cons_False by (intros Hee; by apply (lex_lt_asym _ _ Hee)).
        cbn in Hsplit. subst S.
        rewrite !filter_Forall_id; [done| |]; apply Forall_forall; intros x Hx.
        -- eapply lex_lt_trans; [done|]. by apply He.
        -- by apply He.
      * rewrite last_cons_cons in Hlast.
        assert (c' ∈ filter (lex_lt c) E) as Hc'.
        { rewrite Hsplit. apply elem_of_app. left. by apply last_Some_elem_of. }
        apply list_elem_of_filter in Hc' as [_ Hc'].
        rewrite filter_cons_False; [by eapply IH|].
        by apply lex_lt_asym, He.
    + rewrite filter_cons_False in Hsplit, HP by done.
      rewrite filter_cons_False; [by eapply IH|].
      apply lex_lt_asym, He.
      assert (c' ∈ filter (lex_lt c) E) as Hc' by (by apply HP, last_Some_elem_of).
      by apply list_elem_of_filter in Hc' as [_ ?].
Qed.

(** ** What the iteration over the pages returns

    The store is read through [Funds] and [UTXO] only. Their contract, in
    terms of the funds index [index] (for an address, the ids of the UTXOs
    that reference it): [Funds(addr, start, n)] returns the first [n] ids
    of [addr] that are greater than [start], in ascending order; [UTXO]
    finds every indexed id; no UTXO has the all-zero id [ids.Empty]. *)

Section contract.

Context {E UTXO : Type}.
Context (state_Funds : N → N → Z → E + list N).
Context (state_UTXO : N → E + UTXO).
Context (getAllUTXOs : gset N → Error E + Page (UTXO := UTXO)).
Context (index : N → list N) (utxo_of : N → UTXO).

Hypothesis Funds_spec : ∀ addr start n, (0 < n)%Z →
  state_Funds addr start n =
  inr (take (Z.to_nat n) (filter (λ utxoID, (start < utxoID)%N) (index addr))).
Hypothesis UTXO_spec : ∀ addr u, u ∈ index addr → state_UTXO u = inr (utxo_of u).
Hypothesis index_sorted : ∀ addr, StronglySorted N.lt (index addr).
Hypothesis index_nonzero : ∀ addr u, u ∈ index addr → (0 < u)%N.

(** The loop invariant of [getPaginatedUTXOs]: [got] lists the ids of the
    UTXOs found so far, [L] is the limit the call started with. *)
Definition Inv (L : Z) (s : Scan (UTXO := UTXO)) (got : list N) : Prop :=
  utxos s = utxo_of <$> got ∧ seen s = list_to_set got ∧ NoDup got ∧
  limit s = (L - Z.of_nat (length got))%Z.

Lemma Inv_touch L s got addr utxoID :
  Inv L s got →
  Inv L {| utxos := utxos s; seen := seen s; limit := limit s;
           lastAddr := addr; lastIndex := utxoID |} got.
Proof. by intros (? & ? & ? & ?). Qed.

Lemma Inv_found L s got addr utxoID :
  Inv L s got → utxoID ∉ seen s →
  Inv L {| utxos := utxos s ++ [utxo_of utxoID]; seen := {[utxoID]} ∪ seen s;
           limit := limit s - 1; lastAddr := addr; lastIndex := utxoID |}
    (got ++ [utxoID]).
Proof.
  intros (Hu & Hs & Hnd & Hl) Hnew. repeat split; cbn.
  - by rewrite Hu, fmap_app.
  - rewrite Hs, list_to_set_app_L. cbn. set_solver.
  - apply NoDup_app. split; [done|]. split; [|apply NoDup_singleton].
    intros x Hx ->%list_elem_of_singleton. apply Hnew. rewrite Hs. by apply elem_of_list_to_set.
  - rewrite Hl, length_app. cbn. lia.
Qed.

Lemma scan_utxoIDs_spec addr L ids :
  ∀ s got,
  Inv L s got → (0 < limit s)%Z →
  (∀ u, u ∈ ids → state_UTXO u = inr (utxo_of u)) →
  ∃ s' d P S got',
    scan_utxoIDs state_UTXO addr ids s = inr (s', d) ∧ ids = P ++ S ∧ Inv L s' got' ∧
    list_to_set got' =@{gset N} list_to_set got ∪ list_to_set P ∧
    (P = [] → s' = s) ∧
    (P ≠ [] → lastAddr s' = addr ∧ last P = Some (lastIndex s')) ∧
    (if d : bool then (limit s' ≤ 0)%Z ∧ P ≠ [] else S = [] ∧ (0 < limit s')%Z).
Proof.
  induction ids as [|u rest IH]; intros s got HI Hlim Hut; cbn [scan_utxoIDs].
  - exists s, false, [], [], got.
    split; [done|]. split; [done|]. split; [done|]. split; [|done].
    cbn. by rewrite (right_id_L ∅ (∪)).
  - destruct (decide (u ∈ seen s)) as [Hseen|Hnew].
    + destruct (IH _ got (Inv_touch L s got addr u HI) Hlim) as
        (s' & d & P & S & got' & Hrun & Hsplit & HI' & Hset & Hnil & Hlast & Hd).
      { intros u' Hu'. apply Hut. by right. }
      exists s', d, (u :: P), S, got'. rewrite Hrun, Hsplit.
      split; [done|]. split; [done|]. split; [done|]. split; [|split; [done|split]].
      * rewrite Hset. cbn. destruct HI as (_ & Hs & _). rewrite Hs in Hseen.
        apply elem_of_list_to_set in Hseen. set_solver.
      * intros _. destruct P as [|p P].
        -- rewrite Hnil by done. done.
        -- destruct Hlast as [Ha Hl]; [done|]. split; [done|]. by rewrite last_cons, Hl.
      * destruct d; [|done]. by destruct Hd.
    + rewrite (Hut u) by left.
      pose proof (Inv_found L s got addr u HI Hnew) as HI1.
      cbn [limit]. destruct (Z.leb_spec (limit s - 1) 0) as [Hle|Hgt].
      * eexists _, true, [u], rest, (got ++ [u]).
        split; [done|]. split; [done|]. split; [done|]. split; [|split; [done|split]].
        -- rewrite list_to_set_app_L. done.
        -- done.
        -- done.
      * destruct (IH _ _ HI1 Hgt) as
          (s' & d & P & S & got' & Hrun & Hsplit & HI' & Hset & Hnil & Hlast & Hd).
        { intros u' Hu'. apply Hut. by right. }
        exists s', d, (u :: P), S, got'. rewrite Hrun, Hsplit.
        split; [done|]. split; [done|]. split; [done|]. split; [|split; [done|split]].
        -- rewrite Hset, list_to_set_app_L. cbn. set_solver.
        -- intros _. destruct P as [|p P].
           ++ rewrite Hnil by done. done.
           ++ destruct Hlast as [Ha Hl]; [done|]. split; [done|]. by rewrite last_cons, Hl.
        -- destruct d; [|done]. by destruct Hd.
Qed.


(** The ids of [addr] that a call with the cursor [(startAddr, startUTXOID)]
    has still to look at. *)
Definition remaining (startAddr startUTXOID addr : N) : list N :=
  if (addr <? startAddr)%N then []
  else filter (λ utxoID, ((if (addr =? startAddr)%N then startUTXOID else Empty) < utxoID)%N)
         (index addr).

Definition entries_after (startAddr startUTXOID : N) (addrsList : list N) : list (N * N) :=
  addrsList ≫= λ addr, (addr,.) <$> remaining startAddr startUTXOID addr.

Lemma StronglySorted_lt_NoDup (l : list N) : StronglySorted N.lt l → NoDup l.
Proof.
  induction 1 as [|x l _ IH Hx]; constructor; [|done].
  intros Hin. rewrite Forall_forall in Hx. specialize (Hx x Hin). lia.
Qed.

Lemma last_fmap_pair (a : N) (l : list N) : last ((a,.) <$> l) = (a,.) <$> last l.
Proof. apply fmap_last. Qed.

Lemma scan_addrs_spec sa su L addrsList :
  (0 < L)%Z →
  ∀ s got,
  Inv L s got → (0 < limit s)%Z →
  ∃ s' P S got',
    scan_addrs state_Funds state_UTXO sa su L addrsList s = inr s' ∧
    entries_after sa su addrsList = P ++ S ∧ Inv L s' got' ∧
    list_to_set got' =@{gset N} list_to_set got ∪ list_to_set P.*2 ∧
    (P = [] → s' = s) ∧
    (P ≠ [] → last P = Some (lastAddr s', lastIndex s')) ∧
    (S ≠ [] → P ≠ [] ∧ (limit s' ≤ 0)%Z).
Proof.
  intros HL. induction addrsList as [|a rest IH]; intros s got HI Hlim.
  - exists s, [], [], got. cbn.
    split; [done|]. split; [done|]. split; [done|]. split; [|done].
    by rewrite (right_id_L ∅ (∪)).
  - cbn [scan_addrs]. unfold entries_after. rewrite bind_cons.
    fold (entries_after sa su rest). unfold remaining at 1.
    destruct (a <? sa)%N eqn:Hlt.
    { rewrite fmap_nil, app_nil_l. by apply IH. }
    set (start := if (a =? sa)%N then su else Empty).
    set (l := filter (λ utxoID, (start < utxoID)%N) (index a)).
    assert (NoDup l) as Hl.
    { apply NoDup_filter, StronglySorted_lt_NoDup, index_sorted. }
    rewrite (Funds_spec a start L HL). fold l.
    set (n := Z.to_nat L).
    destruct (scan_utxoIDs_spec a L (take n l) s got HI Hlim) as
      (s1 & d & P1 & S1 & got1 & Hrun & Hsplit & HI1 & Hset1 & Hnil1 & Hlast1 & Hd).
    { intros u Hu. apply (UTXO_spec a).
      apply elem_of_take in Hu as (i & Hu & _). apply list_elem_of_lookup_2 in Hu.
      by apply list_elem_of_filter in Hu as [_ ?]. }
    rewrite Hrun. destruct d.
    + destruct Hd as [Hle HP1].
      exists s1, ((a,.) <$> P1), (((a,.) <$> (S1 ++ drop n l)) ++ entries_after sa su rest), got1.
      split; [done|]. split; [|split; [done|split; [|split; [|split]]]].
      * rewrite app_assoc, <- fmap_app, app_assoc, <- Hsplit. by rewrite take_drop.
      * rewrite <- list_fmap_compose. cbn. by rewrite list_fmap_id.
      * by intros ?%fmap_nil_inv.
      * intros _. destruct (Hlast1 HP1) as [<- Hl1]. by rewrite last_fmap_pair, Hl1.
      * intros _. split; [|done]. by intros ?%fmap_nil_inv.
    + destruct Hd as [-> Hpos]. rewrite app_nil_r in Hsplit. subst P1.
      assert (take n l = l) as Htake.
      { apply take_ge.
        assert (length (take n l) ≤ length got1) as Hlen.
        { apply submseteq_length, NoDup_submseteq;
            [apply (sublist_NoDup _ l); [done|apply sublist_take]|].
          intros x Hx. apply (elem_of_list_to_set (C := gset N)). rewrite Hset1.
          apply elem_of_union_r. by apply elem_of_list_to_set. }
        destruct HI1 as (_ & _ & _ & Hlim1). rewrite length_take in Hlen. lia. }
      rewrite Htake in *.
      destruct (IH s1 got1 HI1 Hpos) as
        (s' & P2 & S2 & got' & Hrun2 & Hsplit2 & HI' & Hset2 & Hnil2 & Hlast2 & HS2).
      exists s', (((a,.) <$> l) ++ P2), S2, got'.
      split; [done|]. split; [|split; [done|split; [|split; [|split]]]].
      * by rewrite <- app_assoc, <- Hsplit2.
      * rewrite Hset2, Hset1, fmap_app, list_to_set_app_L, <- list_fmap_compose. cbn.
        rewrite list_fmap_id. set_solver.
      * intros [Hl0 HP2]%app_eq_nil. apply fmap_nil_inv in Hl0.
        rewrite (Hnil2 HP2). by apply Hnil1.
      * intros Hne. destruct P2 as [|p P2].
        -- rewrite app_nil_r in *. rewrite (Hnil2 eq_refl).
           assert (l ≠ []) as Hl0 by (by intros ->).
           destruct (Hlast1 Hl0) as [<- Hl1]. by rewrite last_fmap_pair, Hl1.
        -- rewrite last_app. by rewrite Hlast2.
      * intros HS. destruct (HS2 HS) as [HP2 Hle]. split; [|done].
        intros [_ ?]%app_eq_nil. done.
Qed.


Lemma getPaginatedUTXOs_spec addrs sa su L :
  (0 < L)%Z →
  ∃ P S got lastA lastI,
    getPaginatedUTXOs state_Funds state_UTXO addrs sa su L =
      inr (mkPage (utxo_of <$> got) lastA lastI) ∧
    entries_after sa su (sorted_addrs addrs) = P ++ S ∧
    NoDup got ∧ list_to_set got =@{gset N} list_to_set P.*2 ∧
    (P = [] → S = [] ∧ got = []) ∧
    (P ≠ [] → got ≠ [] ∧ last P = Some (lastA, lastI)).
Proof.
  intros HL. unfold getPaginatedUTXOs.
  set (s0 := {| utxos := []; seen := ∅; limit := L;
                lastAddr := ShortEmpty; lastIndex := Empty |}).
  assert (Inv L s0 []) as HI0.
  { repeat split; cbn; [constructor|lia]. }
  destruct (scan_addrs_spec sa su L (sorted_addrs addrs) HL s0 [] HI0 HL) as
    (s' & P & S & got & Hrun & Hsplit & (Hu & _ & Hnd & _) & Hset & Hnil & Hlast & HS).
  rewrite Hrun, Hu. exists P, S, got, (lastAddr s'), (lastIndex s').
  cbn in Hset. rewrite (left_id_L ∅ (∪)) in Hset.
  split; [done|]. split; [done|]. split; [done|]. split; [done|]. split.
  - intros HP. split.
    + destruct S as [|e S]; [done|]. by destruct HS.
    + rewrite (Hnil HP) in Hu. cbn in Hu. symmetry in Hu. by apply fmap_nil_inv in Hu.
  - intros HP. split; [|by apply Hlast].
    intros ->. cbn in Hset. destruct P as [|[a u] P]; [done|]. cbn in Hset. set_solver.
Qed.

(** All the pairs (address, UTXO id) of the funds index under the given
    addresses. *)
Definition entries (addrsList : list N) : list (N * N) :=
  addrsList ≫= λ addr, (addr,.) <$> index addr.

Lemma elem_of_entries addrsList a u :
  (a, u) ∈ entries addrsList ↔ a ∈ addrsList ∧ u ∈ index a.
Proof.
  unfold entries. rewrite list_elem_of_bind. split.
  - intros (a' & Hin & Ha'). apply list_elem_of_fmap in Hin as (u' & Heq & Hu').
    injection Heq as -> ->. done.
  - intros [Ha Hu]. exists a. split; [|done]. apply list_elem_of_fmap. by exists u.
Qed.

Lemma filter_lex_lt_addr sa su a l :
  (∀ u, u ∈ l → (0 < u)%N) →
  filter (lex_lt (sa, su)) ((a,.) <$> l) =
  (a,.) <$> (if (a <? sa)%N then []
             else filter (λ utxoID, ((if (a =? sa)%N then su else Empty) < utxoID)%N) l).
Proof.
  induction l as [|u l IH]; intros Hpos.
  - by destruct (a <? sa)%N.
  - rewrite fmap_cons. specialize (IH (λ u' Hu', Hpos u' (list_elem_of_further _ _ _ Hu'))).
    specialize (Hpos u (list_elem_of_here _ _)). unfold Empty in *.
    destruct (N.ltb_spec a sa) as [Hlt|Hge].
    + rewrite filter_cons_False; [done|]. unfold lex_lt. cbn. lia.
    + destruct (N.eqb_spec a sa) as [->|Hne].
      * destruct (decide (su < u)%N) as [Hu|Hu].
        -- rewrite !filter_cons_True; [|done|unfold lex_lt; cbn; lia].
           by rewrite IH, fmap_cons.
        -- rewrite !filter_cons_False; [done|done|unfold lex_lt; cbn; lia].
      * rewrite !filter_cons_True; [|done|unfold lex_lt; cbn; lia].
        by rewrite IH, fmap_cons.
Qed.

Lemma entries_after_filter sa su addrsList :
  entries_after sa su addrsList = filter (lex_lt (sa, su)) (entries addrsList).
Proof.
  unfold entries_after, entries. induction addrsList as [|a rest IH]; [done|].
  rewrite !bind_cons, filter_app, IH. f_equal.
  rewrite filter_lex_lt_addr by apply index_nonzero. done.
Qed.

Lemma entries_after_start addrsList :
  entries_after ShortEmpty Empty addrsList = entries addrsList.
Proof.
  rewrite entries_after_filter. apply filter_Forall_id, Forall_forall.
  intros [a u] [_ Hu%index_nonzero]%elem_of_entries.
  unfold lex_lt, ShortEmpty, Empty. cbn. lia.
Qed.

Lemma entries_sorted addrsList :
  StronglySorted N.lt addrsList → StronglySorted lex_lt (entries addrsList).
Proof.
  unfold entries. induction 1 as [|a rest Hrest IH Ha]; [constructor|].
  rewrite bind_cons. apply StronglySorted_app_2; [|clear IH|exact IH].
  - intros [a1 u1] [a2 u2] (u & Heq & _)%list_elem_of_fmap H2.
    injection Heq as -> ->.
    apply (elem_of_entries rest) in H2 as [H2 _].
    rewrite Forall_forall in Ha. left. by apply Ha.
  - apply (StronglySorted_fmap _ N.lt lex_lt); [|apply index_sorted].
    intros u1 u2 Hu. right. done.
Qed.

Lemma sorted_addrs_elem_of addrs a : a ∈ sorted_addrs addrs ↔ a ∈ addrs.
Proof. unfold sorted_addrs. by rewrite merge_sort_Permutation, elem_of_elements. Qed.

Lemma sorted_addrs_sorted addrs : StronglySorted N.lt (sorted_addrs addrs).
Proof.
  unfold sorted_addrs.
  assert (NoDup (merge_sort N.le (elements addrs))) as Hnd.
  { rewrite merge_sort_Permutation. apply NoDup_elements. }
  assert (StronglySorted N.le (merge_sort N.le (elements addrs))) as Hs.
  { apply StronglySorted_merge_sort; apply _. }
  induction Hs as [|a l _ IH Ha]; [constructor|].
  apply NoDup_cons in Hnd as [Hnotin Hnd]. constructor; [by apply IH|].
  rewrite Forall_forall in *. intros x Hx. specialize (Ha x Hx).
  assert (a ≠ x) by (by intros ->). lia.
Qed.

(** The limit [GetUTXOs] passes on. *)
Definition clamp (limit : Z) : Z :=
  if ((limit <=? 0) || (maxUTXOsToFetch <? limit))%Z then maxUTXOsToFetch else limit.

Lemma clamp_pos limit : (0 < clamp limit)%Z.
Proof.
  unfold clamp, maxUTXOsToFetch.
  destruct (Z.leb_spec limit 0), (Z.ltb_spec 1024 limit); cbn; lia.
Qed.

Lemma fetch_all_from addrs limit fuel :
  ∀ sa su,
  length (entries_after sa su (sorted_addrs addrs)) < fuel →
  ∃ ids,
    fetch_all state_Funds state_UTXO getAllUTXOs fuel addrs sa su limit =
      Some (utxo_of <$> ids) ∧
    list_to_set ids =@{gset N}
      list_to_set (entries_after sa su (sorted_addrs addrs)).*2 ∧
    (NoDup (entries_after sa su (sorted_addrs addrs)).*2 → NoDup ids).
Proof.
  induction fuel as [|fuel IH]; intros sa su Hfuel; [lia|].
  cbn [fetch_all]. unfold GetUTXOs. fold (clamp limit).
  destruct (getPaginatedUTXOs_spec addrs sa su (clamp limit) (clamp_pos limit))
    as (P & S & got & lastA & lastI & Hpage & Hsplit & Hnd & Hset & Hnil & Hlast).
  rewrite Hpage. cbn [page_utxos page_lastAddr page_lastIndex]. clear Hpage.
  destruct (decide (P = [])) as [HP|HP].
  - destruct (Hnil HP) as [-> ->]. subst P. exists []. rewrite Hsplit. cbn.
    split; [done|]. split; [done|]. intros _. constructor.
  - destruct (Hlast HP) as [Hgot Hcur].
    assert (∃ x xs, utxo_of <$> got = x :: xs) as (x & xs & Hx).
    { destruct got as [|g got']; [done|]. by eexists _, _. }
    rewrite Hx. cbn [fmap]. rewrite <- Hx. clear x xs Hx.
    assert (entries_after lastA lastI (sorted_addrs addrs) = S) as Hnext.
    { rewrite entries_after_filter. rewrite entries_after_filter in Hsplit.
      eapply filter_after_last; [|done..]. apply entries_sorted, sorted_addrs_sorted. }
    assert (0 < length P) by (destruct P; [done|cbn; lia]).
    destruct (IH lastA lastI) as (ids & Hrec & Hids & Hnd').
    { rewrite Hnext. rewrite Hsplit, length_app in Hfuel. lia. }
    rewrite Hrec. exists (got ++ ids). cbn. rewrite fmap_app.
    split; [done|]. rewrite Hsplit, Hnext in *. split.
    + rewrite fmap_app, !list_to_set_app_L, Hset, Hids. done.
    + rewrite fmap_app. intros (HndP & Hdisj & HndS)%NoDup_app.
      apply NoDup_app. split; [done|]. split; [|by apply Hnd'].
      intros x Hgx Hix. apply (Hdisj x).
      * apply (elem_of_list_to_set (C := gset N)). rewrite <- Hset.
        by apply elem_of_list_to_set.
      * apply (elem_of_list_to_set (C := gset N)). rewrite <- Hids.
        by apply elem_of_list_to_set.
Qed.


Lemma entries_snd_NoDup addrsList :
  NoDup addrsList →
  (∀ a1 a2 u, a1 ∈ addrsList → a2 ∈ addrsList →
              u ∈ index a1 → u ∈ index a2 → a1 = a2) →
  NoDup (entries addrsList).*2.
Proof.
  unfold entries. induction 1 as [|a rest Ha Hrest IH]; intros Hdisj; [constructor|].
  rewrite bind_cons, fmap_app, <- list_fmap_compose. cbn. rewrite list_fmap_id.
  apply NoDup_app. split; [apply StronglySorted_lt_NoDup, index_sorted|]. split.
  - intros u Hu Hu'. apply list_elem_of_fmap in Hu' as ([a' u'] & -> & Hin).
    apply (elem_of_entries rest) in Hin as [Ha' Hu'']. cbn in Hu.
    apply Ha. rewrite (Hdisj a a' u'); [done|left|by right|done..].
  - apply IH. intros a1 a2 u H1 H2. apply Hdisj; by right.
Qed.

(** C6, as the code has it. Fetching page after page from the cursor the
    last page returned, until a page is empty, ends and returns every UTXO
    that one of the queried addresses references and no other; none is
    skipped. If no UTXO is referenced by two of the queried addresses, no
    UTXO is returned twice. *)
Theorem fetch_all_visits_every_utxo addrs limit fuel :
  length (entries (sorted_addrs addrs)) < fuel →
  ∃ ids,
    fetch_all state_Funds state_UTXO getAllUTXOs fuel addrs ShortEmpty Empty limit =
      Some (utxo_of <$> ids) ∧
    (∀ u, u ∈ ids ↔ ∃ a, a ∈ addrs ∧ u ∈ index a) ∧
    ((∀ a1 a2 u, a1 ∈ addrs → a2 ∈ addrs → u ∈ index a1 → u ∈ index a2 → a1 = a2) →
     NoDup ids).
Proof.
  intros Hfuel.
  destruct (fetch_all_from addrs limit fuel ShortEmpty Empty) as (ids & Hrun & Hset & Hnd).
  { by rewrite entries_after_start. }
  rewrite entries_after_start in Hset, Hnd.
  exists ids. split; [done|]. split.
  - intros u. rewrite <- (elem_of_list_to_set (C := gset N)), Hset, elem_of_list_to_set.
    rewrite list_elem_of_fmap. split.
    + intros ([a u'] & -> & [Ha Hu]%elem_of_entries). exists a.
      by rewrite <- sorted_addrs_elem_of.
    + intros (a & Ha & Hu). exists (a, u). split; [done|].
      apply elem_of_entries. by rewrite sorted_addrs_elem_of.
  - intros Hdisj. apply Hnd, entries_snd_NoDup.
    + apply StronglySorted_lt_NoDup, sorted_addrs_sorted.
    + intros a1 a2 u H1%sorted_addrs_elem_of H2%sorted_addrs_elem_of. by apply Hdisj.
Qed.

End contract.


(** ** The iteration on the index with a shared UTXO *)

Lemma shared_index_sorted addr : StronglySorted N.lt (shared_index addr).
Proof.
  unfold shared_index. destruct (addr =? 1)%N, (addr =? 2)%N;
    repeat constructor; lia.
Qed.

Lemma shared_index_nonzero addr u : u ∈ shared_index addr → (0 < u)%N.
Proof.
  unfold shared_index. destruct (addr =? 1)%N, (addr =? 2)%N;
    intros Hu; apply list_elem_of_In in Hu; simpl in Hu; intuition lia.
Qed.

(** C6 fails as stated: with pages of one UTXO, UTXO 10, which the
    addresses 1 and 2 both reference, is returned on the first page and
    again on the second. *)
Lemma fetch_all_returns_shared_utxo_twice :
  index_fetch_all shared_index 4 {[1%N; 2%N]} ShortEmpty Empty 1 =
  Some [10%N; 10%N; 11%N].
Proof. by vm_compute. Qed.

Lemma fetch_all_visits_every_utxo_witness :
  ∃ ids,
    index_fetch_all shared_index 4 {[1%N; 2%N]} ShortEmpty Empty 1 = Some (id <$> ids) ∧
    (∀ u, u ∈ ids ↔ ∃ a, a ∈ ({[1%N; 2%N]} : gset N) ∧ u ∈ shared_index a) ∧
    ((∀ a1 a2 u, a1 ∈ ({[1%N; 2%N]} : gset N) → a2 ∈ ({[1%N; 2%N]} : gset N) →
                 u ∈ shared_index a1 → u ∈ shared_index a2 → a1 = a2) →
     NoDup ids).
Proof.
  apply (fetch_all_visits_every_utxo (index_Funds shared_index) index_UTXO
           (λ _, inr (mkPage [] ShortEmpty Empty)) shared_index id).
  - reflexivity.
  - reflexivity.
  - exact shared_index_sorted.
  - exact shared_index_nonzero.
  - vm_compute. lia.
Defined.

(** ** The size of a page *)

Section page_bound.

Context {E UTXO : Type}.
Context (state_Funds : N → N → Z → E + list N).
Context (state_UTXO : N → E + UTXO).
Context (getAllUTXOs : gset N → Error E + Page (UTXO := UTXO)).

Lemma scan_utxoIDs_bound addr utxoIDs :
  ∀ s s' d,
  scan_utxoIDs state_UTXO addr utxoIDs s = inr (s', d) → (0 < limit s)%Z →
  (0 ≤ limit s')%Z ∧
  (Z.of_nat (length (utxos s')) + limit s' = Z.of_nat (length (utxos s)) + limit s)%Z ∧
  (d = false → 0 < limit s')%Z.
Proof.
  induction utxoIDs as [|u rest IH]; intros s s' d Hrun Hlim; cbn [scan_utxoIDs] in Hrun.
  - injection Hrun as <- <-. lia.
  - destruct (decide (u ∈ seen s)).
    + apply IH in Hrun; [|done]. done.
    + destruct (state_UTXO u) as [|utxo]; [done|]. cbn [limit] in Hrun.
      destruct (Z.leb_spec (limit s - 1) 0).
      * injection Hrun as <- <-. cbn. rewrite length_app. cbn. split; [lia|].
        split; [lia|done].
      * apply IH in Hrun as (? & Hsum & ?); [|done]. cbn in Hsum.
        rewrite length_app in Hsum. cbn in Hsum. split; [done|]. split; [lia|done].
Qed.

Lemma scan_addrs_bound sa su L addrsList :
  ∀ s s',
  scan_addrs state_Funds state_UTXO sa su L addrsList s = inr s' → (0 < limit s)%Z →
  (0 ≤ limit s')%Z ∧
  (Z.of_nat (length (utxos s')) + limit s' = Z.of_nat (length (utxos s)) + limit s)%Z.
Proof.
  induction addrsList as [|a rest IH]; intros s s' Hrun Hlim; cbn [scan_addrs] in Hrun.
  - injection Hrun as <-. lia.
  - destruct (a <? sa)%N; [by apply IH|].
    destruct (state_Funds a _ L) as [|utxoIDs]; [done|].
    destruct (scan_utxoIDs state_UTXO a utxoIDs s) as [|[s1 d]] eqn:Hscan; [done|].
    apply scan_utxoIDs_bound in Hscan as (H0 & Hsum & Hd); [|done].
    destruct d.
    + injection Hrun as <-. done.
    + apply IH in Hrun; [|by apply Hd]. lia.
Qed.

(** X12. Whatever the store answers, a page of [GetUTXOs] holds at most
    as many UTXOs as the limit the call works with, which is the given
    limit when that is between 1 and 1024 and 1024 otherwise. *)
Theorem GetUTXOs_page_is_bounded addrs startAddr startUTXOID limit page :
  GetUTXOs state_Funds state_UTXO getAllUTXOs addrs startAddr startUTXOID limit true =
    inr page →
  (Z.of_nat (length (page_utxos page)) ≤ clamp limit)%Z ∧
  (clamp limit ≤ maxUTXOsToFetch)%Z ∧
  ((0 < limit ≤ maxUTXOsToFetch)%Z → length (page_utxos page) ≤ Z.to_nat limit).
Proof.
  unfold GetUTXOs. fold (clamp limit). cbv zeta. unfold getPaginatedUTXOs.
  destruct (scan_addrs _ _ _ _ _ _ _) as [|s'] eqn:Hrun; [done|].
  intros [= <-]. cbn [page_utxos].
  apply scan_addrs_bound in Hrun as [H0 Hsum]; [|apply clamp_pos].
  cbn in Hsum. split; [lia|].
  assert (clamp limit ≤ maxUTXOsToFetch)%Z as Hc.
  { unfold clamp, maxUTXOsToFetch.
    destruct (Z.leb_spec limit 0), (Z.ltb_spec 1024 limit); cbn; lia. }
  split; [done|]. intros Hl.
  assert (clamp limit = limit) as Heq.
  { unfold clamp, maxUTXOsToFetch in *.
    destruct (Z.leb_spec limit 0), (Z.ltb_spec 1024 limit); cbn; lia. }
  lia.
Qed.

End page_bound.

(** ** The mode without pages *)

Section AllUTXOs.

Context {E UTXO : Type}.
Context (state_Funds : N → N → Z → E + list N).
Context (state_UTXO : N → E + UTXO).

(** The slice [*utxos] and the set [*seen] that [getAllUTXOs] hands to
    [getAllUniqueAddressUTXOs] for one address after the other. *)
Record Found := mkFound {
  found_utxos : list UTXO;
  found_seen : gset N;
}.

(** [for _, utxoID := range utxoIDs] of [getAllUniqueAddressUTXOs]. *)
Fixpoint collect_unique (utxoIDs : list N) (lastIndex : N) (f : Found) :
    E + N * Found :=
  match utxoIDs with
  | [] => inr (lastIndex, f)
  | utxoID :: rest =>
      if decide (utxoID ∈ found_seen f) then collect_unique rest utxoID f
      else
        match state_UTXO utxoID with
        | inl err => inl err
        | inr utxo =>
            collect_unique rest utxoID
              {| found_utxos := found_utxos f ++ [utxo];
                 found_seen := {[utxoID]} ∪ found_seen f |}
        end
  end.

(** The unbounded [for] loop of [getAllUniqueAddressUTXOs]; [fuel] bounds
    the number of calls of [Funds], and [None] says it was not enough. *)
Fixpoint unique_loop (fuel : nat) (addr lastIndex : N) (f : Found) :
    option (E + N * Found) :=
  match fuel with
  | O => None
  | S fuel' =>
      match state_Funds addr lastIndex maxUTXOsToFetch with
      | inl err => Some (inl err)
      | inr utxoIDs =>
          if (length utxoIDs =? 0)%nat then Some (inr (lastIndex, f))
          else
            match collect_unique utxoIDs lastIndex f with
            | inl err => Some (inl err)
            | inr (lastIndex', f') => unique_loop fuel' addr lastIndex' f'
            end
      end
  end.

Definition getAllUniqueAddressUTXOs (fuel : nat) (addr : N) (f : Found) :
    option (E + N * Found) :=
  unique_loop fuel addr Empty f.

(** [for _, addr := range addrsList] of [getAllUTXOs]. *)
Fixpoint all_addrs (fuel : nat) (addrsList : list N) (lastAddr lastIndex : N) (f : Found) :
    option (Error E + Page (UTXO := UTXO)) :=
  match addrsList with
  | [] =>
      Some (inr {| page_utxos := found_utxos f; page_lastAddr := lastAddr;
                   page_lastIndex := lastIndex |})
  | addr :: rest =>
      match getAllUniqueAddressUTXOs fuel addr f with
      | None => None
      | Some (inl err) => Some (inl (errFunds addr err))
      | Some (inr (lastIndex', f')) =>
          let lastAddr' := if decide (lastIndex' ≠ Empty) then addr else lastAddr in
          all_addrs fuel rest lastAddr' lastIndex' f'
      end
  end.

Definition getAllUTXOs (fuel : nat) (addrs : gset N) : option (Error E + Page (UTXO := UTXO)) :=
  all_addrs fuel (sorted_addrs addrs) ShortEmpty Empty
    {| found_utxos := []; found_seen := ∅ |}.

End AllUTXOs.

Lemma filter_after_last_N (P S : list N) (c : N) :
  StronglySorted N.lt (P ++ S) → last P = Some c →
  filter (λ u, (c < u)%N) (P ++ S) = S.
Proof.
  intros Hs Hlast. rewrite filter_app.
  assert (c ∈ P) as Hc by (by apply last_Some_elem_of).
  assert (filter (λ u, (c < u)%N) S = S) as ->.
  { apply filter_Forall_id, Forall_forall. intros x Hx.
    by apply (StronglySorted_app_1_elem_of N.lt P S c x). }
  assert (filter (λ u, (c < u)%N) P = []) as ->; [|done].
  apply StronglySorted_app_1_l in Hs.
  apply last_Some in Hlast as [P' ->].
  rewrite filter_app, filter_cons_False by lia. rewrite filter_nil, app_nil_r.
  clear Hc. induction P' as [|x P' IHP]; [done|].
  rewrite filter_cons_False.
  - apply IHP. cbn in Hs. by apply StronglySorted_inv in Hs as [? _].
  - pose proof (StronglySorted_app_1_elem_of N.lt (x :: P') [c] x c Hs) as Hlt.
    specialize (Hlt ltac:(by left) ltac:(by left)). lia.
Qed.

Lemma StronglySorted_filter_N (P : N → Prop) `{∀ x, Decision (P x)} (l : list N) :
  StronglySorted N.lt l → StronglySorted N.lt (filter P l).
Proof.
  induction 1 as [|x l _ IH Hx]; [constructor|].
  destruct (decide (P x)).
  - rewrite filter_cons_True by done. constructor; [done|].
    rewrite Forall_forall in *. intros y [_ Hy]%list_elem_of_filter. by apply Hx.
  - by rewrite filter_cons_False.
Qed.

Section all_contract.

Context {E UTXO : Type}.
Context (state_Funds : N → N → Z → E + list N).
Context (state_UTXO : N → E + UTXO).
Context (getAllUTXOs_param : gset N → Error E + Page (UTXO := UTXO)).
Context (index : N → list N) (utxo_of : N → UTXO).

Hypothesis Funds_spec : ∀ addr start n, (0 < n)%Z →
  state_Funds addr start n =
  inr (take (Z.to_nat n) (filter (λ utxoID, (start < utxoID)%N) (index addr))).
Hypothesis UTXO_spec : ∀ addr u, u ∈ index addr → state_UTXO u = inr (utxo_of u).
Hypothesis index_sorted : ∀ addr, StronglySorted N.lt (index addr).
Hypothesis index_nonzero : ∀ addr u, u ∈ index addr → (0 < u)%N.

(** X13. A page that is not empty returns a cursor that is later than
    the cursor it was asked with, in the order of (address, UTXO id), and
    that points at a UTXO of one of the queried addresses: the iteration
    over the pages makes progress. *)
Theorem GetUTXOs_cursor_advances addrs startAddr startUTXOID limit page :
  GetUTXOs state_Funds state_UTXO getAllUTXOs_param addrs startAddr startUTXOID limit true =
    inr page →
  page_utxos page ≠ [] →
  lex_lt (startAddr, startUTXOID) (page_lastAddr page, page_lastIndex page) ∧
  page_lastAddr page ∈ addrs ∧ page_lastIndex page ∈ index (page_lastAddr page).
Proof.
  unfold GetUTXOs. fold (clamp limit). cbv zeta.
  destruct (getPaginatedUTXOs_spec state_Funds state_UTXO getAllUTXOs_param index utxo_of
              Funds_spec UTXO_spec
              index_sorted index_nonzero addrs startAddr startUTXOID (clamp limit)
              (clamp_pos limit))
    as (P & S & got & lastA & lastI & -> & Hsplit & _ & _ & Hnil & Hlast).
  intros [= <-] Hne. cbn [page_utxos page_lastAddr page_lastIndex] in *.
  destruct (decide (P = [])) as [HP|HP].
  { destruct (Hnil HP) as [_ ->]. done. }
  destruct (Hlast HP) as [_ Hl].
  assert ((lastA, lastI) ∈ entries_after index startAddr startUTXOID (sorted_addrs addrs))
    as Hin.
  { rewrite Hsplit. apply elem_of_app. left. by apply last_Some_elem_of. }
  rewrite (entries_after_filter index index_nonzero) in Hin.
  apply list_elem_of_filter in Hin as [Hlt Hin].
  apply elem_of_entries in Hin as [Ha Hu]. apply sorted_addrs_elem_of in Ha. done.
Qed.

(** What [*utxos] and [*seen] hold: the UTXOs of the ids [got], each once. *)
Definition FoundInv (f : Found (UTXO := UTXO)) (got : list N) : Prop :=
  found_utxos f = utxo_of <$> got ∧ found_seen f = list_to_set got ∧ NoDup got.

Lemma collect_unique_spec utxoIDs :
  ∀ lastIndex f got,
  FoundInv f got → (∀ u, u ∈ utxoIDs → state_UTXO u = inr (utxo_of u)) →
  ∃ f' got',
    collect_unique state_UTXO utxoIDs lastIndex f =
      inr (default lastIndex (last utxoIDs), f') ∧
    FoundInv f' got' ∧
    list_to_set got' =@{gset N} list_to_set got ∪ list_to_set utxoIDs.
Proof.
  induction utxoIDs as [|u rest IH]; intros lastIndex f got HI Hut; cbn [collect_unique].
  - exists f, got. split; [done|]. split; [done|]. cbn. set_solver.
  - assert (default lastIndex (last (u :: rest)) = default u (last rest)) as ->.
    { rewrite last_cons. by destruct (last rest). }
    destruct (decide (u ∈ found_seen f)) as [Hseen|Hnew].
    + destruct (IH u f got HI) as (f' & got' & -> & HI' & Hset).
      { intros u' Hu'. apply Hut. by right. }
      exists f', got'. split; [done|]. split; [done|].
      destruct HI as (_ & Hs & _). rewrite Hs in Hseen.
      apply elem_of_list_to_set in Hseen. rewrite Hset. cbn. set_solver.
    + rewrite (Hut u) by left.
      destruct (IH u {| found_utxos := found_utxos f ++ [utxo_of u];
                        found_seen := {[u]} ∪ found_seen f |} (got ++ [u]))
        as (f' & got' & -> & HI' & Hset).
      { destruct HI as (Hu & Hs & Hnd). repeat split; cbn.
        - by rewrite Hu, fmap_app.
        - rewrite Hs, list_to_set_app_L. cbn. set_solver.
        - apply NoDup_app. split; [done|]. split; [|apply NoDup_singleton].
          intros x Hx ->%list_elem_of_singleton. apply Hnew. rewrite Hs.
          by apply elem_of_list_to_set. }
      { intros u' Hu'. apply Hut. by right. }
      exists f', got'. split; [done|]. split; [done|].
      rewrite Hset, list_to_set_app_L. cbn. set_solver.
Qed.

Lemma unique_loop_spec addr fuel :
  ∀ lastIndex f got,
  length (filter (λ u, (lastIndex < u)%N) (index addr)) < fuel →
  FoundInv f got →
  ∃ lastIndex' f' got',
    unique_loop state_Funds state_UTXO fuel addr lastIndex f = Some (inr (lastIndex', f')) ∧
    FoundInv f' got' ∧
    list_to_set got' =@{gset N}
      list_to_set got ∪ list_to_set (filter (λ u, (lastIndex < u)%N) (index addr)) ∧
    (lastIndex' = Empty → lastIndex = Empty ∧ index addr = []).
Proof.
  induction fuel as [|fuel IH]; intros lastIndex f got Hfuel HI; [lia|].
  cbn [unique_loop].
  rewrite Funds_spec by done.
  set (R := filter (λ u, (lastIndex < u)%N) (index addr)) in *.
  set (n := Z.to_nat maxUTXOsToFetch).
  assert (0 < n) as Hn by (subst n; unfold maxUTXOsToFetch; lia).
  destruct (Nat.eqb_spec (length (take n R)) 0) as [Hz|Hnz].
  - assert (R = []) as HR.
    { destruct R; [done|]. rewrite length_take in Hz. cbn in Hz. lia. }
    exists lastIndex, f, got. rewrite HR. split; [done|]. split; [done|].
    split; [cbn; set_solver|].
    intros ->. split; [done|].
    subst R. destruct (index addr) as [|u l] eqn:Hidx; [done|].
    exfalso. apply (filter_nil_not_elem_of _ _ u HR); [|by left].
    apply (index_nonzero addr). rewrite Hidx. by left.
  - destruct (collect_unique_spec (take n R) lastIndex f got HI)
      as (f1 & got1 & -> & HI1 & Hset1).
    { intros u Hu. apply (UTXO_spec addr).
      apply elem_of_take in Hu as (i & Hu & _). apply list_elem_of_lookup_2 in Hu.
      by apply list_elem_of_filter in Hu as [_ ?]. }
    destruct (last (take n R)) as [c|] eqn:Hlast.
    2:{ apply last_None in Hlast. by rewrite Hlast in Hnz. }
    cbn [default from_option id].
    assert (c ∈ R) as HcR.
    { apply last_Some_elem_of in Hlast.
      apply elem_of_take in Hlast as (i & Hu & _). by apply list_elem_of_lookup_2 in Hu. }
    assert (lastIndex < c)%N as Hlc by (by apply list_elem_of_filter in HcR as [? _]).
    assert (filter (λ u, (c < u)%N) (index addr) = drop n R) as Hnext.
    { assert (filter (λ u, (c < u)%N) (index addr) = filter (λ u, (c < u)%N) R) as ->.
      { subst R. rewrite list_filter_filter. apply list_filter_iff. intros x. lia. }
      rewrite <- (take_drop n R) at 1. apply filter_after_last_N; [|done].
      rewrite take_drop. by apply StronglySorted_filter_N. }
    destruct (IH c f1 got1) as (lastI & f' & got' & -> & HI' & Hset & HE).
    { rewrite Hnext, length_drop. rewrite length_take in Hnz. lia. }
    { done. }
    exists lastI, f', got'. split; [done|]. split; [done|]. split.
    + rewrite Hset, Hset1, Hnext. rewrite <- (take_drop n R) at 3.
      rewrite list_to_set_app_L. set_solver.
    + intros HlastI. destruct (HE HlastI) as [-> _].
      unfold Empty in Hlc. lia.
Qed.

Lemma all_addrs_spec fuel addrsList :
  (∀ a, a ∈ addrsList → length (index a) < fuel) →
  ∀ lastAddr lastIndex f got,
  FoundInv f got →
  ∃ got' lastA lastI,
    all_addrs state_Funds state_UTXO fuel addrsList lastAddr lastIndex f =
      Some (inr (mkPage (utxo_of <$> got') lastA lastI)) ∧
    NoDup got' ∧
    list_to_set got' =@{gset N} list_to_set got ∪ list_to_set (entries index addrsList).*2.
Proof.
  intros Hfuel. induction addrsList as [|a rest IH]; intros lastAddr lastIndex f got HI.
  - exists got, lastAddr, lastIndex. cbn. destruct HI as (-> & _ & Hnd).
    split; [done|]. split; [done|]. set_solver.
  - cbn [all_addrs]. unfold getAllUniqueAddressUTXOs.
    assert (filter (λ u, (Empty < u)%N) (index a) = index a) as Hall.
    { apply filter_Forall_id, Forall_forall. intros u Hu. by apply (index_nonzero a). }
    destruct (unique_loop_spec a fuel Empty f got) as (lastI & f1 & got1 & -> & HI1 & Hset1 & _).
    { rewrite Hall. apply Hfuel. by left. }
    { done. }
    cbv zeta.
    destruct (IH (λ a' Ha', Hfuel a' (list_elem_of_further _ _ _ Ha'))
                (if decide (lastI ≠ Empty) then a else lastAddr) lastI f1 got1 HI1)
      as (got' & lastA & lastI' & -> & Hnd & Hset).
    exists got', lastA, lastI'. split; [done|]. split; [done|].
    rewrite Hset, Hset1, Hall. unfold entries. rewrite bind_cons, fmap_app.
    rewrite list_to_set_app_L, <- list_fmap_compose. cbn. rewrite list_fmap_id.
    set_solver.
Qed.

(** X14. Without pages, [getAllUTXOs] returns every UTXO that one of the
    queried addresses references, no other, and each of them once, also a
    UTXO that several of the addresses reference: the set of the ids seen
    is shared by the addresses. The loop over the calls of [Funds] ends as
    soon as [fuel] exceeds the number of UTXOs of every address. *)
Theorem getAllUTXOs_returns_each_utxo_once fuel addrs :
  (∀ a, a ∈ addrs → length (index a) < fuel) →
  ∃ ids lastA lastI,
    getAllUTXOs state_Funds state_UTXO fuel addrs =
      Some (inr (mkPage (utxo_of <$> ids) lastA lastI)) ∧
    (∀ u, u ∈ ids ↔ ∃ a, a ∈ addrs ∧ u ∈ index a) ∧
    NoDup ids.
Proof.
  intros Hfuel. unfold getAllUTXOs.
  destruct (all_addrs_spec fuel (sorted_addrs addrs)
              (λ a Ha, Hfuel a (proj1 (sorted_addrs_elem_of addrs a) Ha))
              ShortEmpty Empty {| found_utxos := []; found_seen := ∅ |} [])
    as (ids & lastA & lastI & -> & Hnd & Hset).
  { repeat split. constructor. }
  exists ids, lastA, lastI. split; [done|]. split; [|done].
  intros u. rewrite <- (elem_of_list_to_set (C := gset N)), Hset.
  cbn. rewrite (left_id_L ∅ (∪)), elem_of_list_to_set, list_elem_of_fmap. split.
  - intros ([a u'] & -> & [Ha Hu]%elem_of_entries). exists a.
    by rewrite <- sorted_addrs_elem_of.
  - intros (a & Ha & Hu). exists (a, u). split; [done|].
    apply elem_of_entries. by rewrite sorted_addrs_elem_of.
Qed.

End all_contract.

Lemma GetUTXOs_page_is_bounded_witness :
  (Z.of_nat (length (page_utxos (mkPage [10%N; 11%N] 2%N 11%N))) ≤ clamp 2)%Z ∧
  (clamp 2 ≤ maxUTXOsToFetch)%Z ∧
  ((0 < 2 ≤ maxUTXOsToFetch)%Z →
   length (page_utxos (mkPage [10%N; 11%N] 2%N 11%N)) ≤ Z.to_nat 2).
Proof.
  apply (GetUTXOs_page_is_bounded (index_Funds shared_index) index_UTXO
           (λ _, inr (mkPage [] ShortEmpty Empty)) {[1%N; 2%N]} ShortEmpty Empty 2).
  by vm_compute.
Defined.

Lemma GetUTXOs_cursor_advances_witness :
  lex_lt (1%N, 10%N) (2%N, 10%N) ∧
  2%N ∈ ({[1%N; 2%N]} : gset N) ∧ 10%N ∈ shared_index 2%N.
Proof.
  apply (GetUTXOs_cursor_advances (index_Funds shared_index) index_UTXO
           (λ _, inr (mkPage [] ShortEmpty Empty)) shared_index id
           ltac:(reflexivity) ltac:(reflexivity) shared_index_sorted shared_index_nonzero
           {[1%N; 2%N]} 1%N 10%N 1 (mkPage [10%N] 2%N 10%N)).
  - by vm_compute.
  - done.
Defined.

Lemma getAllUTXOs_returns_each_utxo_once_witness :
  ∃ ids lastA lastI,
    getAllUTXOs (index_Funds shared_index) index_UTXO 3 {[1%N; 2%N]} =
      Some (inr (mkPage (id <$> ids) lastA lastI)) ∧
    (∀ u, u ∈ ids ↔ ∃ a, a ∈ ({[1%N; 2%N]} : gset N) ∧ u ∈ shared_index a) ∧
    NoDup ids.
Proof.
  apply (getAllUTXOs_returns_each_utxo_once (index_Funds shared_index) index_UTXO
           shared_index id).
  - reflexivity.
  - reflexivity.
  - exact shared_index_sorted.
  - exact shared_index_nonzero.
  - intros a _. unfold shared_index. destruct (a =? 1)%N, (a =? 2)%N; cbn; lia.
Defined.

(** On the index with the shared UTXO, the mode without pages returns
    UTXO 10 once, where the iteration over pages of one returns it twice. *)
Example getAllUTXOs_shared_index :
  getAllUTXOs (index_Funds shared_index) index_UTXO 3 {[1%N; 2%N]} =
    Some (inr (mkPage [10%N; 11%N] 2%N 11%N)).
Proof. by vm_compute. Qed.

End AvmUTXOs.

(** * The spending helpers of the avm (unnamed/part_001) *)

Module AvmSpend.

Definition MaxUint64 : Z := 18446744073709551615.

Inductive SpendError :=
  | errSpendOverflow
  (** [fmt.Errorf("want to spend %d of asset %s but only have %d", ...)];
      which asset it names depends on the order of the map iteration *)
  | errInsufficientAmount
  | errInsufficientFunds
  | errAddressesCantMintAsset
  (** the two [fmt.Errorf] errors of [spendManagedAsset] *)
  | errNoManagerKeys
  | errNotSecpInput.

Section Spend.

Context {AssetID UTXOID Output Input Signers : Type}.
Context `{Countable AssetID}.

(** [avax.UTXO] *)
Record UTXO := mkUTXO {
  utxo_UTXOID : UTXOID;
  utxo_AssetID : AssetID;
  utxo_Out : Output;
}.

Abbreviation TransferableInput :=
  (AvmVerify.TransferableInput (AssetID := AssetID) (UTXOID := UTXOID) (In := Input)).
Abbreviation in_UTXOID := (AvmVerify.in_UTXOID (AssetID := AssetID) (UTXOID := UTXOID) (In := Input)).
Abbreviation in_AssetID := (AvmVerify.in_AssetID (AssetID := AssetID) (UTXOID := UTXOID) (In := Input)).
Abbreviation in_In := (AvmVerify.in_In (AssetID := AssetID) (UTXOID := UTXOID) (In := Input)).

(** What [Spend] calls, none of it part of the sources: [vm.clock.Unix()],
    [kc.Spend(out, time)] ([None] is an error), the type assertion of an
    input to [avax.TransferableIn] with its [Amount()] ([None]: the
    assertion fails), [safemath.Add64] ([None] is the overflow error) and
    [avax.SortTransferableInputsWithSigners]. *)
Context (time : Z).
Context (kc_Spend : Output → Z → option (Input * Signers)).
Context (in_Amount : Input → option Z).
Context (Add64 : Z → Z → option Z).
Context (SortTransferableInputsWithSigners :
           list TransferableInput → list Signers → list TransferableInput * list Signers).

(** Reading a Go map of amounts: a missing key reads as 0. *)
Definition amount_of (m : gmap AssetID Z) (assetID : AssetID) : Z := default 0%Z (m !! assetID).

(** The variables the first loop of [Spend] updates. *)
Record Spent := mkSpent {
  amountsSpent : gmap AssetID Z;
  ins : list TransferableInput;
  keys : list Signers;
}.

(** [for _, utxo := range utxos] *)
Fixpoint spend_loop (amounts : gmap AssetID Z) (utxos : list UTXO) (s : Spent) :
    SpendError + Spent :=
  match utxos with
  | [] => inr s
  | utxo :: rest =>
      let assetID := utxo_AssetID utxo in
      let amount := amount_of amounts assetID in
      let amountSpent := amount_of (amountsSpent s) assetID in
      if (amount <=? amountSpent)%Z then spend_loop amounts rest s
      else
        match kc_Spend (utxo_Out utxo) time with
        | None => spend_loop amounts rest s
        | Some (inputIntf, signers) =>
            match in_Amount inputIntf with
            | None => spend_loop amounts rest s
            | Some inputAmount =>
                match Add64 amountSpent inputAmount with
                | None => inl errSpendOverflow
                | Some newAmountSpent =>
                    spend_loop amounts rest
                      {| amountsSpent := <[assetID := newAmountSpent]> (amountsSpent s);
                         ins := ins s ++
                                [AvmVerify.mkTransferableInput (utxo_UTXOID utxo) assetID inputIntf];
                         keys := keys s ++ [signers] |}
                end
            end
        end
  end.

(** [Spend]: the amounts spent, the inputs and the keys, or an error. *)
Definition Spend (utxos : list UTXO) (amounts : gmap AssetID Z) :
    SpendError + gmap AssetID Z * list TransferableInput * list Signers :=
  match spend_loop amounts utxos {| amountsSpent := ∅; ins := []; keys := [] |} with
  | inl err => inl err
  | inr s =>
      if bool_decide
           (map_Forall (λ asset amount, (amount ≤ amount_of (amountsSpent s) asset)%Z) amounts)
      then
        let '(ins', keys') := SortTransferableInputsWithSigners (ins s) (keys s) in
        inr (amountsSpent s, ins', keys')
      else inl errInsufficientAmount
  end.

(** [SpendAll]: the loop of [Spend] without the test of the amount. *)
Fixpoint spend_all_loop (utxos : list UTXO) (s : Spent) : SpendError + Spent :=
  match utxos with
  | [] => inr s
  | utxo :: rest =>
      let assetID := utxo_AssetID utxo in
      let amountSpent := amount_of (amountsSpent s) assetID in
      match kc_Spend (utxo_Out utxo) time with
      | None => spend_all_loop rest s
      | Some (inputIntf, signers) =>
          match in_Amount inputIntf with
          | None => spend_all_loop rest s
          | Some inputAmount =>
              match Add64 amountSpent inputAmount with
              | None => inl errSpendOverflow
              | Some newAmountSpent =>
                  spend_all_loop rest
                    {| amountsSpent := <[assetID := newAmountSpent]> (amountsSpent s);
                       ins := ins s ++
                              [AvmVerify.mkTransferableInput (utxo_UTXOID utxo) assetID inputIntf];
                       keys := keys s ++ [signers] |}
              end
          end
      end
  end.

Definition SpendAll (utxos : list UTXO) :
    SpendError + gmap AssetID Z * list TransferableInput * list Signers :=
  match spend_all_loop utxos {| amountsSpent := ∅; ins := []; keys := [] |} with
  | inl err => inl err
  | inr s =>
      let '(ins', keys') := SortTransferableInputsWithSigners (ins s) (keys s) in
      inr (amountsSpent s, ins', keys')
  end.

(** The sum of the amounts of the inputs of an asset. *)
Definition input_total (assetID : AssetID) (l : list TransferableInput) : Z :=
  foldr (λ i acc,
           if decide (in_AssetID i = assetID)
           then (default 0 (in_Amount (in_In i)) + acc)%Z else acc) 0%Z l.

Lemma input_total_app assetID l1 l2 :
  input_total assetID (l1 ++ l2) = (input_total assetID l1 + input_total assetID l2)%Z.
Proof.
  unfold input_total. induction l1 as [|i l1 IH]; cbn [foldr app]; [lia|].
  rewrite IH. case_decide; lia.
Qed.

Lemma input_total_perm assetID l1 l2 :
  l1 ≡ₚ l2 → input_total assetID l1 = input_total assetID l2.
Proof.
  unfold input_total. induction 1 as [|i l1 l2 _ IH|i j l|l1 l2 l3 _ IH1 _ IH2];
    cbn [foldr]; [done| |repeat case_decide; lia|congruence].
  by rewrite IH.
Qed.

Lemma amount_of_insert (m : gmap AssetID Z) a b v :
  amount_of (<[a := v]> m) b = if decide (b = a) then v else amount_of m b.
Proof.
  unfold amount_of. case_decide as Hab.
  - subst. by rewrite lookup_insert_eq.
  - by rewrite lookup_insert_ne.
Qed.

(** The contract of the helpers: [safemath.Add64] adds or reports the
    overflow of a [uint64], an amount is a [uint64], and the sort returns
    the inputs rearranged. *)
Hypothesis Add64_spec : ∀ a b,
  Add64 a b = if (a + b <=? MaxUint64)%Z then Some (a + b)%Z else None.
Hypothesis in_Amount_nonneg : ∀ i a, in_Amount i = Some a → (0 ≤ a)%Z.
Hypothesis Sort_perm : ∀ l k, (SortTransferableInputsWithSigners l k).1 ≡ₚ l.

(** The invariant of the two loops. *)
Definition SpentInv (s : Spent) : Prop :=
  (∀ a, amount_of (amountsSpent s) a = input_total a (ins s)) ∧
  (∀ a, (0 ≤ amount_of (amountsSpent s) a ≤ MaxUint64)%Z).

(** Each asset with inputs has an input without which less than the
    amount asked for would be spent. *)
Definition Frugal (amounts : gmap AssetID Z) (s : Spent) : Prop :=
  (∀ i, i ∈ ins s → (0 < amount_of amounts (in_AssetID i))%Z) ∧
  (∀ a, amount_of (amountsSpent s) a ≠ 0%Z →
        ∃ i v, i ∈ ins s ∧ in_AssetID i = a ∧ in_Amount (in_In i) = Some v ∧
               (amount_of (amountsSpent s) a - v < amount_of amounts a)%Z).

Lemma SpentInv_empty : SpentInv {| amountsSpent := ∅; ins := []; keys := [] |}.
Proof. split; intros a; unfold amount_of; cbn; rewrite ?lookup_empty; cbn; unfold MaxUint64; lia. Qed.

Lemma SpentInv_add s utxo inputIntf signers inputAmount newAmountSpent :
  SpentInv s →
  in_Amount inputIntf = Some inputAmount →
  Add64 (amount_of (amountsSpent s) (utxo_AssetID utxo)) inputAmount = Some newAmountSpent →
  SpentInv {| amountsSpent := <[utxo_AssetID utxo := newAmountSpent]> (amountsSpent s);
              ins := ins s ++
                     [AvmVerify.mkTransferableInput (utxo_UTXOID utxo) (utxo_AssetID utxo)
                        inputIntf];
              keys := keys s ++ [signers] |} ∧
  newAmountSpent =
    (amount_of (amountsSpent s) (utxo_AssetID utxo) + inputAmount)%Z.
Proof.
  intros [Hsum Hrange] Hamt Hadd. rewrite Add64_spec in Hadd.
  destruct (Z.leb_spec (amount_of (amountsSpent s) (utxo_AssetID utxo) + inputAmount)
              MaxUint64) as [Hle|]; [|done].
  injection Hadd as <-. split; [|done].
  pose proof (in_Amount_nonneg _ _ Hamt) as Hpos.
  split; intros a; cbn [amountsSpent ins]; rewrite amount_of_insert.
  - rewrite input_total_app, <- Hsum. unfold input_total. cbn [foldr AvmVerify.in_AssetID
      AvmVerify.in_In]. rewrite Hamt. cbn [default from_option id].
    destruct (decide (a = utxo_AssetID utxo)) as [->|Hne].
    + rewrite decide_True by done. lia.
    + rewrite decide_False by done. lia.
  - case_decide; [|done]. specialize (Hrange (utxo_AssetID utxo)). lia.
Qed.

Lemma spend_loop_spec amounts utxos :
  ∀ s s',
  spend_loop amounts utxos s = inr s' →
  SpentInv s → Frugal amounts s →
  SpentInv s' ∧ Frugal amounts s' ∧
  ∃ new, ins s' = ins s ++ new ∧
         (in_UTXOID <$> new) `sublist_of` (utxo_UTXOID <$> utxos).
Proof.
  induction utxos as [|utxo rest IH]; intros s s' Hrun HI HF; cbn [spend_loop] in Hrun.
  - injection Hrun as <-. split; [done|]. split; [done|]. exists [].
    by rewrite app_nil_r.
  - cbv zeta in Hrun.
    assert (∀ s0, spend_loop amounts rest s0 = inr s' → s0 = s →
              SpentInv s' ∧ Frugal amounts s' ∧
              ∃ new, ins s' = ins s ++ new ∧
                     (in_UTXOID <$> new) `sublist_of` (utxo_UTXOID <$> utxo :: rest)) as Hskip.
    { intros s0 Hrun0 ->. destruct (IH s s' Hrun0 HI HF) as (? & ? & new & ? & ?).
      split; [done|]. split; [done|]. exists new. split; [done|]. by apply sublist_cons. }
    destruct (Z.leb_spec (amount_of amounts (utxo_AssetID utxo))
                (amount_of (amountsSpent s) (utxo_AssetID utxo))) as [|Hless]; [by eapply Hskip|].
    destruct (kc_Spend (utxo_Out utxo) time) as [[inputIntf signers]|]; [|by eapply Hskip].
    destruct (in_Amount inputIntf) as [inputAmount|] eqn:Hamt; [|by eapply Hskip].
    destruct (Add64 _ inputAmount) as [newAmountSpent|] eqn:Hadd; [|done].
    destruct (SpentInv_add s utxo inputIntf signers inputAmount newAmountSpent HI Hamt Hadd)
      as [HI1 Hnew].
    set (i := AvmVerify.mkTransferableInput (utxo_UTXOID utxo) (utxo_AssetID utxo) inputIntf)
      in *.
    destruct (IH _ s' Hrun HI1) as (HI' & HF' & new & Hins & Hsub).
    { destruct HI as [_ Hrange]. destruct HF as [Hreq Hlast].
      split; cbn [ins amountsSpent].
      - intros j [Hj|Hj%list_elem_of_singleton]%elem_of_app; [by apply Hreq|].
        subst j. cbn. specialize (Hrange (utxo_AssetID utxo)). lia.
      - intros a. rewrite amount_of_insert. case_decide as Ha.
        + subst a. intros _. exists i, inputAmount.
          split; [apply elem_of_app; right; by left|]. split; [done|]. split; [done|]. lia.
        + intros Hnz. destruct (Hlast a Hnz) as (j & v & Hj & ? & ? & ?).
          exists j, v. split; [apply elem_of_app; by left|]. done. }
    split; [done|]. split; [done|]. exists (i :: new). cbn [ins] in Hins.
    split; [by rewrite Hins, <- app_assoc|]. cbn. by apply sublist_skip.
Qed.

(** X20. When [Spend] succeeds, every amount asked for is covered by the
    amount spent of the asset; the amount spent of an asset is the sum of
    the amounts of the returned inputs of that asset and fits a [uint64];
    inputs are made only for assets of which a positive amount was asked,
    each from a UTXO of the list and no UTXO of the list twice; and each
    asset with an amount spent has an input without which less than the
    amount asked for would be spent. *)
Theorem Spend_covers_the_amounts utxos amounts spent ins' keys' :
  Spend utxos amounts = inr (spent, ins', keys') →
  (∀ asset amount, amounts !! asset = Some amount → (amount ≤ amount_of spent asset)%Z) ∧
  (∀ asset, amount_of spent asset = input_total asset ins' ∧
            (0 ≤ amount_of spent asset ≤ MaxUint64)%Z) ∧
  (∀ i, i ∈ ins' → (0 < amount_of amounts (in_AssetID i))%Z) ∧
  (in_UTXOID <$> ins') ⊆+ (utxo_UTXOID <$> utxos) ∧
  (∀ asset, amount_of spent asset ≠ 0%Z →
     ∃ i v, i ∈ ins' ∧ in_AssetID i = asset ∧ in_Amount (in_In i) = Some v ∧
            (amount_of spent asset - v < amount_of amounts asset)%Z).
Proof.
  unfold Spend.
  destruct (spend_loop amounts utxos _) as [|s] eqn:Hloop; [done|].
  apply spend_loop_spec in Hloop as ([Hsum Hrange] & [Hreq Hlast] & new & Hins & Hsub);
    [|apply SpentInv_empty|].
  2:{ split; cbn.
      - by intros i ?%elem_of_nil.
      - intros a Ha. exfalso. apply Ha. unfold amount_of. by rewrite lookup_empty. }
  case_bool_decide as Hcover; [|done].
  pose proof (Sort_perm (ins s) (keys s)) as Hperm.
  destruct (SortTransferableInputsWithSigners (ins s) (keys s)) as [sorted ks].
  cbn [fst] in Hperm. intros [= <- <- <-].
  split; [|split; [|split; [|split]]].
  - intros asset amount Hasset. by apply (Hcover asset amount).
  - intros asset. split; [|done]. rewrite Hsum. symmetry. by apply input_total_perm.
  - intros i Hi. apply Hreq. by rewrite <- Hperm.
  - rewrite Hperm. cbn [ins] in Hins. rewrite Hins, app_nil_l.
    by apply sublist_submseteq.
  - intros asset Hnz. destruct (Hlast asset Hnz) as (i & v & Hi & ?).
    exists i, v. split; [by rewrite Hperm|done].
Qed.

(** The input [SpendAll] makes of a UTXO, if the keychain can spend it and
    the input has an amount. *)
Definition spendable (utxo : UTXO) : option TransferableInput :=
  match kc_Spend (utxo_Out utxo) time with
  | None => None
  | Some (inputIntf, _) =>
      match in_Amount inputIntf with
      | None => None
      | Some _ =>
          Some (AvmVerify.mkTransferableInput (utxo_UTXOID utxo) (utxo_AssetID utxo) inputIntf)
      end
  end.

Lemma input_total_nonneg asset l : (0 ≤ input_total asset l)%Z.
Proof.
  unfold input_total. induction l as [|i l IH]; cbn [foldr]; [done|].
  case_decide; [|done].
  destruct (in_Amount (in_In i)) as [a|] eqn:Ha; cbn [default from_option id]; [|lia].
  pose proof (in_Amount_nonneg _ _ Ha). lia.
Qed.

Lemma spend_all_loop_spec utxos :
  ∀ s,
  SpentInv s →
  match spend_all_loop utxos s with
  | inl err =>
      err = errSpendOverflow ∧
      ∃ asset, (MaxUint64 < input_total asset (ins s ++ omap spendable utxos))%Z
  | inr s' => SpentInv s' ∧ ins s' = ins s ++ omap spendable utxos
  end.
Proof.
  induction utxos as [|utxo rest IH]; intros s HI; cbn [spend_all_loop].
  - split; [done|]. cbn. by rewrite app_nil_r.
  - cbv zeta.
    change (omap spendable (utxo :: rest)) with
      (match spendable utxo with
       | Some y => y :: omap spendable rest
       | None => omap spendable rest
       end).
    destruct (kc_Spend (utxo_Out utxo) time) as [[inputIntf signers]|] eqn:Hkc.
    2:{ assert (spendable utxo = None) as -> by (unfold spendable; by rewrite Hkc).
        by apply IH. }
    destruct (in_Amount inputIntf) as [inputAmount|] eqn:Hamt.
    2:{ assert (spendable utxo = None) as -> by (unfold spendable; by rewrite Hkc, Hamt).
        by apply IH. }
    assert (spendable utxo =
            Some (AvmVerify.mkTransferableInput (utxo_UTXOID utxo) (utxo_AssetID utxo)
                    inputIntf)) as ->
      by (unfold spendable; by rewrite Hkc, Hamt).
    set (i := AvmVerify.mkTransferableInput (utxo_UTXOID utxo) (utxo_AssetID utxo) inputIntf).
    destruct (Add64 _ inputAmount) as [newAmountSpent|] eqn:Hadd.
    + destruct (SpentInv_add s utxo inputIntf signers inputAmount newAmountSpent HI Hamt Hadd)
        as [HI1 _].
      specialize (IH _ HI1). cbn [ins] in IH. fold i in IH.
      destruct (spend_all_loop rest _) as [|s'].
      * destruct IH as [-> (asset & Hover)]. split; [done|]. exists asset.
        by rewrite <- app_assoc in Hover.
      * destruct IH as [? ->]. split; [done|]. by rewrite <- app_assoc.
    + split; [done|]. exists (utxo_AssetID utxo).
      rewrite Add64_spec in Hadd.
      destruct (Z.leb_spec (amount_of (amountsSpent s) (utxo_AssetID utxo) + inputAmount)
                  MaxUint64) as [|Hover]; [done|].
      destruct HI as [Hsum _]. rewrite Hsum in Hover.
      rewrite input_total_app.
      change (i :: omap spendable rest) with ([i] ++ omap spendable rest).
      rewrite input_total_app.
      pose proof (input_total_nonneg (utxo_AssetID utxo) (omap spendable rest)) as Hrest.
      assert (input_total (utxo_AssetID utxo) [i] = inputAmount) as ->; [|lia].
      unfold input_total. cbn [foldr]. subst i. cbn [AvmVerify.in_AssetID AvmVerify.in_In].
      rewrite decide_True, Hamt by done. cbn [default from_option id]. lia.
Qed.

(** X21. [SpendAll] fails exactly when, for some asset, the amounts of
    the UTXOs of the list that the keychain can spend add up to more than a
    [uint64] holds, and then with [errSpendOverflow]. Otherwise it returns:
    the inputs are those of all the UTXOs of the list that the keychain can
    spend and that have an amount, and the amount spent of an asset is the
    sum of the amounts of its inputs. *)
Theorem SpendAll_spends_every_spendable_utxo utxos :
  ((∀ asset, (input_total asset (omap spendable utxos) ≤ MaxUint64)%Z) →
   ∃ spent ins' keys',
     SpendAll utxos = inr (spent, ins', keys') ∧
     ins' ≡ₚ omap spendable utxos ∧
     ∀ asset, amount_of spent asset = input_total asset ins' ∧
              (0 ≤ amount_of spent asset ≤ MaxUint64)%Z) ∧
  ((∃ asset, (MaxUint64 < input_total asset (omap spendable utxos))%Z) →
   SpendAll utxos = inl errSpendOverflow).
Proof.
  unfold SpendAll.
  pose proof (spend_all_loop_spec utxos _ SpentInv_empty) as Hloop.
  cbn [ins] in Hloop. rewrite app_nil_l in Hloop.
  destruct (spend_all_loop utxos _) as [err|s].
  - destruct Hloop as [-> (asset & Hover)]. split; [|done].
    intros Hfits. specialize (Hfits asset). lia.
  - destruct Hloop as [[Hsum Hrange] Hins].
    pose proof (Sort_perm (ins s) (keys s)) as Hperm.
    destruct (SortTransferableInputsWithSigners (ins s) (keys s)) as [sorted ks].
    cbn [fst] in Hperm. split.
    + intros _. exists (amountsSpent s), sorted, ks. split; [done|].
      split; [by rewrite Hperm, Hins|].
      intros asset. split; [|done]. rewrite Hsum. symmetry. by apply input_total_perm.
    + intros (asset & Hover). rewrite <- Hins, <- Hsum in Hover.
      specialize (Hrange asset). lia.
Qed.

End Spend.

(** ** spendManagedAsset *)

Section spendManagedAsset.

Context {AssetID UTXOID Output Verifiable InputIntf Input Signers : Type}.
Context `{EqDecision AssetID}.

(** [secp256k1fx.TransferInput] *)
Record TransferInput := mkTransferInput {
  Amt : Z;
  ti_Input : Input;
}.

Abbreviation UTXO' := (UTXO (AssetID := AssetID) (UTXOID := UTXOID) (Output := Output)).
Abbreviation ManagedInput :=
  (AvmVerify.TransferableInput (AssetID := AssetID) (UTXOID := UTXOID) (In := TransferInput)).

(** [kc.Spend(assetManager, time)], the type assertion of its input to a
    pointer to [secp256k1fx.Input], the type assertion of an output to
    [avax.TransferableOut] with its [Amount()], [safemath.Add64] and
    [avax.SortTransferableInputsWithSigners]. *)
Context (kc_Spend : Verifiable → Z → option (InputIntf * Signers)).
Context (asInput : InputIntf → option Input).
Context (out_Amount : Output → option Z).
Context (Add64 : Z → Z → option Z).
Context (SortTransferableInputsWithSigners :
           list ManagedInput → list Signers → list ManagedInput * list Signers).

(** The variables of the loop. *)
Record ManagedSpent := mkManagedSpent {
  amountSpent : Z;
  managed_ins : list ManagedInput;
  managed_keys : list Signers;
}.

(** [for _, utxo := range utxos], left by the [break] once more than
    [amount] is spent. *)
Fixpoint managed_loop (assetID : AssetID) (input : Input) (signers : Signers) (amount : Z)
    (utxos : list UTXO') (s : ManagedSpent) : SpendError + ManagedSpent :=
  match utxos with
  | [] => inr s
  | utxo :: rest =>
      if decide (utxo_AssetID utxo ≠ assetID)
      then managed_loop assetID input signers amount rest s
      else
        match out_Amount (utxo_Out utxo) with
        | None => managed_loop assetID input signers amount rest s
        | Some outAmount =>
            match Add64 (amountSpent s) outAmount with
            | None => inl errSpendOverflow
            | Some newAmountSpent =>
                let s' :=
                  {| amountSpent := newAmountSpent;
                     managed_ins :=
                       managed_ins s ++
                       [AvmVerify.mkTransferableInput (utxo_UTXOID utxo) assetID
                          (mkTransferInput outAmount input)];
                     managed_keys := managed_keys s ++ [signers] |} in
                if (amount <? newAmountSpent)%Z then inr s'
                else managed_loop assetID input signers amount rest s'
            end
        end
  end.

Definition spendManagedAsset (assetID : AssetID) (assetManager : Verifiable)
    (utxos : list UTXO') (amount time : Z) :
    SpendError + Z * list ManagedInput * list Signers :=
  match kc_Spend assetManager time with
  | None => inl errNoManagerKeys
  | Some (inputIntf, signers) =>
      match asInput inputIntf with
      | None => inl errNotSecpInput
      | Some input =>
          match managed_loop assetID input signers amount utxos
                  {| amountSpent := 0; managed_ins := []; managed_keys := [] |} with
          | inl err => inl err
          | inr s =>
              let '(ins', keys') :=
                SortTransferableInputsWithSigners (managed_ins s) (managed_keys s) in
              inr (amountSpent s, ins', keys')
          end
      end
  end.





Hypothesis Add64_spec : ∀ a b,
  Add64 a b = if (a + b <=? MaxUint64)%Z then Some (a + b)%Z else None.
Hypothesis out_Amount_nonneg : ∀ out a, out_Amount out = Some a → (0 ≤ a)%Z.
Hypothesis Sort_perm : ∀ l k, (SortTransferableInputsWithSigners l k).1 ≡ₚ l.




End spendManagedAsset.

(** ** Mint *)

Section Mint.

Context {AssetID UTXOID Output MintOutput InputIntf Input Signers ShortID : Type}.
Context `{Countable AssetID}.

(** [secp256k1fx.MintOperation] with its [TransferOutput] of [Amt] to
    [OutputOwners{Threshold, Addrs}]. *)
Record MintOperation := mkMintOperation {
  MintInput : Input;
  mint_MintOutput : MintOutput;
  TransferAmt : Z;
  TransferThreshold : Z;
  TransferAddrs : list ShortID;
}.

Abbreviation UTXO' := (UTXO (AssetID := AssetID) (UTXOID := UTXOID) (Output := Output)).
Abbreviation Operation :=
  (AvmVerify.Operation (AssetID := AssetID) (UTXOID := UTXOID) (FxOperation := MintOperation)).
Abbreviation op_AssetID :=
  (AvmVerify.op_AssetID (AssetID := AssetID) (UTXOID := UTXOID) (FxOperation := MintOperation)).
Abbreviation op_UTXOIDs :=
  (AvmVerify.op_UTXOIDs (AssetID := AssetID) (UTXOID := UTXOID) (FxOperation := MintOperation)).
Abbreviation op_Op :=
  (AvmVerify.op_Op (AssetID := AssetID) (UTXOID := UTXOID) (FxOperation := MintOperation)).

(** [vm.clock.Unix()], the type assertion of an output to a pointer to
    [secp256k1fx.MintOutput], [kc.Spend(out, time)], the type assertion of
    its input to a pointer to [secp256k1fx.Input], and
    [sortOperationsWithSigners]. *)
Context (time : Z).
Context (asMintOutput : Output → option MintOutput).
Context (kc_Spend : MintOutput → Z → option (InputIntf * Signers)).
Context (asInput : InputIntf → option Input).
Context (sortOperationsWithSigners :
           list Operation → list Signers → list Operation * list Signers).

(** The variables of the loop; [remaining] is the map [amounts] of the
    caller, from which the loop deletes. *)
Record Minted := mkMinted {
  ops : list Operation;
  mint_keys : list Signers;
  remaining : gmap AssetID Z;
}.

(** [for _, utxo := range utxos] *)
Fixpoint mint_loop (to : ShortID) (utxos : list UTXO') (s : Minted) : Minted :=
  match utxos with
  | [] => s
  | utxo :: rest =>
      let assetID := utxo_AssetID utxo in
      let amount := amount_of (remaining s) assetID in
      if (amount =? 0)%Z then mint_loop to rest s
      else
        match asMintOutput (utxo_Out utxo) with
        | None => mint_loop to rest s
        | Some out =>
            match kc_Spend out time with
            | None => mint_loop to rest s
            | Some (inIntf, signers) =>
                match asInput inIntf with
                | None => mint_loop to rest s
                | Some input =>
                    mint_loop to rest
                      {| ops := ops s ++
                                [AvmVerify.mkOperation assetID [utxo_UTXOID utxo]
                                   (mkMintOperation input out amount 1 [to])];
                         mint_keys := mint_keys s ++ [signers];
                         remaining := delete assetID (remaining s) |}
                end
            end
        end
  end.

(** [Mint] returns its result and what it leaves of the caller's map. *)
Definition Mint (utxos : list UTXO') (amounts : gmap AssetID Z) (to : ShortID) :
    (SpendError + list Operation * list Signers) * gmap AssetID Z :=
  let s := mint_loop to utxos {| ops := []; mint_keys := []; remaining := amounts |} in
  if bool_decide (map_Forall (λ _ amount, ¬ (0 < amount)%Z) (remaining s))
  then
    let '(ops', keys') := sortOperationsWithSigners (ops s) (mint_keys s) in
    (inr (ops', keys'), remaining s)
  else (inl errAddressesCantMintAsset, remaining s).

(** The operation mints the amount asked for of its asset to [to], from a
    mint output of a UTXO of the list. *)
Definition mints (utxos : list UTXO') (amounts : gmap AssetID Z) (to : ShortID)
    (op : Operation) : Prop :=
  amount_of amounts (op_AssetID op) ≠ 0%Z ∧
  TransferAmt (op_Op op) = amount_of amounts (op_AssetID op) ∧
  TransferThreshold (op_Op op) = 1%Z ∧
  TransferAddrs (op_Op op) = [to] ∧
  ∃ utxo, utxo ∈ utxos ∧ utxo_AssetID utxo = op_AssetID op ∧
          op_UTXOIDs op = [utxo_UTXOID utxo] ∧
          asMintOutput (utxo_Out utxo) = Some (mint_MintOutput (op_Op op)).

Definition MintInv (utxos : list UTXO') (amounts : gmap AssetID Z) (to : ShortID)
    (s : Minted) : Prop :=
  (∀ a, remaining s !! a =
        if decide (a ∈ op_AssetID <$> ops s) then None else amounts !! a) ∧
  NoDup (op_AssetID <$> ops s) ∧
  (∀ op, op ∈ ops s → mints utxos amounts to op).

Lemma mint_loop_spec all amounts to utxos :
  ∀ s, (∀ u, u ∈ utxos → u ∈ all) →
  MintInv all amounts to s → MintInv all amounts to (mint_loop to utxos s).
Proof.
  induction utxos as [|utxo rest IH]; intros s Hall HI; cbn [mint_loop]; [done|].
  assert (∀ u, u ∈ rest → u ∈ all) as Hrest by (intros u Hu; apply Hall; by right).
  cbv zeta.
  destruct (Z.eqb_spec (amount_of (remaining s) (utxo_AssetID utxo)) 0) as [|Hnz];
    [by apply IH|].
  destruct (asMintOutput (utxo_Out utxo)) as [out|] eqn:Hout; [|by apply IH].
  destruct (kc_Spend out time) as [[inIntf signers]|]; [|by apply IH].
  destruct (asInput inIntf) as [input|]; [|by apply IH].
  apply IH; [done|]. destruct HI as (Hrem & Hnd & Hops).
  assert ((utxo_AssetID utxo ∉ op_AssetID <$> ops s) ∧
          amount_of (remaining s) (utxo_AssetID utxo) =
            amount_of amounts (utxo_AssetID utxo)) as [Hnew Hamt].
  { unfold amount_of in *. rewrite Hrem in Hnz |- *. by case_decide. }
  split; [|split]; cbn [ops remaining].
  - intros a. rewrite fmap_app. cbn [fmap list_fmap AvmVerify.op_AssetID].
    destruct (decide (a = utxo_AssetID utxo)) as [->|Hne].
    + rewrite lookup_delete_eq, decide_True; [done|]. apply elem_of_app. right. by left.
    + rewrite lookup_delete_ne, Hrem by done.
      destruct (decide (a ∈ op_AssetID <$> ops s)) as [Hin|Hnin].
      * rewrite decide_True; [done|]. apply elem_of_app. by left.
      * rewrite decide_False; [done|].
        intros [?|?%list_elem_of_singleton]%elem_of_app; done.
  - rewrite fmap_app. apply NoDup_app. split; [done|]. split; [|apply NoDup_singleton].
    intros a Ha ->%list_elem_of_singleton. done.
  - intros op [Hop|Hop%list_elem_of_singleton]%elem_of_app; [by apply Hops|]. subst op.
    unfold mints. cbn. rewrite Hamt in *. repeat (split; [done|]).
    exists utxo. split; [apply Hall; by left|done].
Qed.

Hypothesis Sort_perm : ∀ l k, (sortOperationsWithSigners l k).1 ≡ₚ l.

(** X23. [Mint] only deletes from the map [amounts] of its caller, and it
    does so also when it fails. When it succeeds on amounts that are
    [uint64]s, it returns one operation for each asset of which a non-zero
    amount was asked and no other; the operation mints just this amount
    to [to], with threshold 1, from a mint output of a UTXO of the list
    that is of the asset; and the caller's map is left with the entries
    that are 0. *)
Theorem Mint_one_operation_per_asset utxos amounts to :
  map_Forall (λ _ amount, (0 ≤ amount)%Z) amounts →
  (Mint utxos amounts to).2 ⊆ amounts ∧
  ∀ ops' keys', (Mint utxos amounts to).1 = inr (ops', keys') →
    NoDup (op_AssetID <$> ops') ∧
    (∀ a, a ∈ op_AssetID <$> ops' ↔ amount_of amounts a ≠ 0%Z) ∧
    (∀ op, op ∈ ops' → mints utxos amounts to op) ∧
    (∀ a v, (Mint utxos amounts to).2 !! a = Some v ↔ amounts !! a = Some v ∧ v = 0%Z).
Proof.
  intros Hnonneg. unfold Mint. cbv zeta.
  destruct (mint_loop_spec utxos amounts to utxos
              {| ops := []; mint_keys := []; remaining := amounts |}) as (Hrem & Hnd & Hops).
  { done. }
  { split; [|split]; cbn.
    - done.
    - constructor.
    - by intros op ?%elem_of_nil. }
  set (s := mint_loop to utxos _) in *.
  assert (remaining s ⊆ amounts) as Hsub.
  { apply map_subseteq_spec. intros a v. rewrite Hrem. by case_decide. }
  case_bool_decide as Hdone.
  2:{ cbn. split; [done|]. by intros ops' keys'. }
  pose proof (Sort_perm (ops s) (mint_keys s)) as Hperm.
  destruct (sortOperationsWithSigners (ops s) (mint_keys s)) as [sorted ks].
  cbn [fst snd] in *. split; [done|]. intros ops' keys' [= <- <-].
  assert (∀ a, a ∈ op_AssetID <$> ops s ↔ amount_of amounts a ≠ 0%Z) as Hassets.
  { intros a. split.
    - intros (op & -> & Hop)%list_elem_of_fmap. by destruct (Hops op Hop).
    - intros Hnz. destruct (decide (a ∈ op_AssetID <$> ops s)) as [|Hnin]; [done|].
      exfalso. pose proof (Hrem a) as Ha. rewrite decide_False in Ha by done.
      unfold amount_of in Hnz. destruct (amounts !! a) as [v|] eqn:Hv; [|done].
      cbn in Hnz. pose proof (Hnonneg a v Hv) as Hpos. cbn in Hpos.
      apply (Hdone a v Ha). lia. }
  split; [by rewrite Hperm|]. split; [intros a; by rewrite Hperm|].
  split; [intros op Hop; apply Hops; by rewrite <- Hperm|].
  intros a v. rewrite Hrem. destruct (decide (a ∈ op_AssetID <$> ops s)) as [Hin|Hnin].
  - apply Hassets in Hin. split; [done|]. intros [Hv ->]. unfold amount_of in Hin.
    by rewrite Hv in Hin.
  - split; [|by intros [? _]]. intros Hv. split; [done|].
    destruct (decide (v = 0%Z)) as [|Hnz]; [done|]. exfalso. apply Hnin, Hassets.
    unfold amount_of. by rewrite Hv.
Qed.

End Mint.


(** ** SpendNFT *)

Section SpendNFT.

Context {AssetID UTXOID Output Payload Owners Indices Signers ShortID : Type}.
Context `{EqDecision AssetID}.

(** [nftfx.TransferOutput] *)
Record NFTOutput := mkNFTOutput {
  GroupID : Z;
  nft_Payload : Payload;
  nft_OutputOwners : Owners;
}.

(** [nftfx.TransferOperation]: the signature indices of its input, and
    its output with the owners [OutputOwners{Threshold, Addrs}]. *)
Record NFTTransferOperation := mkNFTTransferOperation {
  SigIndices : Indices;
  to_GroupID : Z;
  to_Payload : Payload;
  to_Threshold : Z;
  to_Addrs : list ShortID;
}.

Abbreviation UTXO' := (UTXO (AssetID := AssetID) (UTXOID := UTXOID) (Output := Output)).
Abbreviation Operation :=
  (AvmVerify.Operation (AssetID := AssetID) (UTXOID := UTXOID)
     (FxOperation := NFTTransferOperation)).

(** [vm.clock.Unix()], the type assertion of an output to a pointer to
    [nftfx.TransferOutput], [kc.Match(owners, time)] and
    [sortOperationsWithSigners]. *)
Context (time : Z).
Context (asNFTOutput : Output → option NFTOutput).
Context (kc_Match : Owners → Z → option (Indices * Signers)).
Context (sortOperationsWithSigners :
           list Operation → list Signers → list Operation * list Signers).

(** One round of the loop after the test of [len(ops)]: the operation
    made of [utxo], or [None] where the round ends with [continue]. *)
Definition nft_operation (assetID : AssetID) (groupID : Z) (to : ShortID) (utxo : UTXO') :
    option (Operation * Signers) :=
  if decide (utxo_AssetID utxo ≠ assetID) then None
  else
    match asNFTOutput (utxo_Out utxo) with
    | None => None
    | Some out =>
        if negb (GroupID out =? groupID)%Z then None
        else
          match kc_Match (nft_OutputOwners out) time with
          | None => None
          | Some (indices, signers) =>
              Some (AvmVerify.mkOperation (utxo_AssetID utxo) [utxo_UTXOID utxo]
                      (mkNFTTransferOperation indices (GroupID out) (nft_Payload out) 1 [to]),
                    signers)
          end
    end.

(** [for _, utxo := range utxos], left by [break] once [ops] is not
    empty. *)
Fixpoint nft_loop (assetID : AssetID) (groupID : Z) (to : ShortID) (utxos : list UTXO')
    (ops : list Operation) (keys : list Signers) : list Operation * list Signers :=
  match utxos with
  | [] => (ops, keys)
  | utxo :: rest =>
      if (0 <? length ops)%nat then (ops, keys)
      else
        match nft_operation assetID groupID to utxo with
        | None => nft_loop assetID groupID to rest ops keys
        | Some (op, signers) =>
            nft_loop assetID groupID to rest (ops ++ [op]) (keys ++ [signers])
        end
  end.

Definition SpendNFT (utxos : list UTXO') (assetID : AssetID) (groupID : Z) (to : ShortID) :
    SpendError + list Operation * list Signers :=
  let '(ops, keys) := nft_loop assetID groupID to utxos [] [] in
  if (length ops =? 0)%nat then inl errInsufficientFunds
  else inr (sortOperationsWithSigners ops keys).

Lemma nft_loop_done assetID groupID to utxos ops keys :
  ops ≠ [] → nft_loop assetID groupID to utxos ops keys = (ops, keys).
Proof.
  intros Hne. destruct utxos as [|utxo rest]; [done|]. cbn [nft_loop].
  destruct ops; [done|]. done.
Qed.

Lemma nft_loop_spec assetID groupID to utxos :
  match nft_loop assetID groupID to utxos [] [] with
  | ([], _) => Forall (λ u, nft_operation assetID groupID to u = None) utxos
  | (ops, keys) =>
      ∃ before utxo after op signers,
        utxos = before ++ utxo :: after ∧
        Forall (λ u, nft_operation assetID groupID to u = None) before ∧
        nft_operation assetID groupID to utxo = Some (op, signers) ∧
        ops = [op] ∧ keys = [signers]
  end.
Proof.
  induction utxos as [|utxo rest IH]; cbn [nft_loop length Nat.ltb Nat.leb]; [constructor|].
  destruct (nft_operation assetID groupID to utxo) as [[op signers]|] eqn:Hop.
  - rewrite nft_loop_done by done. cbn [app].
    exists [], utxo, rest, op, signers. by repeat split.
  - destruct (nft_loop assetID groupID to rest [] []) as [[|op ops] keys].
    + by constructor.
    + destruct IH as (before & u & after & op' & signers & -> & Hbefore & Hu & Hops & Hkeys).
      exists (utxo :: before), u, after, op', signers.
      split; [done|]. split; [by constructor|]. done.
Qed.

Hypothesis Sort_perm : ∀ l k, (sortOperationsWithSigners l k).1 ≡ₚ l.

(** X24. [SpendNFT] fails, with [errInsufficientFunds], exactly when no
    UTXO of the list is an NFT of the asset and the group that the keychain
    can spend. Otherwise it returns a single operation: the one that
    transfers the first such UTXO of the list to [to]. *)
Theorem SpendNFT_spends_the_first_match utxos assetID groupID to :
  match SpendNFT utxos assetID groupID to with
  | inl err =>
      err = errInsufficientFunds ∧
      Forall (λ u, nft_operation assetID groupID to u = None) utxos
  | inr (ops, _) =>
      ∃ before utxo after op signers,
        utxos = before ++ utxo :: after ∧
        Forall (λ u, nft_operation assetID groupID to u = None) before ∧
        nft_operation assetID groupID to utxo = Some (op, signers) ∧
        ops = [op]
  end.
Proof.
  unfold SpendNFT. pose proof (nft_loop_spec assetID groupID to utxos) as Hloop.
  destruct (nft_loop assetID groupID to utxos [] []) as [[|op0 ops] keys]; cbn [length Nat.eqb].
  - done.
  - destruct Hloop as (before & utxo & after & op & signers & -> & Hbefore & Hop & Hops & _).
    pose proof (Sort_perm (op0 :: ops) keys) as Hperm.
    destruct (sortOperationsWithSigners (op0 :: ops) keys) as [sorted ks]. cbn [fst] in Hperm.
    exists before, utxo, after, op, signers. repeat (split; [done|]).
    rewrite Hops in Hperm. by apply Permutation_singleton_r in Hperm.
Qed.

End SpendNFT.

(** ** The helpers on a small wallet *)

(** [safemath.Add64] *)
Definition test_Add64 (a b : Z) : option Z :=
  if (a + b <=? MaxUint64)%Z then Some (a + b)%Z else None.

(** An output is its amount; the keychain spends the outputs whose amount
    is not negative, and the sort leaves the order. *)
Definition test_kc_Spend (out time : Z) : option (Z * unit) :=
  if (0 <=? out)%Z then Some (out, tt) else None.

Definition test_Amount (i : Z) : option Z := if (0 <=? i)%Z then Some i else None.

Definition no_sort {A B} (l : list A) (k : list B) : list A * list B := (l, k).

Lemma test_Add64_spec a b :
  test_Add64 a b = if (a + b <=? MaxUint64)%Z then Some (a + b)%Z else None.
Proof. reflexivity. Qed.

Lemma test_Amount_nonneg i a : test_Amount i = Some a → (0 ≤ a)%Z.
Proof. unfold test_Amount. destruct (Z.leb_spec 0 i); [|done]. intros [= <-]. done. Qed.

Lemma no_sort_perm {A B} (l : list A) (k : list B) : (no_sort l k).1 ≡ₚ l.
Proof. reflexivity. Qed.

(** Five UTXOs: 5, an unspendable one, 6 and 9 of asset 7, and 4 of
    asset 8. *)
Definition wallet : list (UTXO (AssetID := N) (UTXOID := N) (Output := Z)) :=
  [mkUTXO 1%N 7%N 5%Z; mkUTXO 2%N 7%N (-1)%Z; mkUTXO 3%N 8%N 4%Z; mkUTXO 4%N 7%N 6%Z;
   mkUTXO 5%N 7%N 9%Z].

Definition test_Spend :=
  Spend (AssetID := N) (UTXOID := N) (Output := Z) (Input := Z) (Signers := unit)
    0%Z test_kc_Spend test_Amount test_Add64 no_sort.

Definition test_SpendAll :=
  SpendAll (AssetID := N) (UTXOID := N) (Output := Z) (Input := Z) (Signers := unit)
    0%Z test_kc_Spend test_Amount test_Add64 no_sort.

Definition test_input (utxoID assetID : N) (amount : Z) :
    AvmVerify.TransferableInput (AssetID := N) (UTXOID := N) (In := Z) :=
  AvmVerify.mkTransferableInput utxoID assetID amount.

(** Asked for 10 of asset 7, [Spend] takes the UTXOs 1 and 4. *)
Lemma Spend_covers_the_amounts_witness :
  (∀ asset amount, ({[7%N := 10%Z]} : gmap N Z) !! asset = Some amount →
     (amount ≤ amount_of {[7%N := 11%Z]} asset)%Z) ∧
  (∀ asset,
     amount_of {[7%N := 11%Z]} asset =
       input_total test_Amount asset [test_input 1 7 5; test_input 4 7 6] ∧
     (0 ≤ amount_of {[7%N := 11%Z]} asset ≤ MaxUint64)%Z) ∧
  (∀ i, i ∈ [test_input 1 7 5; test_input 4 7 6] →
     (0 < amount_of {[7%N := 10%Z]} (AvmVerify.in_AssetID i))%Z) ∧
  (AvmVerify.in_UTXOID <$> [test_input 1 7 5; test_input 4 7 6]) ⊆+ (utxo_UTXOID <$> wallet) ∧
  (∀ asset, amount_of {[7%N := 11%Z]} asset ≠ 0%Z →
     ∃ i v, i ∈ [test_input 1 7 5; test_input 4 7 6] ∧ AvmVerify.in_AssetID i = asset ∧
            test_Amount (AvmVerify.in_In i) = Some v ∧
            (amount_of {[7%N := 11%Z]} asset - v < amount_of {[7%N := 10%Z]} asset)%Z).
Proof.
  apply (Spend_covers_the_amounts (AssetID := N) (UTXOID := N) (Output := Z) (Input := Z)
           (Signers := unit) 0%Z test_kc_Spend test_Amount test_Add64 no_sort
           test_Add64_spec test_Amount_nonneg no_sort_perm
           wallet {[7%N := 10%Z]} {[7%N := 11%Z]} [test_input 1 7 5; test_input 4 7 6]
           [tt; tt]).
  by vm_compute.
Defined.

Lemma wallet_fits asset :
  (input_total test_Amount asset (omap (spendable 0%Z test_kc_Spend test_Amount) wallet)
   ≤ MaxUint64)%Z.
Proof.
  cbn. unfold MaxUint64. repeat case_decide; lia.
Qed.

Lemma SpendAll_spends_every_spendable_utxo_witness :
  ∃ spent ins' keys',
    test_SpendAll wallet = inr (spent, ins', keys') ∧
    ins' ≡ₚ omap (spendable 0%Z test_kc_Spend test_Amount) wallet ∧
    ∀ asset, amount_of spent asset = input_total test_Amount asset ins' ∧
             (0 ≤ amount_of spent asset ≤ MaxUint64)%Z.
Proof.
  apply (SpendAll_spends_every_spendable_utxo (AssetID := N) (UTXOID := N) (Output := Z)
           (Input := Z) (Signers := unit) 0%Z test_kc_Spend test_Amount test_Add64 no_sort
           test_Add64_spec test_Amount_nonneg no_sort_perm wallet).
  exact wallet_fits.
Defined.

(** Two UTXOs of 2^63 of one asset are too much. *)
Example SpendAll_overflows :
  test_SpendAll [mkUTXO 1%N 7%N 9223372036854775808%Z; mkUTXO 2%N 7%N 9223372036854775808%Z] =
    inl errSpendOverflow.
Proof. by vm_compute. Qed.

Example SpendAll_wallet :
  test_SpendAll wallet =
    inr ({[7%N := 20%Z; 8%N := 4%Z]},
         [test_input 1 7 5; test_input 3 8 4; test_input 4 7 6; test_input 5 7 9],
         [tt; tt; tt; tt]).
Proof. by vm_compute. Qed.

(** The manager's keys spend every UTXO of the asset that has funds. *)
Definition test_spendManagedAsset :=
  spendManagedAsset (AssetID := N) (UTXOID := N) (Output := Z) (Verifiable := unit)
    (InputIntf := Z) (Input := Z) (Signers := unit)
    (λ _ _, Some (0%Z, tt)) Some test_Amount test_Add64 no_sort.

Definition managed_input (utxoID : N) (amount : Z) :
    AvmVerify.TransferableInput (AssetID := N) (UTXOID := N) (In := TransferInput (Input := Z)) :=
  AvmVerify.mkTransferableInput utxoID 7%N (mkTransferInput amount 0%Z).


(** Asked for 30 of asset 7, of which the wallet has 20, it returns the
    inputs for all 20. *)
Example spendManagedAsset_short_of_funds :
  test_spendManagedAsset 7%N tt wallet 30%Z 0%Z =
    inr (20%Z, [managed_input 1 5; managed_input 4 6; managed_input 5 9], [tt; tt; tt]).
Proof. by vm_compute. Qed.

(** Asked for 10, it stops after UTXO 4, with 11. *)
Example spendManagedAsset_stops_when_exceeded :
  test_spendManagedAsset 7%N tt wallet 10%Z 0%Z =
    inr (11%Z, [managed_input 1 5; managed_input 4 6], [tt; tt]).
Proof. by vm_compute. Qed.

(** Every output of the wallet that is not negative is a mint output the
    keychain can spend. *)
Definition test_Mint :=
  Mint (AssetID := N) (UTXOID := N) (Output := Z) (MintOutput := Z) (InputIntf := Z)
    (Input := Z) (Signers := unit) (ShortID := N)
    0%Z test_Amount (λ _ _, Some (0%Z, tt)) Some no_sort.

Definition mint_amounts : gmap N Z := {[7%N := 10%Z; 8%N := 0%Z]}.

Lemma Mint_one_operation_per_asset_witness :
  (test_Mint wallet mint_amounts 9%N).2 ⊆ mint_amounts ∧
  ∀ ops' keys', (test_Mint wallet mint_amounts 9%N).1 = inr (ops', keys') →
    NoDup (AvmVerify.op_AssetID <$> ops') ∧
    (∀ a, a ∈ AvmVerify.op_AssetID <$> ops' ↔ amount_of mint_amounts a ≠ 0%Z) ∧
    (∀ op, op ∈ ops' → mints test_Amount wallet mint_amounts 9%N op) ∧
    (∀ a v, (test_Mint wallet mint_amounts 9%N).2 !! a = Some v ↔
            mint_amounts !! a = Some v ∧ v = 0%Z).
Proof.
  apply (Mint_one_operation_per_asset (AssetID := N) (UTXOID := N) (Output := Z)
           (MintOutput := Z) (InputIntf := Z) (Input := Z) (Signers := unit) (ShortID := N)
           0%Z test_Amount (λ _ _, Some (0%Z, tt)) Some no_sort no_sort_perm
           wallet mint_amounts 9%N).
  apply map_Forall_insert_2; [done|]. apply map_Forall_insert_2; [done|].
  apply map_Forall_empty.
Defined.

(** [Mint] makes one operation, for asset 7 from UTXO 1, and leaves the
    caller's map without asset 7. *)
Example Mint_wallet :
  test_Mint wallet mint_amounts 9%N =
    (inr ([AvmVerify.mkOperation 7%N [1%N] (mkMintOperation 0%Z 5%Z 10%Z 1%Z [9%N])], [tt]),
     {[8%N := 0%Z]}).
Proof. by vm_compute. Qed.

(** When the keychain cannot mint asset 8, [Mint] fails, and the caller's
    map has lost asset 7 all the same. *)
Example Mint_deletes_on_failure :
  test_Mint wallet {[7%N := 10%Z; 8%N := 3%Z]} 9%N =
    (inr ([AvmVerify.mkOperation 7%N [1%N] (mkMintOperation 0%Z 5%Z 10%Z 1%Z [9%N]);
           AvmVerify.mkOperation 8%N [3%N] (mkMintOperation 0%Z 4%Z 3%Z 1%Z [9%N])],
          [tt; tt]), ∅) ∧
  test_Mint (take 2 wallet) {[7%N := 10%Z; 8%N := 3%Z]} 9%N =
    (inl errAddressesCantMintAsset, {[8%N := 3%Z]}).
Proof. by vm_compute. Qed.

(** An output of the wallet that is not negative is an NFT of the group
    with that number, which the keychain can spend. *)
Definition test_asNFTOutput (out : Z) : option (NFTOutput (Payload := unit) (Owners := unit)) :=
  if (0 <=? out)%Z then Some (mkNFTOutput out tt tt) else None.

Definition test_SpendNFT :=
  SpendNFT (AssetID := N) (UTXOID := N) (Output := Z) (Payload := unit) (Owners := unit)
    (Indices := unit) (Signers := unit) (ShortID := N)
    0%Z test_asNFTOutput (λ _ _, Some (tt, tt)) no_sort.

Lemma SpendNFT_spends_the_first_match_witness :
  match test_SpendNFT wallet 7%N 6%Z 9%N with
  | inl err =>
      err = errInsufficientFunds ∧
      Forall (λ u, nft_operation 0%Z test_asNFTOutput (λ _ _, Some (tt, tt)) 7%N 6%Z 9%N u
                   = None) wallet
  | inr (ops, _) =>
      ∃ before utxo after op signers,
        wallet = before ++ utxo :: after ∧
        Forall (λ u, nft_operation 0%Z test_asNFTOutput (λ _ _, Some (tt, tt)) 7%N 6%Z 9%N u
                     = None) before ∧
        nft_operation 0%Z test_asNFTOutput (λ _ _, Some (tt, tt)) 7%N 6%Z 9%N utxo =
          Some (op, signers) ∧
        ops = [op]
  end.
Proof.
  apply (SpendNFT_spends_the_first_match (AssetID := N) (UTXOID := N) (Output := Z)
           (Payload := unit) (Owners := unit) (Indices := unit) (Signers := unit)
           (ShortID := N) 0%Z test_asNFTOutput (λ _ _, Some (tt, tt)) no_sort no_sort_perm
           wallet 7%N 6%Z 9%N).
Defined.

(** The NFT of group 6 of asset 7 is UTXO 4. *)
Example SpendNFT_wallet :
  test_SpendNFT wallet 7%N 6%Z 9%N =
    inr ([AvmVerify.mkOperation 7%N [4%N] (mkNFTTransferOperation tt 6%Z tt 1%Z [9%N])], [tt]) ∧
  test_SpendNFT wallet 8%N 6%Z 9%N = inl errInsufficientFunds.
Proof. by vm_compute. Qed.

End AvmSpend.

(** * The batching of issued transactions in the avm (unnamed/part_001) *)

Module AvmBatch.

Definition batchSize : nat := 30.

(** The calls on the collaborators of [Pending], [FlushTxs] and
    [issueTx]: the timer, the channel to the engine (a send that
    succeeded), the log and the metrics. *)
Inductive Call :=
  | Call_numPendingCalls_Inc
  | Call_timer_Cancel
  | Call_timer_SetTimeoutIn
  | Call_toEngine_PendingTxs
  | Call_Log_Warn.

Section batch.

Context {Tx : Type}.

(** The field [vm.txs] and the calls made so far. *)
Record VM := mkVM {
  txs : list Tx;
  calls : list Call;
}.

Definition call (vm : VM) (c : Call) : VM :=
  {| txs := txs vm; calls := calls vm ++ [c] |}.

(** [Pending] returns the transactions and empties [vm.txs]. *)
Definition Pending (vm : VM) : list Tx * VM :=
  let vm := call vm Call_numPendingCalls_Inc in
  let vm := call vm Call_timer_Cancel in
  (txs vm, {| txs := []; calls := calls vm |}).

(** [FlushTxs]; [ready] says whether the channel takes the message, the
    first case of the [select], or the [default] case is run. *)
Definition FlushTxs (ready : bool) (vm : VM) : VM :=
  let vm := call vm Call_timer_Cancel in
  if negb (length (txs vm) =? 0)%nat then
    if ready then call vm Call_toEngine_PendingTxs
    else call (call vm Call_Log_Warn) Call_timer_SetTimeoutIn
  else vm.

Definition issueTx (ready : bool) (vm : VM) (tx : Tx) : VM :=
  let vm := {| txs := txs vm ++ [tx]; calls := calls vm |} in
  if (length (txs vm) =? batchSize)%nat then FlushTxs ready vm
  else if (length (txs vm) =? 1)%nat then call vm Call_timer_SetTimeoutIn
  else vm.

(** The calls of the engine, the api and the timer, in any order. *)
Inductive Op :=
  | OpIssueTx (tx : Tx) (ready : bool)
  | OpFlushTxs (ready : bool)
  | OpPending.

(** One call; the state after it and what [Pending] returned. *)
Definition step (vm : VM) (op : Op) : VM * list Tx :=
  match op with
  | OpIssueTx tx ready => (issueTx ready vm tx, [])
  | OpFlushTxs ready => (FlushTxs ready vm, [])
  | OpPending => let '(batch, vm') := Pending vm in (vm', batch)
  end.

(** A run from a state: the state it ends in and all the transactions
    [Pending] returned, in the order they were returned. *)
Fixpoint run_from (vm : VM) (ops : list Op) : VM * list Tx :=
  match ops with
  | [] => (vm, [])
  | op :: rest =>
      let '(vm1, out1) := step vm op in
      let '(vm2, out2) := run_from vm1 rest in
      (vm2, out1 ++ out2)
  end.

Definition run (ops : list Op) : VM * list Tx := run_from {| txs := []; calls := [] |} ops.

(** The transactions a run issues. *)
Definition issued (ops : list Op) : list Tx :=
  ops ≫= λ op, match op with OpIssueTx tx _ => [tx] | _ => [] end.

(** The timer has a timeout set: of the calls of the timer, the last is
    [SetTimeoutIn]. *)
Definition armed (l : list Call) : bool :=
  foldl (λ b c, match c with
                | Call_timer_SetTimeoutIn => true
                | Call_timer_Cancel => false
                | _ => b
                end) false l.

(** The engine has been sent [PendingTxs] since [Pending] was last
    called. *)
Definition notified (l : list Call) : bool :=
  foldl (λ b c, match c with
                | Call_toEngine_PendingTxs => true
                | Call_numPendingCalls_Inc => false
                | _ => b
                end) false l.

Definition awake (vm : VM) : Prop :=
  txs vm ≠ [] → armed (calls vm) = true ∨ notified (calls vm) = true.

Lemma armed_snoc l c :
  armed (l ++ [c]) =
  match c with
  | Call_timer_SetTimeoutIn => true
  | Call_timer_Cancel => false
  | _ => armed l
  end.
Proof. unfold armed. by rewrite foldl_app. Qed.

Lemma notified_snoc l c :
  notified (l ++ [c]) =
  match c with
  | Call_toEngine_PendingTxs => true
  | Call_numPendingCalls_Inc => false
  | _ => notified l
  end.
Proof. unfold notified. by rewrite foldl_app. Qed.

Lemma FlushTxs_awake ready vm : awake (FlushTxs ready vm).
Proof.
  unfold awake, FlushTxs. cbv zeta. cbn [call txs calls].
  destruct (txs vm) as [|tx l] eqn:Htxs; cbn [length Nat.eqb negb]; [by cbn|].
  intros _. destruct ready; cbn [call calls].
  - right. by rewrite notified_snoc.
  - left. by rewrite armed_snoc.
Qed.

Lemma FlushTxs_txs ready vm : txs (FlushTxs ready vm) = txs vm.
Proof. unfold FlushTxs. cbv zeta. cbn [call txs]. by repeat case_match. Qed.

Lemma issueTx_txs ready vm tx : txs (issueTx ready vm tx) = txs vm ++ [tx].
Proof.
  unfold issueTx. cbv zeta. cbn [txs]. repeat case_match; [|done..].
  by rewrite FlushTxs_txs.
Qed.

Lemma issueTx_awake ready vm tx : awake vm → awake (issueTx ready vm tx).
Proof.
  intros Hvm. unfold issueTx. cbv zeta. cbn [txs].
  destruct (length (txs vm ++ [tx]) =? batchSize)%nat; [apply FlushTxs_awake|].
  destruct (Nat.eqb_spec (length (txs vm ++ [tx])) 1) as [Hone|Hmore].
  - intros _. left. cbn [call calls]. by rewrite armed_snoc.
  - intros _. cbn [calls]. apply Hvm. intros Hnil. rewrite Hnil in Hmore. done.
Qed.

Lemma step_awake vm op : awake vm → awake (step vm op).1.
Proof.
  intros Hvm. destruct op as [tx ready|ready|]; cbn [step fst].
  - by apply issueTx_awake.
  - apply FlushTxs_awake.
  - by intros Hne.
Qed.

Lemma step_conserves vm op :
  (step vm op).2 ++ txs (step vm op).1 =
  txs vm ++ match op with OpIssueTx tx _ => [tx] | _ => [] end.
Proof.
  destruct op as [tx ready|ready|]; cbn [step fst snd app].
  - apply issueTx_txs.
  - by rewrite FlushTxs_txs, app_nil_r.
  - cbn. by rewrite !app_nil_r.
Qed.

Lemma run_from_spec ops :
  ∀ vm, awake vm →
  awake (run_from vm ops).1 ∧
  (run_from vm ops).2 ++ txs (run_from vm ops).1 = txs vm ++ issued ops.
Proof.
  induction ops as [|op rest IH]; intros vm Hvm; cbn [run_from].
  - cbn. by rewrite app_nil_r.
  - pose proof (step_awake vm op Hvm) as H1. pose proof (step_conserves vm op) as H2.
    destruct (step vm op) as [vm1 out1]. cbn [fst snd] in *.
    destruct (IH vm1 H1) as [H3 H4].
    destruct (run_from vm1 rest) as [vm2 out2]. cbn [fst snd] in *.
    split; [done|]. unfold issued. rewrite bind_cons. fold (issued rest).
    rewrite <- app_assoc, H4, !app_assoc. by rewrite H2.
Qed.

(** X25. No issued transaction is left without a wake-up. After any
    sequence of calls of [issueTx], [FlushTxs] and [Pending], whether or
    not the channel to the engine takes a message, if [vm.txs] is not empty
    then the timer has a timeout set or the engine has been sent
    [PendingTxs] since the last call of [Pending]. *)
Theorem pending_txs_have_a_wake_up ops :
  txs (run ops).1 ≠ [] →
  armed (calls (run ops).1) = true ∨ notified (calls (run ops).1) = true.
Proof.
  unfold run. apply (run_from_spec ops {| txs := []; calls := [] |}). by intros Hne.
Qed.

(** X26. No transaction is lost or handed out twice. After any sequence
    of calls, the transactions that the calls of [Pending] returned,
    followed by those still in [vm.txs], are the issued transactions in
    the order they were issued, however many there are. *)
Theorem Pending_hands_out_each_tx_once ops :
  (run ops).2 ++ txs (run ops).1 = issued ops.
Proof.
  unfold run.
  destruct (run_from_spec ops {| txs := []; calls := [] |}) as [_ Hcons]; [by intros Hne|].
  by rewrite Hcons.
Qed.

End batch.

(** Thirty transactions while the channel is full: the thirtieth makes
    [FlushTxs] set the timer again; the timer then finds the channel free. *)
Definition thirty_then_timer : list (Op (Tx := nat)) :=
  ((λ tx, OpIssueTx tx false) <$> seq 0 30) ++ [OpFlushTxs true].

Lemma pending_txs_have_a_wake_up_witness :
  armed (calls (run thirty_then_timer).1) = true ∨
  notified (calls (run thirty_then_timer).1) = true.
Proof.
  apply (pending_txs_have_a_wake_up thirty_then_timer). by vm_compute.
Defined.

Example thirty_then_timer_calls :
  calls (run thirty_then_timer).1 =
    [Call_timer_SetTimeoutIn; Call_timer_Cancel; Call_Log_Warn; Call_timer_SetTimeoutIn;
     Call_timer_Cancel; Call_toEngine_PendingTxs] ∧
  (run (thirty_then_timer ++ [OpPending])).2 = seq 0 30.
Proof. by vm_compute. Qed.

End AvmBatch.
